(** * Slot allocation and qualifier selection of the Ironman analyzer

    A shallow embedding of [calculate_slot_allocation] and
    [determine_qualifiers] (analyze.py), followed by the properties the
    specification states about them.

    Modelling conventions.
    - A polars data frame is the list of its rows, a Python [dict] is an
      association list in insertion order with unique keys, a Python [int]
      is a [Z].
    - The proportional shares ([prop_slots], the decimal parts and the
      reallocation ratios) are Float64 values in the program; they are
      computed here in exact rational arithmetic ([Q]), with [int(..)] as
      truncation toward zero.
    - A run that raises is the outcome [Raises e].
    - [group_by] is called without [maintain_order], so polars fixes the
      rows of the grouped frame but not their order: the order of [slot_df]
      is an explicit input of the allocation ([slot_allocation_of]), and
      [calculate_slot_allocation] relates a roster to the result of every
      admissible order.
    - The screen that calls the two functions (the highlight key and the
      table of analyze.py), the text functions of qualify.py and the
      address, page loop and file name of scraper.py follow.  Text that
      Python treats by Unicode white space is a list of code points, with
      [str.isspace] as a parameter; addresses and file names are byte
      strings.  The network is a function from the address to the
      response, the page loop takes fuel and returns the addresses it has
      requested beside its result. *)

From Stdlib Require Import List String Ascii Bool ZArith QArith Qround.
From Stdlib Require Import Lia Permutation Sorted.
From Stdlib Require Import Floats.SpecFloat.
From Stdlib Require Import DecimalString DecimalZ.
Import ListNotations.
Local Open Scope Z_scope.

(** ** Outcomes of a Python run *)

Inductive exn : Type :=
| ZeroDivisionError
| KeyError.

Inductive outcome (A : Type) : Type :=
| Returns (a : A)
| Raises (e : exn).
Arguments Returns {A} a.
Arguments Raises {A} e.

Definition bind {A B : Type} (x : outcome A) (k : A -> outcome B) : outcome B :=
  match x with
  | Returns a => k a
  | Raises e => Raises e
  end.

Notation "x <- c ;; k" := (bind c (fun x => k))
  (at level 61, c at next level, right associativity).

(** ** Python dictionaries from labels to integers *)

Module Dict.

Definition t : Type := list (string * Z).

Definition keys (d : t) : list string := map fst d.

Fixpoint get (d : t) (k : string) : option Z :=
  match d with
  | [] => None
  | (k', v) :: d' => if String.eqb k k' then Some v else get d' k
  end.

(** [k in d] *)
Definition mem (d : t) (k : string) : bool :=
  match get d k with Some _ => true | None => false end.

(** [d.get(k, dflt)] *)
Definition get_default (d : t) (k : string) (dflt : Z) : Z :=
  match get d k with Some v => v | None => dflt end.

(** [d[k] = v]: an existing key keeps its position, a new one is appended. *)
Fixpoint set (d : t) (k : string) (v : Z) : t :=
  match d with
  | [] => [(k, v)]
  | (k', v') :: d' =>
      if String.eqb k k' then (k', v) :: d' else (k', v') :: set d' k v
  end.

(** [d[k] += n], which raises [KeyError] on a missing key. *)
Definition add (d : t) (k : string) (n : Z) : outcome t :=
  match get d k with
  | Some v => Returns (set d k (v + n))
  | None => Raises KeyError
  end.

(** [{k: v for k in ks}] *)
Definition from_keys (ks : list string) (v : Z) : t :=
  fold_left (fun d k => set d k v) ks [].

(** Sum of the values whose key satisfies [p]. *)
Fixpoint sum_where (p : string -> bool) (d : t) : Z :=
  match d with
  | [] => 0
  | (k, v) :: d' => (if p k then v else 0) + sum_where p d'
  end.

End Dict.

(** ** Rows *)

(** A roster row; only the columns the two functions read. *)
Record athlete : Type := mk_athlete {
  name : string;
  age_group : string;
  finisher : bool;
  age_group_rank : Z
}.

Definition DataFrame : Type := list athlete.

(** A row of [slot_df]. *)
Record group_row : Type := mk_group_row {
  row_age_group : string;
  gender : string;
  starters_count : Z;
  finishers_count : Z
}.

(** ** Aggregation (analyze.py, lines 134-153) *)

(** [pl.col("age_group").str.slice(0, 1)] *)
Definition gender_of (ag : string) : string := substring 0 1 ag.

(** [pl.col("age_group").is_in(valid_age_groups)] *)
Definition is_in (ag : string) (valid_age_groups : list string) : bool :=
  existsb (String.eqb ag) valid_age_groups.

(** The distinct labels of a column, by first occurrence. *)
Fixpoint unique_keys (l : list string) : list string :=
  match l with
  | [] => []
  | x :: l' => x :: filter (fun y => negb (String.eqb y x)) (unique_keys l')
  end.

Definition count_rows (p : athlete -> bool) (df : DataFrame) : Z :=
  Z.of_nat (List.length (filter p df)).

Definition has_age_group (ag : string) (a : athlete) : bool :=
  String.eqb (age_group a) ag.

(** [df.group_by("age_group", "gender").agg(...)]: one row per label (the
    gender is a function of the label), with the number of its rows. *)
Definition group_by_count (df : DataFrame) : list (string * string * Z) :=
  map (fun ag => (ag, gender_of ag, count_rows (has_age_group ag) df))
      (unique_keys (map age_group df)).

(** [starters.join(finishers, on=["age_group", "gender"], how="left")]
    followed by [fill_null(0)]. *)
Definition left_join (starters finishers : list (string * string * Z))
  : list group_row :=
  map (fun '(ag, g, s) =>
         mk_group_row ag g s
           match find (fun '(ag', g', _) => String.eqb ag ag' && String.eqb g g')
                      finishers with
           | Some (_, _, n) => n
           | None => 0
           end)
      starters.

(** The grouped frame with its rows in order of first occurrence. *)
Definition slot_frame (data_frame : DataFrame) (valid_age_groups : list string)
  : list group_row :=
  let df := filter (fun a => is_in (age_group a) valid_age_groups) data_frame in
  let finishers_df := filter finisher df in
  left_join (group_by_count df) (group_by_count finishers_df).

(** What polars guarantees of [slot_df]: the rows of [slot_frame], in some
    order. *)
Definition aggregation (data_frame : DataFrame) (valid_age_groups : list string)
  (slot_df : list group_row) : Prop :=
  Permutation slot_df (slot_frame data_frame valid_age_groups).

(** ** Allocation (analyze.py, lines 155-278) *)

Definition is_empty {A : Type} (l : list A) : bool :=
  match l with [] => true | _ => false end.

(** True division.  Python's [/] raises on a zero divisor; polars' [/]
    yields an infinity or a NaN there, on which [int(..)] raises. *)
Definition truediv (a b : Z) : outcome Q :=
  if b =? 0 then Raises ZeroDivisionError
  else Returns (inject_Z a / inject_Z b)%Q.

(** Python's [int(x)]. *)
Definition py_int (x : Q) : Z := Z.quot (Qnum x) (Zpos (Qden x)).

(** [l.sort(key=lambda x: x[1], reverse=True)]: stable, descending. *)
Fixpoint insert_desc {A : Type} (x : A * Q) (l : list (A * Q)) : list (A * Q) :=
  match l with
  | [] => [x]
  | y :: l' =>
      if Qle_bool (snd y) (snd x) then x :: y :: l' else y :: insert_desc x l'
  end.

Definition sort_desc {A : Type} (l : list (A * Q)) : list (A * Q) :=
  fold_right insert_desc [] l.

(** [for i in range(n): if i < len(ranked): slot_allocation[ranked[i][0]] += 1] *)
Definition award_one_each (n : Z) (ranked : list (string * Q)) (d : Dict.t)
  : outcome Dict.t :=
  fold_left
    (fun acc i =>
       d' <- acc ;;
       match nth_error ranked i with
       | Some (ag, _) => Dict.add d' ag 1
       | None => Returns d'
       end)
    (seq 0 (Z.to_nat n)) (Returns d).

Definition sum_starters (groups : list group_row) : Z :=
  fold_right (fun row acc => starters_count row + acc) 0 groups.

(** Lines 160-172: one slot for every row with starters, charged to the
    male budget when the gender is "M" and to the female budget otherwise. *)
Definition minimum_guarantee (slot_df : list group_row)
  (st : Dict.t * Z * Z) : Dict.t * Z * Z :=
  fold_left
    (fun '(slot_allocation, male_slots_total, female_slots_total) row =>
       if starters_count row =? 0 then
         (slot_allocation, male_slots_total, female_slots_total)
       else
         let slot_allocation := Dict.set slot_allocation (row_age_group row) 1 in
         if String.eqb (gender row) "M" then
           (slot_allocation, male_slots_total - 1, female_slots_total)
         else
           (slot_allocation, male_slots_total, female_slots_total - 1))
    slot_df st.

(** The column [prop_slots] of one row:
    [starters_count / total_starters * slots_total]. *)
Definition prop_slots (total_starters slots_total : Z) (row : group_row)
  : outcome Q :=
  q <- truediv (starters_count row) total_starters ;;
  Returns (q * inject_Z slots_total)%Q.

Fixpoint with_prop_slots (total_starters slots_total : Z)
  (groups : list group_row) : outcome (list (group_row * Q)) :=
  match groups with
  | [] => Returns []
  | row :: groups' =>
      p <- prop_slots total_starters slots_total row ;;
      rest <- with_prop_slots total_starters slots_total groups' ;;
      Returns ((row, p) :: rest)
  end.

(** Lines 193-197 (and 223-227): the whole parts. *)
Fixpoint add_whole_parts (props : list (group_row * Q))
  (st : Dict.t * Z) : outcome (Dict.t * Z) :=
  match props with
  | [] => Returns st
  | (row, p) :: props' =>
      let '(slot_allocation, slots_total) := st in
      let additional_slots := py_int p in
      d <- Dict.add slot_allocation (row_age_group row) additional_slots ;;
      add_whole_parts props' (d, slots_total - additional_slots)
  end.

(** Lines 183-209 for the men and 211-239 for the women: the two blocks
    differ only in the names of their variables. *)
Definition apportion (groups : list group_row) (slots_total : Z)
  (slot_allocation : Dict.t) : outcome Dict.t :=
  if (slots_total >? 0) && negb (is_empty groups) then
    let total_starters := sum_starters groups in
    if total_starters >? 0 then
      props <- with_prop_slots total_starters slots_total groups ;;
      st <- add_whole_parts props (slot_allocation, slots_total) ;;
      let '(slot_allocation, slots_total) := st in
      if slots_total >? 0 then
        let decimal_parts :=
          map (fun '(row, p) =>
                 (row_age_group row, (p - inject_Z (py_int p))%Q)) props in
        award_one_each slots_total (sort_desc decimal_parts) slot_allocation
      else Returns slot_allocation
    else Returns slot_allocation
  else Returns slot_allocation.

(** Lines 259-266: the ranking key of the targets. *)
Fixpoint ratios_of (target_groups : list group_row) (slot_allocation : Dict.t)
  : outcome (list (string * Q)) :=
  match target_groups with
  | [] => Returns []
  | trow :: rest =>
      let tgroup := row_age_group trow in
      ratio <- truediv (starters_count trow)
                 (Z.max 1 (Dict.get_default slot_allocation tgroup 1)) ;;
      ratios <- ratios_of rest slot_allocation ;;
      Returns ((tgroup, ratio) :: ratios)
  end.

(** Lines 242-272: the body of the reallocation loop. *)
Definition reallocate_row (male_groups female_groups : list group_row)
  (slot_allocation : Dict.t) (row : group_row) : outcome Dict.t :=
  let age_group := row_age_group row in
  if (starters_count row >? 0) && (finishers_count row =? 0)
     && Dict.mem slot_allocation age_group
     && (Dict.get_default slot_allocation age_group 0 >? 0)
  then
    let reallocate_slots := Dict.get_default slot_allocation age_group 0 in
    let slot_allocation := Dict.set slot_allocation age_group 0 in
    let target_groups :=
      if String.eqb (gender row) "M"
      then filter (fun r => finishers_count r >? 0) male_groups
      else filter (fun r => finishers_count r >? 0) female_groups in
    if negb (is_empty target_groups) then
      ratios <- ratios_of target_groups slot_allocation ;;
      award_one_each reallocate_slots (sort_desc ratios) slot_allocation
    else Returns slot_allocation
  else Returns slot_allocation.

Definition reallocate (male_groups female_groups slot_df : list group_row)
  (slot_allocation : Dict.t) : outcome Dict.t :=
  fold_left
    (fun acc row => d <- acc ;; reallocate_row male_groups female_groups d row)
    slot_df (Returns slot_allocation).

(** Lines 274-276. *)
Definition fill_missing (valid_age_groups : list string) (d : Dict.t) : Dict.t :=
  fold_left (fun d ag => if Dict.mem d ag then d else Dict.set d ag 0)
            valid_age_groups d.

Definition male_groups_of (slot_df : list group_row) : list group_row :=
  filter (fun r => String.eqb (gender r) "M" && (starters_count r >? 0)) slot_df.

Definition female_groups_of (slot_df : list group_row) : list group_row :=
  filter (fun r => String.eqb (gender r) "F" && (starters_count r >? 0)) slot_df.

(** The allocation as it stands after the largest-remainder correction
    (line 239), before the reallocation loop. *)
Definition allocation_before_reallocation (slot_df : list group_row)
  (mens_slots womens_slots : Z) (valid_age_groups : list string)
  : outcome Dict.t :=
  let slot_allocation := Dict.from_keys valid_age_groups 0 in
  let '(slot_allocation, male_slots_total, female_slots_total) :=
    minimum_guarantee slot_df (slot_allocation, mens_slots, womens_slots) in
  d <- apportion (male_groups_of slot_df) male_slots_total slot_allocation ;;
  apportion (female_groups_of slot_df) female_slots_total d.

(** [calculate_slot_allocation] from line 155 on, for a given [slot_df]. *)
Definition slot_allocation_of (slot_df : list group_row)
  (mens_slots womens_slots : Z) (valid_age_groups : list string)
  : outcome Dict.t :=
  d <- allocation_before_reallocation slot_df mens_slots womens_slots
         valid_age_groups ;;
  d <- reallocate (male_groups_of slot_df) (female_groups_of slot_df) slot_df d ;;
  Returns (fill_missing valid_age_groups d).

(** The outcomes of [calculate_slot_allocation(data_frame, mens_slots,
    womens_slots)] when [selector.json] lists [valid_age_groups]. *)
Inductive calculate_slot_allocation (data_frame : DataFrame)
  (mens_slots womens_slots : Z) (valid_age_groups : list string)
  : outcome Dict.t -> Prop :=
| run_allocation (slot_df : list group_row) :
    aggregation data_frame valid_age_groups slot_df ->
    calculate_slot_allocation data_frame mens_slots womens_slots
      valid_age_groups
      (slot_allocation_of slot_df mens_slots womens_slots valid_age_groups).

(** ** Selection (analyze.py, lines 281-308) *)

(** [df.with_row_index("row_idx")] *)
Definition with_row_index (df : DataFrame) : list (nat * athlete) :=
  combine (seq 0 (List.length df)) df.

Definition rank_of (r : nat * athlete) : Z := age_group_rank (snd r).

(** One sort on [age_group_rank]: insertion sort, which keeps equal ranks
    in input order. *)
Fixpoint insert_rank (x : nat * athlete) (l : list (nat * athlete))
  : list (nat * athlete) :=
  match l with
  | [] => [x]
  | y :: l' =>
      if rank_of x <=? rank_of y then x :: y :: l' else y :: insert_rank x l'
  end.

Definition stable_sort_rank (l : list (nat * athlete)) : list (nat * athlete) :=
  fold_right insert_rank [] l.

Section Selector.

(** [group_df.sort("age_group_rank")]: polars leaves the order of rows
    with equal rank open, so the sort is a parameter. *)
Variable sort_rank : list (nat * athlete) -> list (nat * athlete).

Definition qualifiers_of_group (df : DataFrame) (item : string * Z)
  : list nat :=
  let '(age_group, slots) := item in
  if slots <=? 0 then []
  else
    let group_df :=
      filter (fun r => has_age_group age_group (snd r) && finisher (snd r))
             (with_row_index df) in
    if is_empty group_df then []
    else map fst (firstn (Z.to_nat slots) (sort_rank group_df)).

Definition determine_qualifiers (df : DataFrame) (slot_allocation : Dict.t)
  : list nat :=
  flat_map (qualifiers_of_group df) slot_allocation.

End Selector.

(** ** Highlighting (analyze.py, lines 511-560 and 738-787) *)

Module Screen.

(** What [populate_table] and [action_highlight_qualifiers] read and write
    of an [IronmanResultsScreen]. *)
Record t : Type := mk {
  df : option DataFrame;
  filtered_df : option DataFrame;
  qualifier_rows : list nat;
  mens_slots : Z;
  womens_slots : Z
}.

(** [self.qualifier_rows = rows] *)
Definition set_qualifier_rows (st : t) (rows : list nat) : t :=
  mk (df st) (filtered_df st) rows (mens_slots st) (womens_slots st).

(** Lines 527-537: the names of the rows of [self.df] whose index is in
    [self.qualifier_rows]. *)
Definition qualifier_athletes (data_frame : DataFrame)
  (rows : list nat) : list string :=
  if is_empty rows then []
  else
    map (fun r => name (snd r))
        (filter (fun r => existsb (Nat.eqb (fst r)) rows)
                (with_row_index data_frame)).

(** Line 542: [row_dict["name"] in qualifier_athletes]. *)
Definition is_qualifier (athletes : list string) (row : athlete) : bool :=
  existsb (String.eqb (name row)) athletes.

(** The rows [populate_table] adds to the table, each with the flag that
    makes it green.  With qualifier rows and no [self.df] the lookup raises
    before the first row is added. *)
Definition populate_table (st : t) : list (athlete * bool) :=
  match filtered_df st with
  | None => []
  | Some shown =>
      if is_empty (qualifier_rows st) then
        map (fun row => (row, is_qualifier [] row)) shown
      else
        match df st with
        | Some data_frame =>
            let athletes := qualifier_athletes data_frame (qualifier_rows st) in
            map (fun row => (row, is_qualifier athletes row)) shown
        | None => []
        end
  end.

(** [action_highlight_qualifiers] for a given order of the grouped frame
    and a given sort; an exception of the allocation is caught and leaves
    the screen as it is. *)
Definition press (sort_rank : list (nat * athlete) -> list (nat * athlete))
  (valid_age_groups : list string) (slot_df : list group_row) (st : t) : t :=
  match df st with
  | None => st
  | Some data_frame =>
      if (mens_slots st =? 0) && (womens_slots st =? 0) then st
      else if negb (is_empty (qualifier_rows st)) then set_qualifier_rows st []
      else
        match slot_allocation_of slot_df (mens_slots st) (womens_slots st)
                valid_age_groups with
        | Returns slot_allocation =>
            set_qualifier_rows st
              (determine_qualifiers sort_rank data_frame slot_allocation)
        | Raises _ => st
        end
  end.

(** The screens one key press can lead to when [selector.json] lists
    [valid_age_groups]: polars chooses the order of the grouped frame and
    the order of equal ranks. *)
Inductive action_highlight_qualifiers (valid_age_groups : list string)
  (st : t) : t -> Prop :=
| run_press (sort_rank : list (nat * athlete) -> list (nat * athlete))
    (slot_df : list group_row) :
    (forall l, Permutation (sort_rank l) l) ->
    (forall l, Sorted (fun x y => rank_of x <= rank_of y) (sort_rank l)) ->
    (forall data_frame, df st = Some data_frame ->
       aggregation data_frame valid_age_groups slot_df) ->
    action_highlight_qualifiers valid_age_groups st
      (press sort_rank valid_age_groups slot_df st).

End Screen.

(** ** Text (qualify.py, lines 23-25; analyze.py, line 92) *)

(** A Python string: the list of its code points. *)
Definition text : Type := list N.

Definition text_eqb (s t : text) : bool :=
  if list_eq_dec N.eq_dec s t then true else false.

Section Text.

(** [str.isspace] of one character.  [str.strip], [str.split] and the
    class [\s] of a [str] pattern all decide by it; the table is CPython's,
    not the repository's. *)
Variable isspace : N -> bool.

(** [s.lstrip()] *)
Fixpoint lstrip (s : text) : text :=
  match s with
  | [] => []
  | c :: s' => if isspace c then lstrip s' else s
  end.

(** [s.rstrip()] *)
Definition rstrip (s : text) : text :=
  fold_right
    (fun c rest => if isspace c && is_empty rest then [] else c :: rest) [] s.

(** [s.strip()] *)
Definition strip (s : text) : text := rstrip (lstrip s).

(** [s.replace("\xa0", " ")] *)
Definition replace_nbsp (s : text) : text :=
  map (fun c => if N.eqb c 160 then 32%N else c) s.

(** [re.sub(r"\s+", " ", s)]: every maximal run of white space becomes one
    space; [in_run] tells that the run has begun. *)
Fixpoint sub_spaces (in_run : bool) (s : text) : text :=
  match s with
  | [] => []
  | c :: s' =>
      if isspace c then
        if in_run then sub_spaces true s' else 32%N :: sub_spaces true s'
      else c :: sub_spaces false s'
  end.

(** qualify.py, line 25. *)
Definition clean_text (t : text) : text :=
  sub_spaces false (strip (replace_nbsp t)).

(** [s.split()]: the maximal runs without white space; [word] holds the
    characters of the current run, last first. *)
Fixpoint split_from (word : text) (s : text) : list text :=
  match s with
  | [] => if is_empty word then [] else [rev word]
  | c :: s' =>
      if isspace c then
        if is_empty word then split_from [] s'
        else rev word :: split_from [] s'
      else split_from (c :: word) s'
  end.

Definition split (s : text) : list text := split_from [] s.

(** [" ".join(words)] *)
Fixpoint join_space (words : list text) : text :=
  match words with
  | [] => []
  | w :: rest =>
      if is_empty rest then w else w ++ 32%N :: join_space rest
  end.

(** analyze.py, line 92: the event title without its first word. *)
Definition ironman_name (title : text) : text :=
  join_space (tl (split title)).

End Text.

(** ** The table of qualifying slots (qualify.py, lines 18-61; analyze.py,
    lines 77-108 and 434-446) *)

Module Slots.

(** One value of [output_data["slots"]]. *)
Record entry : Type := mk {
  date : text;
  location : text;
  men_slots : Z;
  women_slots : Z
}.

(** [output_data["slots"]], and [data["slots"]] once it is read back. *)
Definition table : Type := list (text * entry).

Fixpoint get (d : table) (k : text) : option entry :=
  match d with
  | [] => None
  | (k', v) :: d' => if text_eqb k k' then Some v else get d' k
  end.

Fixpoint set (d : table) (k : text) (v : entry) : table :=
  match d with
  | [] => [(k, v)]
  | (k', v') :: d' =>
      if text_eqb k k' then (k', v) :: d' else (k', v') :: set d' k v
  end.

End Slots.

Section Scrape.

Variable isspace : N -> bool.

(** [str.isdigit] and [int]; [int] raises on a string that is not a
    decimal numeral. *)
Variable isdigit : text -> bool.
Variable int_of : text -> option Z.

(** [int(s) if s.isdigit() else 0] *)
Definition slot_number (s : text) : option Z :=
  if isdigit s then int_of s else Some 0.

(** Lines 43-61: one row of the table, given by the texts of its cells. *)
Definition scrape_row (cells : list text) (slots : Slots.table)
  : option Slots.table :=
  if (List.length cells <? 5)%nat then Some slots
  else
    let race_name := clean_text isspace (nth 0 cells []) in
    let race_date := clean_text isspace (nth 1 cells []) in
    let location := clean_text isspace (nth 2 cells []) in
    let women_slots := clean_text isspace (nth 3 cells []) in
    let men_slots := clean_text isspace (nth 4 cells []) in
    match slot_number men_slots with
    | None => None
    | Some men_slots =>
        match slot_number women_slots with
        | None => None
        | Some women_slots =>
            Some (Slots.set slots race_name
                    (Slots.mk race_date location men_slots women_slots))
        end
    end.

(** The loop of line 42; an exception ends it and is caught in line 65,
    the rows stored before stay in [output_data]. *)
Fixpoint scrape_rows (rows : list (list text)) (slots : Slots.table)
  : Slots.table :=
  match rows with
  | [] => slots
  | cells :: rows' =>
      match scrape_row cells slots with
      | Some slots' => scrape_rows rows' slots'
      | None => slots
      end
  end.

(** [scrape_table] on the rows of the first table of the page; the first
    row is the header. *)
Definition scrape_table (rows : list (list text)) (slots : Slots.table)
  : Slots.table :=
  scrape_rows (tl rows) slots.

(** [get_qualifying_slots] on the titles of the result rows ([None] for a
    row without title) and the table read from qualifying_slots.json;
    [None] stands for an exception. *)
Definition get_qualifying_slots (results : list (option text))
  (slots : Slots.table) : option (Z * Z) :=
  match results with
  | Some title :: _ =>
      match Slots.get slots (ironman_name isspace title) with
      | Some ironman_slots =>
          Some (Slots.men_slots ironman_slots, Slots.women_slots ironman_slots)
      | None => None
      end
  | _ => None
  end.

(** [on_mount] once [load_race_data] has returned [data_frame]: without
    filter and sort the shown frame is the loaded one. *)
Definition on_mount (data_frame : DataFrame) (results : list (option text))
  (slots : Slots.table) : Screen.t :=
  let '(mens_slots, womens_slots) :=
    match get_qualifying_slots results slots with
    | Some found => found
    | None => (0, 0)
    end in
  Screen.mk (Some data_frame) (Some data_frame) [] mens_slots womens_slots.

End Scrape.

(** ** The scraper (scraper.py, lines 25-26, 55-141 and 212-227) *)

Definition BASE_URL : string := "https://www.ironman.com"%string.

Definition RACES_URL : string := (BASE_URL ++ "/races")%string.

(** [f"{n}"] for an integer [n]. *)
Definition format_int (n : Z) : string :=
  NilEmpty.string_of_int (Z.to_int n).

(** [sep.join(parts)] *)
Fixpoint join (sep : string) (parts : list string) : string :=
  match parts with
  | [] => ""%string
  | part :: rest =>
      if is_empty rest then part else (part ++ sep ++ join sep rest)%string
  end.

(** [enumerate(l)] *)
Definition enumerate {A : Type} (l : list A) : list (nat * A) :=
  combine (seq 0 (List.length l)) l.

(** Lines 67-79: the list [params]; [None] and the empty list add
    nothing. *)
Definition filter_params (race_types regions : list string) (page : Z)
  : list string :=
  let params :=
    map (fun '(idx, race_type) =>
           ("facet[" ++ format_int (Z.of_nat idx) ++ "]=race:" ++ race_type)%string)
        (enumerate race_types) in
  let start_idx := List.length params in
  let params :=
    params
    ++ map (fun '(idx, region) =>
              ("facet[" ++ format_int (Z.of_nat (idx + start_idx))
               ++ "]=region:" ++ region)%string)
           (enumerate regions) in
  if page >? 0 then params ++ [("page=" ++ format_int page)%string]
  else params.

Definition build_filter_url (race_types regions : list string) (page : Z)
  : string :=
  let params := filter_params race_types regions page in
  if negb (is_empty params) then (RACES_URL ++ "?" ++ join "&" params)%string
  else RACES_URL.

(** What [get_race_links] reads of a response: the status code and, for
    each article of the result rows, the [href] of its first link if it has
    one. *)
Record response : Type := mk_response {
  status_code : Z;
  race_cards : list (option string)
}.

Section GetRaceLinks.

(** [requests.get(url, headers=HEADERS)] and [urljoin]. *)
Variable fetch : string -> response.
Variable urljoin : string -> string -> string.

(** Lines 125-131: the links of one page. *)
Definition page_links (cards : list (option string)) : list string :=
  flat_map
    (fun link_tag =>
       match link_tag with
       | Some href => [urljoin BASE_URL href]
       | None => []
       end)
    cards.

(** [max_pages and page > max_pages] *)
Definition past_limit (max_pages : option Z) (page : Z) : bool :=
  match max_pages with
  | Some limit => negb (limit =? 0) && (page >? limit)
  | None => false
  end.

(** The loop of lines 102-138 from [page] on, with the links found so far
    and the addresses requested so far; [None] when [fuel] rounds do not
    reach a [break]. *)
Fixpoint get_race_links_from (fuel : nat) (race_types regions : list string)
  (max_pages : option Z) (page : Z) (race_links requested : list string)
  : option (list string * list string) :=
  match fuel with
  | O => None
  | S fuel' =>
      if past_limit max_pages page then Some (race_links, requested)
      else
        let url := build_filter_url race_types regions page in
        let response := fetch url in
        let requested := requested ++ [url] in
        if negb (status_code response =? 200) then Some (race_links, requested)
        else if is_empty (race_cards response) then
          Some (race_links, requested)
        else
          let found := page_links (race_cards response) in
          let race_links := race_links ++ found in
          if is_empty found then Some (race_links, requested)
          else
            get_race_links_from fuel' race_types regions max_pages (page + 1)
              race_links requested
  end.

Definition get_race_links (fuel : nat) (race_types regions : list string)
  (max_pages : option Z) : option (list string * list string) :=
  get_race_links_from fuel race_types regions max_pages 0 [] [].

End GetRaceLinks.

(** [os.path.join("results", name)] on a POSIX system. *)
Definition join_results (name : string) : string :=
  if prefix "/" name then name else ("results" ++ "/" ++ name)%string.

(** [c.isascii()] on the bytes of the UTF-8 form of a string: the bytes of
    a character outside ASCII are all above 127. *)
Definition isascii (c : ascii) : bool := (nat_of_ascii c <? 128)%nat.

(** [s.replace(" ", "_")] *)
Fixpoint replace_spaces (s : string) : string :=
  match s with
  | EmptyString => EmptyString
  | String c s' =>
      String (if Ascii.eqb c " "%char then "_"%char else c) (replace_spaces s')
  end.

(** ["".join(c for c in s if c.isascii())] *)
Fixpoint keep_ascii (s : string) : string :=
  match s with
  | EmptyString => EmptyString
  | String c s' =>
      if isascii c then String c (keep_ascii s') else keep_ascii s'
  end.

(** Lines 218-223: the file [save_results] writes to; a missing and an
    empty name are both false. *)
Definition results_filename (event_id : string) (event_name : option string)
  : string :=
  match event_name with
  | Some (String c rest) =>
      let event_name := replace_spaces (String c rest) in
      let sanitized_name := keep_ascii event_name in
      join_results (sanitized_name ++ "_" ++ event_id ++ ".json")%string
  | _ => join_results (event_id ++ ".json")%string
  end.

(** ** Sub-events (scraper.py, lines 173-194) *)

(** What the scraper reads of a sub-event; [None] for a missing key. *)
Record subevent : Type := mk_subevent {
  wtc_eventid : option string;
  wtc_name : option string;
  wtc_eventdate_formatted : option string
}.

(** [subevent.get("wtc_eventdate_formatted", "")] *)
Definition event_date (s : subevent) : string :=
  match wtc_eventdate_formatted s with
  | Some d => d
  | None => ""%string
  end.

Section FetchSubevents.

(** [datetime.datetime.strptime(event_date, "%m/%d/%Y").year], [None] when
    it raises. *)
Variable year_of : string -> option Z.

(** The loop of lines 187-190; [None] when a date does not parse. *)
Fixpoint filter_years (years : list Z) (subevents : list subevent)
  : option (list subevent) :=
  match subevents with
  | [] => Some []
  | s :: rest =>
      match year_of (event_date s) with
      | None => None
      | Some y =>
          match filter_years years rest with
          | None => None
          | Some filtered_subevents =>
              Some (if existsb (Z.eqb y) years then s :: filtered_subevents
                    else filtered_subevents)
          end
      end
  end.

(** Lines 185-194, on the sub-events of the page. *)
Definition fetch_subevents (subevents : list subevent) (years : list Z)
  : option (list subevent) :=
  if is_empty years then Some subevents else filter_years years subevents.

End FetchSubevents.

(** * Vocabulary of the properties *)

(** ** Counts in the roster *)

(** Number of roster rows, and of finishers, with a given label. *)
Definition starters_in (df : DataFrame) (ag : string) : Z :=
  count_rows (has_age_group ag) df.

Definition finishers_in (df : DataFrame) (ag : string) : Z :=
  count_rows (fun a => has_age_group ag a && finisher a) df.

Definition row_for (df : DataFrame) (ag : string) : group_row :=
  mk_group_row ag (gender_of ag) (starters_in df ag) (finishers_in df ag).

(** What the allocation uses of a grouped frame. *)
Record grouped (df : DataFrame) (valid : list string)
  (slot_df : list group_row) : Prop := {
  grouped_NoDup : NoDup (map row_age_group slot_df);
  grouped_rows : forall row, In row slot_df <->
    exists ag, row = row_for df ag /\ In ag valid /\ 0 < starters_in df ag
}.

(** ** Runs of increments *)

(** Both award loops and the whole-part loop are runs of [d[k] += n]. *)
Fixpoint apply_adds (l : list (string * Z)) (d : Dict.t) : outcome Dict.t :=
  match l with
  | [] => Returns d
  | (k, n) :: l' => d' <- Dict.add d k n ;; apply_adds l' d'
  end.

Definition one_each (ranked : list (string * Q)) : list (string * Z) :=
  map (fun x => (fst x, 1)) ranked.

Definition sum_adds (p : string -> bool) (l : list (string * Z)) : Z :=
  fold_right (fun x acc => (if p (fst x) then snd x else 0) + acc) 0 l.

Definition total_adds (l : list (string * Z)) : Z :=
  fold_right (fun x acc => snd x + acc) 0 l.

Definition share (total_starters slots_total : Z) (row : group_row) : Q :=
  (inject_Z (starters_count row) / inject_Z total_starters
   * inject_Z slots_total)%Q.

Definition whole_adds (props : list (group_row * Q)) : list (string * Z) :=
  map (fun '(row, p) => (row_age_group row, py_int p)) props.

(** The increments one apportionment block performs. *)
Definition apportion_adds (groups : list group_row) (slots_total : Z)
  : list (string * Z) :=
  if (slots_total >? 0) && negb (is_empty groups) then
    let total_starters := sum_starters groups in
    if total_starters >? 0 then
      let props :=
        map (fun row => (row, share total_starters slots_total row)) groups in
      let left := slots_total - total_adds (whole_adds props) in
      whole_adds props ++
      (if left >? 0 then
         one_each
           (firstn (Z.to_nat left)
              (sort_desc
                 (map (fun '(row, p) =>
                         (row_age_group row, (p - inject_Z (py_int p))%Q))
                      props)))
       else [])
    else []
  else [].

(** Ranked before: a key at least as large. *)
Definition desc {A : Type} (x y : A * Q) : Prop := (snd y <= snd x)%Q.

(** ** Budgets *)

Definition is_male (ag : string) : bool := String.eqb (gender_of ag) "M".

Definition is_female (ag : string) : bool := String.eqb (gender_of ag) "F".

(** Rows charged to the male budget and rows charged to the female budget. *)
Definition charged_male (rows : list group_row) : Z :=
  Z.of_nat (List.length
    (filter (fun r => negb (starters_count r =? 0)
                      && String.eqb (gender r) "M") rows)).

Definition charged_female (rows : list group_row) : Z :=
  Z.of_nat (List.length
    (filter (fun r => negb (starters_count r =? 0)
                      && negb (String.eqb (gender r) "M")) rows)).

(** Rows labelled female, and rows whose label starts with neither letter;
    both kinds are charged to the female budget. *)
Definition female_rows (rows : list group_row) : Z :=
  Z.of_nat (List.length
    (filter (fun r => negb (starters_count r =? 0)
                      && String.eqb (gender r) "F") rows)).

Definition other_rows (rows : list group_row) : Z :=
  Z.of_nat (List.length
    (filter (fun r => negb (starters_count r =? 0)
                      && (negb (String.eqb (gender r) "M")
                          && negb (String.eqb (gender r) "F"))) rows)).

Definition set_minimum (d : Dict.t) (row : group_row) : Dict.t :=
  if starters_count row =? 0 then d else Dict.set d (row_age_group row) 1.

(** Where the allocation stands when the reallocation loop starts. *)
Record before_reallocation (valid : list string) (slot_df : list group_row)
  (mens_slots womens_slots : Z) (d : Dict.t) : Prop := {
  before_keys : Dict.keys d = Dict.keys (Dict.from_keys valid 0);
  before_rows : forall k, In k (map row_age_group slot_df) ->
    exists v, Dict.get d k = Some v /\ 1 <= v;
  before_rest : forall k, In k valid -> ~ In k (map row_age_group slot_df) ->
    Dict.get d k = Some 0;
  before_male : Dict.sum_where is_male d
    = charged_male slot_df
      + (let m := mens_slots - charged_male slot_df in
         if (m >? 0) && negb (is_empty (male_groups_of slot_df))
         then m else 0);
  before_female : Dict.sum_where is_female d
    = female_rows slot_df
      + (let f := womens_slots - charged_female slot_df in
         if (f >? 0) && negb (is_empty (female_groups_of slot_df))
         then f else 0)
}.

(** ** Reallocation *)

(** The guard of line 245. *)
Definition withdraws (d : Dict.t) (row : group_row) : bool :=
  (starters_count row >? 0) && (finishers_count row =? 0)
  && Dict.mem d (row_age_group row)
  && (Dict.get_default d (row_age_group row) 0 >? 0).

(** The rows a withdrawn row hands its slots to (lines 254-257). *)
Definition target_groups_of (male_groups female_groups : list group_row)
  (row : group_row) : list group_row :=
  if String.eqb (gender row) "M"
  then filter (fun r => finishers_count r >? 0) male_groups
  else filter (fun r => finishers_count r >? 0) female_groups.

(** The ranking key of a target (lines 263-265). *)
Definition ratio_of (d : Dict.t) (trow : group_row) : Q :=
  (inject_Z (starters_count trow)
   / inject_Z (Z.max 1 (Dict.get_default d (row_age_group trow) 1)))%Q.

Definition ratios_list (targets : list group_row) (d : Dict.t)
  : list (string * Q) :=
  map (fun trow => (row_age_group trow, ratio_of d trow)) targets.

(** The targets that receive a slot, in ranking order. *)
Definition recipients (targets : list group_row) (d : Dict.t) (k : Z)
  : list (string * Q) :=
  firstn (Z.to_nat k) (sort_desc (ratios_list targets d)).

Definition nonneg (d : Dict.t) : Prop :=
  forall k v, Dict.get d k = Some v -> 0 <= v.

(** What every returned map satisfies. *)
Record returned (valid : list string) (slot_df : list group_row)
  (d : Dict.t) : Prop := {
  returned_keys : Dict.keys d = Dict.keys (Dict.from_keys valid 0);
  returned_nonneg : forall k v, Dict.get d k = Some v -> 0 <= v;
  returned_withdrawn : forall row, In row slot_df -> finishers_count row = 0 ->
    Dict.get d (row_age_group row) = Some 0;
  returned_rest : forall k, In k valid -> ~ In k (map row_age_group slot_df) ->
    Dict.get d k = Some 0
}.

(** ** Selection *)

(** The indexed finishers of one category. *)
Definition group_rows (df : DataFrame) (ag : string) : list (nat * athlete) :=
  filter (fun r => has_age_group ag (snd r) && finisher (snd r))
         (with_row_index df).

(** The category of the roster row with a given index. *)
Definition in_category (df : DataFrame) (ag : string) (i : nat) : bool :=
  match nth_error df i with
  | Some a => has_age_group ag a
  | None => false
  end.

(** The qualifiers of one category among the selected rows. *)
Definition selected_in (qualifiers : list nat) (df : DataFrame) (ag : string)
  : list nat :=
  filter (in_category df ag) qualifiers.

Definition rank_le (x y : nat * athlete) : Prop := rank_of x <= rank_of y.

(** The rows taken for a category with [N > 0] slots. *)
Definition taken (sort_rank : list (nat * athlete) -> list (nat * athlete))
  (df : DataFrame) (c : string) (N : Z) : list (nat * athlete) :=
  firstn (Z.to_nat N) (sort_rank (group_rows df c)).


(** A second sort on ranks, which puts equal ranks in reverse input order. *)
Fixpoint insert_rank_after (x : nat * athlete) (l : list (nat * athlete))
  : list (nat * athlete) :=
  match l with
  | [] => [x]
  | y :: l' =>
      if rank_of x <? rank_of y then x :: y :: l'
      else y :: insert_rank_after x l'
  end.

Definition reverse_sort_rank (l : list (nat * athlete)) : list (nat * athlete) :=
  fold_right insert_rank_after [] l.

(** ** Concrete rosters *)

Definition two_prefix_roster : DataFrame :=
  [mk_athlete "Ann" "F18-24" true 1; mk_athlete "Pat" "PRO" true 1].

Definition two_prefix_valid : list string := ["F18-24"; "PRO"]%string.

Definition withdrawal_roster : DataFrame :=
  [mk_athlete "Ann" "F18-24" true 1; mk_athlete "Pat" "PRO" false 0].

Definition scenario_roster : DataFrame :=
  [ mk_athlete "A01" "M35-39" true 4;  mk_athlete "B01" "M40-44" false 0;
    mk_athlete "A02" "M35-39" true 1;  mk_athlete "A03" "M35-39" false 0;
    mk_athlete "B02" "M40-44" false 0; mk_athlete "A04" "M35-39" true 7;
    mk_athlete "A05" "M35-39" true 2;  mk_athlete "B03" "M40-44" false 0;
    mk_athlete "A06" "M35-39" true 8;  mk_athlete "A07" "M35-39" true 3;
    mk_athlete "B04" "M40-44" false 0; mk_athlete "A08" "M35-39" false 0;
    mk_athlete "A09" "M35-39" true 6;  mk_athlete "B05" "M40-44" false 0;
    mk_athlete "A10" "M35-39" true 5 ].

Definition scenario_valid : list string := ["M35-39"; "M40-44"]%string.

Definition scenario_allocation : Dict.t :=
  [("M35-39"%string, 3); ("M40-44"%string, 0)].

Definition row_M35 : group_row := mk_group_row "M35-39" "M" 10 8.

Definition row_M40 : group_row := mk_group_row "M40-44" "M" 5 0.

Definition surplus_roster : DataFrame :=
  [mk_athlete "Al" "M18-24" false 0; mk_athlete "Bo" "M25-29" true 1;
   mk_athlete "Cy" "M18-24" false 0; mk_athlete "Di" "M18-24" false 0].

Definition surplus_valid : list string := ["M18-24"; "M25-29"]%string.

Definition surplus_before : Dict.t :=
  [("M18-24"%string, 3); ("M25-29"%string, 2)].

Definition tie_roster : DataFrame :=
  [mk_athlete "Al" "M18-24" true 1; mk_athlete "Bo" "M25-29" true 1].


(** ** Binary64 arithmetic *)

Definition b64_of_Z (z : Z) : spec_float := binary_normalize 53 1024 z 0 false.

Definition b64_share (total_starters slots_total : Z) (row : group_row)
  : spec_float :=
  SFmul 53 1024
    (SFdiv 53 1024 (b64_of_Z (starters_count row)) (b64_of_Z total_starters))
    (b64_of_Z slots_total).

(** [int(x)] on a binary64 value; it raises on an infinity or a NaN. *)
Definition b64_int (x : spec_float) : option Z :=
  match x with
  | S754_zero _ => Some 0
  | S754_finite s m e =>
      let magnitude :=
        if 0 <=? e then Zpos m * 2 ^ e else Zpos m / 2 ^ (- e) in
      Some (if s then - magnitude else magnitude)
  | S754_infinity _ | S754_nan => None
  end.

Definition b64_decimal_part (x : spec_float) : spec_float :=
  match b64_int x with
  | Some n => SFsub 53 1024 x (b64_of_Z n)
  | None => S754_nan
  end.

Definition exact_decimal_part (x : Q) : Q := (x - inject_Z (py_int x))%Q.

(** Same whole parts, and the same outcome of every comparison the
    descending sort can make. *)
Definition b64_agrees (groups : list group_row) (slots_total : Z) : bool :=
  let total_starters := sum_starters groups in
  forallb
    (fun row =>
       match b64_int (b64_share total_starters slots_total row) with
       | Some n => n =? py_int (share total_starters slots_total row)
       | None => false
       end)
    groups
  && forallb
       (fun x =>
          forallb
            (fun y =>
               Bool.eqb
                 (SFleb
                    (b64_decimal_part (b64_share total_starters slots_total y))
                    (b64_decimal_part (b64_share total_starters slots_total x)))
                 (Qle_bool
                    (exact_decimal_part (share total_starters slots_total y))
                    (exact_decimal_part (share total_starters slots_total x))))
            groups)
       groups.

(** The same for both apportionment blocks of a run, with the budgets the
    minimum-guarantee phase leaves; a block that is skipped computes no
    share. *)
Definition b64_run_agrees (slot_df : list group_row)
  (mens_slots womens_slots : Z) (valid_age_groups : list string) : bool :=
  let '(_, male_slots_total, female_slots_total) :=
    minimum_guarantee slot_df
      (Dict.from_keys valid_age_groups 0, mens_slots, womens_slots) in
  (if male_slots_total >? 0
   then b64_agrees (male_groups_of slot_df) male_slots_total else true)
  && (if female_slots_total >? 0
      then b64_agrees (female_groups_of slot_df) female_slots_total else true).

(** ** The whole qualifier list *)

(** The number of rows [determine_qualifiers] owes to a map: for each entry
    with a positive count, that count or the number of finishers of the
    category, whichever is smaller. *)
Definition qualifier_count (df : DataFrame) (d : Dict.t) : Z :=
  fold_right
    (fun item acc =>
       (if snd item >? 0 then Z.min (snd item) (finishers_in df (fst item))
        else 0) + acc)
    0 d.

(** The sum of the positive counts of a map. *)
Definition positive_slots (d : Dict.t) : Z :=
  fold_right (fun item acc => Z.max 0 (snd item) + acc) 0 d.

(** ** Screens *)

(** The scenario roster on a freshly mounted screen with three male slots. *)
Definition scenario_screen : Screen.t :=
  Screen.mk (Some scenario_roster) (Some scenario_roster) [] 3 0.

(** Two athletes of one name, the first of them a qualifier. *)
Definition namesake_roster : DataFrame :=
  [mk_athlete "Kim" "F18-24" true 1; mk_athlete "Kim" "F25-29" true 9].

Definition namesake_screen : Screen.t :=
  Screen.mk (Some namesake_roster) (Some namesake_roster) [0%nat] 0 1.

(** ** Text *)

(** The white-space characters of Unicode, as CPython's [str.isspace]
    lists them. *)
Definition unicode_isspace (c : N) : bool :=
  existsb (N.eqb c)
    [9; 10; 11; 12; 13; 28; 29; 30; 31; 32; 133; 160; 5760; 8192; 8193; 8194;
     8195; 8196; 8197; 8198; 8199; 8200; 8201; 8202; 8232; 8233; 8239; 8287;
     12288]%N.

(** A run of characters without white space, and one of white space only. *)
Definition no_space (isspace : N -> bool) (s : text) : Prop :=
  forallb (fun c => negb (isspace c)) s = true.

Definition all_space (isspace : N -> bool) (s : text) : Prop :=
  forallb isspace s = true.

(** The code points of an ASCII string. *)
Definition text_of (s : string) : text :=
  map N_of_ascii (list_ascii_of_string s).

(** Words separated by single spaces: the first character is no white
    space, and every white-space character is a space followed by a
    character that is none. *)
Definition single_spaced (isspace : N -> bool) (s : text) : Prop :=
  (forall c r, s = c :: r -> isspace c = false)
  /\ (forall l c r, s = l ++ c :: r -> isspace c = true ->
        c = 32%N /\ exists c' r', r = c' :: r' /\ isspace c' = false).

(** A row of the page: the race, its date and place, and the slots of the
    women and of the men, as they may stand in the page. *)
Definition texas_cells : list text :=
  [text_of " IRONMAN  Texas "; text_of "April 26"; text_of "The Woodlands";
   text_of "25"; text_of "40 "].

(** The decimal digits of ASCII, for the two library functions of
    [scrape_row]. *)
Definition ascii_isdigit (s : text) : bool :=
  negb (is_empty s) && forallb (fun c => (48 <=? c)%N && (c <=? 57)%N) s.

Definition ascii_int (s : text) : option Z :=
  if ascii_isdigit s then
    Some (fold_left (fun acc c => 10 * acc + Z.of_N (c - 48)) s 0)
  else None.

(** ** Pages of the race list *)

(** The page numbers [first], [first + 1], ..., [count] of them. *)
Definition pages_from (first : Z) (count : nat) : list Z :=
  map (fun i => first + Z.of_nat i) (seq 0 count).

(** The links [get_race_links] takes from a page: those of its cards when
    the status is 200, none otherwise. *)
Definition links_on_page (fetch : string -> response)
  (urljoin : string -> string -> string)
  (race_types regions : list string) (page : Z) : list string :=
  let response := fetch (build_filter_url race_types regions page) in
  if status_code response =? 200 then page_links urljoin (race_cards response)
  else [].

(** A site whose pages 0 to 3 each show one race and whose later pages
    do not exist. *)
Definition four_pages (url : string) : response :=
  if existsb (String.eqb url)
       (map (build_filter_url [] []) (pages_from 0 4))
  then mk_response 200 [Some "/im-texas"%string]
  else mk_response 404 [].

Definition plain_urljoin (base href : string) : string := (base ++ href)%string.

(** A page after which [get_race_links] goes on: status 200 and at least
    one card with a link. *)
Definition is_live (fetch : string -> response)
  (urljoin : string -> string -> string)
  (race_types regions : list string) (page : Z) : bool :=
  let response := fetch (build_filter_url race_types regions page) in
  (status_code response =? 200)
  && negb (is_empty (page_links urljoin (race_cards response))).

(** ** Sub-events *)

(** The year of a date written as two digits, a slash, two digits, a slash
    and four digits; one of the forms [strptime] reads with "%m/%d/%Y". *)
Definition slash_date_year (s : string) : option Z :=
  match list_ascii_of_string s with
  | [m1; m2; "/"%char; d1; d2; "/"%char; y1; y2; y3; y4] =>
      let digit c := Z.of_nat (nat_of_ascii c) - 48 in
      if forallb (fun c => (0 <=? digit c) && (digit c <=? 9))
           [m1; m2; d1; d2; y1; y2; y3; y4]
      then Some (1000 * digit y1 + 100 * digit y2 + 10 * digit y3 + digit y4)
      else None
  | _ => None
  end.

Definition dated_subevent : subevent :=
  mk_subevent (Some "e1"%string) (Some "IRONMAN Texas"%string)
    (Some "04/26/2025"%string).

Definition undated_subevent : subevent :=
  mk_subevent (Some "e2"%string) (Some "IRONMAN Texas"%string) None.

(** * Properties *)

(** ** Dictionaries *)

Module DictFacts.
Import Dict.

Lemma get_set_same d k v : get (set d k v) k = Some v.
Proof.
  induction d as [|[k' v'] d IH]; simpl.
  - now rewrite String.eqb_refl.
  - destruct (String.eqb_spec k k') as [->|Hne]; simpl.
    + now rewrite String.eqb_refl.
    + destruct (String.eqb_spec k k'); [contradiction | exact IH].
Qed.

Lemma get_set_other d k v k' : k' <> k -> get (set d k v) k' = get d k'.
Proof.
  intros Hne. induction d as [|[k0 v0] d IH]; simpl.
  - destruct (String.eqb_spec k' k); [contradiction | reflexivity].
  - destruct (String.eqb_spec k k0) as [->|Hk]; simpl.
    + destruct (String.eqb_spec k' k0); [contradiction | reflexivity].
    + destruct (String.eqb_spec k' k0); [reflexivity | exact IH].
Qed.

Lemma get_set d k v k' :
  get (set d k v) k' = if String.eqb k' k then Some v else get d k'.
Proof.
  destruct (String.eqb_spec k' k) as [->|Hne].
  - apply get_set_same.
  - now apply get_set_other.
Qed.

Lemma get_in_keys d k : In k (keys d) <-> exists v, get d k = Some v.
Proof.
  unfold keys. induction d as [|[k' v'] d IH]; simpl.
  - split; [intros [] | intros [v Hv]; discriminate].
  - destruct (String.eqb_spec k k') as [->|Hne].
    + split; [intros _; now exists v' | now left].
    + rewrite <- IH. split; [intros [H|H]; [congruence | exact H] | now right].
Qed.

Lemma get_none_keys d k : get d k = None <-> ~ In k (keys d).
Proof.
  rewrite get_in_keys. destruct (get d k) as [v|].
  - split; [discriminate | intros H; exfalso; apply H; now exists v].
  - split; [intros _ [v Hv]; discriminate | reflexivity].
Qed.

Lemma mem_true d k : mem d k = true <-> In k (keys d).
Proof.
  unfold mem. rewrite get_in_keys. destruct (get d k) as [v|].
  - split; [intros _; now exists v | reflexivity].
  - split; [discriminate | intros [v Hv]; discriminate].
Qed.

Lemma keys_set_present d k v : In k (keys d) -> keys (set d k v) = keys d.
Proof.
  unfold keys. induction d as [|[k' v'] d IH]; simpl.
  - intros [].
  - intros Hin. destruct (String.eqb_spec k k') as [->|Hne]; simpl.
    + reflexivity.
    + f_equal. apply IH. destruct Hin as [H|H]; [congruence | exact H].
Qed.

Lemma keys_set_absent d k v : ~ In k (keys d) -> keys (set d k v) = keys d ++ [k].
Proof.
  unfold keys. induction d as [|[k' v'] d IH]; simpl.
  - reflexivity.
  - intros Hnin. destruct (String.eqb_spec k k') as [->|Hne]; simpl.
    + exfalso. apply Hnin. now left.
    + f_equal. apply IH. intros H. apply Hnin. now right.
Qed.

Lemma in_keys_set d k v k' : In k' (keys (set d k v)) <-> k' = k \/ In k' (keys d).
Proof.
  rewrite !get_in_keys, get_set.
  destruct (String.eqb_spec k' k) as [->|Hne].
  - split; [now left | intros _; now exists v].
  - split; [now right | intros [H|H]; [contradiction | exact H]].
Qed.

Lemma NoDup_keys_set d k v : NoDup (keys d) -> NoDup (keys (set d k v)).
Proof.
  intros Hnd. destruct (in_dec string_dec k (keys d)) as [Hin|Hnin].
  - now rewrite keys_set_present.
  - rewrite keys_set_absent by exact Hnin.
    apply NoDup_rev in Hnd. rewrite <- (rev_involutive (keys d ++ [k])).
    apply NoDup_rev. rewrite rev_app_distr. simpl. constructor.
    + now rewrite <- in_rev.
    + exact Hnd.
Qed.

Lemma sum_where_set p d k v v0 :
  get d k = Some v0 ->
  sum_where p (set d k v) = sum_where p d + (if p k then v - v0 else 0).
Proof.
  induction d as [|[k' v'] d IH]; simpl.
  - discriminate.
  - destruct (String.eqb_spec k k') as [->|Hne]; simpl.
    + intros [= ->]. destruct (p k'); lia.
    + intros H. rewrite (IH H). lia.
Qed.

Lemma add_returns d k n v :
  get d k = Some v -> add d k n = Returns (set d k (v + n)).
Proof. unfold add. now intros ->. Qed.

Lemma fold_set_keys ks v d k :
  In k (keys (fold_left (fun d k => set d k v) ks d)) <-> In k ks \/ In k (keys d).
Proof.
  revert d. induction ks as [|k0 ks IH]; intros d; simpl.
  - tauto.
  - rewrite IH, in_keys_set. intuition congruence.
Qed.

Lemma fold_set_NoDup ks v d :
  NoDup (keys d) -> NoDup (keys (fold_left (fun d k => set d k v) ks d)).
Proof.
  revert d. induction ks as [|k0 ks IH]; intros d Hd; simpl.
  - exact Hd.
  - apply IH. now apply NoDup_keys_set.
Qed.

Lemma fold_set_get ks v d k x :
  get (fold_left (fun d k => set d k v) ks d) k = Some x ->
  x = v \/ get d k = Some x.
Proof.
  revert d. induction ks as [|k0 ks IH]; intros d; simpl.
  - now right.
  - intros H. apply IH in H. destruct H as [H|H]; [now left|].
    rewrite get_set in H. destruct (String.eqb k k0).
    + left. congruence.
    + now right.
Qed.

Lemma from_keys_keys ks v k : In k (keys (from_keys ks v)) <-> In k ks.
Proof. unfold from_keys. rewrite fold_set_keys. simpl. tauto. Qed.

Lemma from_keys_NoDup ks v : NoDup (keys (from_keys ks v)).
Proof. apply fold_set_NoDup. constructor. Qed.

Lemma from_keys_get ks v k : In k ks -> get (from_keys ks v) k = Some v.
Proof.
  intros Hin. apply from_keys_keys with (v := v) in Hin.
  apply get_in_keys in Hin. destruct Hin as [x Hx].
  rewrite Hx. f_equal.
  apply fold_set_get in Hx. destruct Hx as [H|H]; [exact H | discriminate].
Qed.

Lemma sum_where_zero p d :
  (forall k v, get d k = Some v -> p k = true -> v = 0) ->
  NoDup (keys d) -> sum_where p d = 0.
Proof.
  induction d as [|[k v] d IH]; simpl; intros H Hnd.
  - reflexivity.
  - inversion Hnd as [|? ? Hk Hd]; subst.
    rewrite IH; trivial.
    + destruct (p k) eqn:Hp; [|reflexivity].
      rewrite (H k v); trivial. now rewrite String.eqb_refl.
    + intros k' v' Hg Hp. apply (H k' v'); trivial.
      destruct (String.eqb_spec k' k) as [->|]; [|exact Hg].
      exfalso. apply Hk. apply get_in_keys. now exists v'.
Qed.

End DictFacts.

(** ** The grouped frame *)

Lemma unique_keys_In l x : In x (unique_keys l) <-> In x l.
Proof.
  induction l as [|y l IH]; simpl; [tauto|].
  rewrite filter_In, IH.
  destruct (String.eqb_spec x y) as [->|Hne]; simpl.
  - split; [now left | now left].
  - split.
    + intros [H|[H _]]; [now left | now right].
    + intros [H|H]; [now left | right; now split].
Qed.

Lemma unique_keys_NoDup l : NoDup (unique_keys l).
Proof.
  induction l as [|y l IH]; simpl; constructor.
  - rewrite filter_In. intros [_ H]. now rewrite String.eqb_refl in H.
  - now apply NoDup_filter.
Qed.

Lemma count_rows_nonneg p df : 0 <= count_rows p df.
Proof. unfold count_rows. lia. Qed.

Lemma count_rows_pos p df :
  0 < count_rows p df <-> exists a, In a df /\ p a = true.
Proof.
  unfold count_rows. split.
  - intros H. destruct (filter p df) as [|a l] eqn:E; simpl in H; [lia|].
    exists a. apply filter_In. rewrite E. now left.
  - intros [a Ha]. apply filter_In in Ha.
    destruct (filter p df); [destruct Ha | simpl; lia].
Qed.

Lemma count_rows_filter p q df :
  count_rows p (filter q df) = count_rows (fun a => p a && q a) df.
Proof.
  unfold count_rows. f_equal. f_equal.
  induction df as [|a df IH]; simpl; [reflexivity|].
  destruct (q a); simpl.
  - rewrite andb_true_r. destruct (p a); simpl; now rewrite IH.
  - rewrite andb_false_r. exact IH.
Qed.

Lemma count_rows_ext p q df :
  (forall a, In a df -> p a = q a) -> count_rows p df = count_rows q df.
Proof.
  intros H. unfold count_rows. f_equal. f_equal.
  induction df as [|a df IH]; simpl; [reflexivity|].
  rewrite (H a) by now left.
  rewrite IH; [reflexivity|]. intros b Hb. apply H. now right.
Qed.

Lemma count_rows_le p q df :
  (forall a, p a = true -> q a = true) -> count_rows p df <= count_rows q df.
Proof.
  intros H. unfold count_rows. apply inj_le.
  induction df as [|a df IH]; simpl; [lia|].
  destruct (p a) eqn:Hp.
  - rewrite (H a Hp). simpl. lia.
  - destruct (q a); simpl; lia.
Qed.

Lemma finishers_le_starters df ag : finishers_in df ag <= starters_in df ag.
Proof.
  apply count_rows_le. intros a H. now apply andb_true_iff in H.
Qed.

Lemma find_group_by_count ag df :
  match find (fun '(ag', g', _) =>
                String.eqb ag ag' && String.eqb (gender_of ag) g')
             (group_by_count df) with
  | Some (_, _, n) => n
  | None => 0
  end = count_rows (has_age_group ag) df.
Proof.
  unfold group_by_count.
  assert (Hgen : forall ks,
    match find (fun '(ag', g', _) =>
                  String.eqb ag ag' && String.eqb (gender_of ag) g')
               (map (fun ag0 => (ag0, gender_of ag0,
                                 count_rows (has_age_group ag0) df)) ks) with
    | Some (_, _, n) => n
    | None => 0
    end = if existsb (String.eqb ag) ks
          then count_rows (has_age_group ag) df else 0).
  { induction ks as [|k ks IH]; simpl; [reflexivity|].
    destruct (String.eqb_spec ag k) as [->|Hne]; simpl.
    - now rewrite String.eqb_refl.
    - exact IH. }
  rewrite Hgen.
  destruct (existsb (String.eqb ag) (unique_keys (map age_group df))) eqn:E;
    [reflexivity|].
  symmetry. destruct (Z.eq_dec (count_rows (has_age_group ag) df) 0) as [H0|Hn0];
    [exact H0|].
  exfalso. pose proof (count_rows_nonneg (has_age_group ag) df) as Hnn.
  assert (Hpos : 0 < count_rows (has_age_group ag) df) by lia.
  apply count_rows_pos in Hpos. destruct Hpos as [a [Ha Hl]].
  apply String.eqb_eq in Hl.
  assert (Hex : existsb (String.eqb ag) (unique_keys (map age_group df)) = true).
  { apply existsb_exists. exists ag. split; [|apply String.eqb_refl].
    apply unique_keys_In. rewrite <- Hl. now apply in_map. }
  congruence.
Qed.

Lemma is_in_true ag valid : is_in ag valid = true <-> In ag valid.
Proof.
  unfold is_in. rewrite existsb_exists. split.
  - intros [x [Hx He]]. apply String.eqb_eq in He. now subst.
  - intros H. exists ag. split; [exact H | apply String.eqb_refl].
Qed.

(** The rows of the grouped frame are the rows [row_for df ag] of the valid
    labels that occur in the roster. *)
Lemma slot_frame_rows df valid :
  slot_frame df valid =
  map (row_for df)
      (unique_keys
         (map age_group (filter (fun a => is_in (age_group a) valid) df))).
Proof.
  unfold slot_frame, left_join.
  set (vdf := filter (fun a => is_in (age_group a) valid) df).
  unfold group_by_count at 2. rewrite map_map.
  apply map_ext_in. intros ag Hag.
  apply -> unique_keys_In in Hag. apply in_map_iff in Hag.
  destruct Hag as [a [Hl Ha]]. apply filter_In in Ha. destruct Ha as [Ha Hv].
  rewrite Hl in Hv.
  rewrite find_group_by_count. unfold row_for, starters_in, finishers_in.
  f_equal.
  - unfold vdf. rewrite count_rows_filter. apply count_rows_ext.
    intros b _. unfold has_age_group.
    destruct (String.eqb_spec (age_group b) ag) as [->|]; simpl;
      [exact Hv | reflexivity].
  - unfold vdf. rewrite !count_rows_filter. apply count_rows_ext.
    intros b _. unfold has_age_group.
    destruct (String.eqb_spec (age_group b) ag) as [->|]; simpl;
      [rewrite Hv; now rewrite andb_true_r | reflexivity].
Qed.

Lemma aggregation_grouped df valid slot_df :
  aggregation df valid slot_df -> grouped df valid slot_df.
Proof.
  unfold aggregation. rewrite slot_frame_rows. intros Hp.
  set (ks := unique_keys
         (map age_group (filter (fun a => is_in (age_group a) valid) df))) in *.
  assert (Hks : forall ag, In ag ks <-> In ag valid /\ 0 < starters_in df ag).
  { intros ag. unfold ks. rewrite unique_keys_In, in_map_iff.
    unfold starters_in. rewrite count_rows_pos. split.
    - intros [a [Hl Ha]]. apply filter_In in Ha. destruct Ha as [Ha Hv].
      subst ag. split; [now apply is_in_true|].
      exists a. split; [exact Ha | apply String.eqb_refl].
    - intros [Hv [a [Ha Hl]]]. apply String.eqb_eq in Hl.
      exists a. split; [exact Hl|]. apply filter_In. split; [exact Ha|].
      rewrite Hl. now apply is_in_true. }
  split.
  - apply (Permutation_map row_age_group) in Hp.
    apply (Permutation_NoDup (Permutation_sym Hp)).
    rewrite map_map. simpl. rewrite map_id. apply unique_keys_NoDup.
  - intros row. split.
    + intros Hin. apply (Permutation_in _ Hp) in Hin.
      apply in_map_iff in Hin. destruct Hin as [ag [Hr Hag]].
      exists ag. split; [now symmetry|]. now apply Hks.
    + intros [ag [-> Hag]]. apply (Permutation_in _ (Permutation_sym Hp)).
      apply in_map. now apply Hks.
Qed.

(** ** Sequences of increments *)

Section ApplyAdds.
Import Dict DictFacts.

Lemma fold_left_raises {A B : Type} (f : outcome A -> B -> outcome A)
  (l : list B) (e : exn) :
  (forall b, f (Raises e) b = Raises e) ->
  fold_left f l (Raises e) = Raises e.
Proof.
  intros Hf. induction l as [|b l IH]; simpl; [reflexivity|].
  now rewrite Hf.
Qed.

Lemma award_loop_skipn ranked n a d :
  fold_left
    (fun acc i =>
       d' <- acc ;;
       match nth_error ranked i with
       | Some (ag, _) => add d' ag 1
       | None => Returns d'
       end)
    (seq a n) (Returns d)
  = apply_adds (one_each (firstn n (skipn a ranked))) d.
Proof.
  revert a d. induction n as [|n IH]; intros a d; simpl; [reflexivity|].
  destruct (nth_error ranked a) as [[ag q]|] eqn:E.
  - assert (Hs : skipn a ranked = (ag, q) :: skipn (S a) ranked).
    { clear -E. revert ranked E.
      induction a as [|a IHa]; intros [|x r] E; simpl in *; try discriminate.
      - now inversion E.
      - now apply IHa. }
    rewrite Hs. simpl. destruct (add d ag 1) as [d1|e]; simpl.
    + apply IH.
    + apply fold_left_raises. reflexivity.
  - assert (Hs : skipn a ranked = []).
    { apply nth_error_None in E. now apply skipn_all2. }
    assert (Hs' : skipn (S a) ranked = []).
    { apply nth_error_None in E. apply skipn_all2. lia. }
    rewrite Hs. simpl.
    rewrite IH, Hs', firstn_nil. reflexivity.
Qed.

Lemma award_one_each_adds n ranked d :
  award_one_each n ranked d
  = apply_adds (one_each (firstn (Z.to_nat n) ranked)) d.
Proof. unfold award_one_each. now rewrite award_loop_skipn. Qed.

(** A run of increments on present keys returns, keeps the keys, leaves
    the other entries alone and moves a filtered sum by the increments
    that pass the filter. *)
Lemma apply_adds_returns l d :
  (forall x, In x l -> In (fst x) (keys d)) ->
  exists d', apply_adds l d = Returns d'
    /\ keys d' = keys d
    /\ (forall k, ~ In k (map fst l) -> get d' k = get d k)
    /\ (forall p, sum_where p d' = sum_where p d + sum_adds p l).
Proof.
  revert d. induction l as [|[k n] l IH]; intros d Hin; simpl.
  - exists d. repeat split; trivial. intros p. lia.
  - assert (Hk : In k (keys d)) by (apply (Hin (k, n)); now left).
    apply get_in_keys in Hk as Hv. destruct Hv as [v Hv].
    rewrite (add_returns _ _ _ _ Hv). simpl.
    assert (Hkeys : keys (set d k (v + n)) = keys d)
      by now apply keys_set_present.
    destruct (IH (set d k (v + n))) as [d' [Hr [Hk' [Ho Hs]]]].
    { intros x Hx. rewrite Hkeys. apply Hin. now right. }
    exists d'. split; [exact Hr|]. split; [congruence|]. split.
    + intros k' Hk0. rewrite Ho by (intros H; apply Hk0; now right).
      apply get_set_other. intros ->. apply Hk0. now left.
    + intros p. rewrite Hs, (sum_where_set p d k (v + n) v Hv).
      destruct (p k); lia.
Qed.

Lemma apply_adds_monotone l d d' :
  apply_adds l d = Returns d' ->
  (forall x, In x l -> 0 <= snd x) ->
  forall k v, get d k = Some v -> exists v', get d' k = Some v' /\ v <= v'.
Proof.
  revert d. induction l as [|[k n] l IH]; intros d; simpl.
  - intros [= ->] _ k v Hv. exists v. split; [exact Hv | lia].
  - unfold add at 1. destruct (get d k) as [v0|] eqn:E; simpl; [|discriminate].
    intros Hr Hnn k' v Hv.
    assert (Hn : 0 <= n) by (apply (Hnn (k, n)); now left).
    destruct (IH _ Hr (fun x Hx => Hnn x (or_intror Hx)) k'
                (if String.eqb k' k then v0 + n else v)) as [v' [Hv' Hle]].
    { rewrite get_set. destruct (String.eqb k' k); [reflexivity | exact Hv]. }
    exists v'. split; [exact Hv'|].
    destruct (String.eqb_spec k' k) as [->|]; [|exact Hle].
    rewrite E in Hv. inversion Hv. lia.
Qed.

Lemma sum_adds_all p l :
  (forall x, In x l -> p (fst x) = true) ->
  sum_adds p l = fold_right (fun x acc => snd x + acc) 0 l.
Proof.
  intros H. induction l as [|x l IH]; simpl; [reflexivity|].
  rewrite (H x) by now left. rewrite IH; [reflexivity|].
  intros y Hy. apply H. now right.
Qed.

Lemma sum_adds_none p l :
  (forall x, In x l -> p (fst x) = false) -> sum_adds p l = 0.
Proof.
  intros H. induction l as [|x l IH]; simpl; [reflexivity|].
  rewrite (H x) by now left. rewrite IH; [reflexivity|].
  intros y Hy. apply H. now right.
Qed.

Lemma sum_adds_app p l1 l2 :
  sum_adds p (l1 ++ l2) = sum_adds p l1 + sum_adds p l2.
Proof.
  induction l1 as [|x l1 IH]; simpl; [reflexivity|]. rewrite IH. lia.
Qed.

Lemma apply_adds_app l1 l2 d :
  apply_adds (l1 ++ l2) d = (d' <- apply_adds l1 d ;; apply_adds l2 d').
Proof.
  revert d. induction l1 as [|[k n] l1 IH]; intros d; simpl; [reflexivity|].
  destruct (add d k n) as [d1|e]; simpl; [apply IH | reflexivity].
Qed.

Lemma total_one_each ranked :
  fold_right (fun x acc => snd x + acc) 0 (one_each ranked)
  = Z.of_nat (List.length ranked).
Proof.
  induction ranked as [|x r IH]; [reflexivity|].
  cbn [one_each map fold_right snd List.length]. unfold one_each in IH.
  rewrite IH. lia.
Qed.

End ApplyAdds.

(** ** The descending sort *)

Section SortDesc.
Context {A : Type}.
Implicit Types (x : A * Q) (l : list (A * Q)).

Lemma insert_desc_perm x l : Permutation (insert_desc x l) (x :: l).
Proof.
  induction l as [|y l IH]; simpl; [reflexivity|].
  destruct (Qle_bool (snd y) (snd x)); [reflexivity|].
  rewrite IH. apply perm_swap.
Qed.

Lemma sort_desc_perm l : Permutation (sort_desc l) l.
Proof.
  induction l as [|x l IH]; simpl; [reflexivity|].
  rewrite insert_desc_perm. now apply perm_skip.
Qed.

Lemma sort_desc_length l : List.length (sort_desc l) = List.length l.
Proof. apply Permutation_length, sort_desc_perm. Qed.

Lemma insert_desc_sorted x l :
  StronglySorted desc l -> StronglySorted desc (insert_desc x l).
Proof.
  induction 1 as [|y l Hs IH Hy]; simpl.
  - constructor; constructor.
  - destruct (Qle_bool (snd y) (snd x)) eqn:E.
    + apply Qle_bool_iff in E. constructor.
      * now constructor.
      * constructor; [exact E|].
        eapply Forall_impl; [|exact Hy]. intros z Hz. unfold desc in *.
        now apply Qle_trans with (snd y).
    + assert (Hlt : (snd x < snd y)%Q).
      { apply Qnot_le_lt. intros H. apply Qle_bool_iff in H. congruence. }
      constructor; [exact IH|].
      apply (Permutation_Forall (Permutation_sym (insert_desc_perm x l))).
      constructor; [|exact Hy]. unfold desc. now apply Qlt_le_weak.
Qed.

Lemma sort_desc_sorted l : StronglySorted desc (sort_desc l).
Proof.
  induction l as [|x l IH]; simpl; [constructor|].
  now apply insert_desc_sorted.
Qed.

End SortDesc.

(** ** Whole parts of the proportional shares *)

Lemma py_int_share T B row :
  0 < T -> py_int (share T B row) = Z.quot (starters_count row * B) T.
Proof.
  intros HT. unfold share, py_int.
  destruct T as [|p|p]; try lia.
  cbn [inject_Z Qdiv Qinv Qmult Qnum Qden Pos.mul].
  rewrite Z.mul_1_r, Pos.mul_1_r. reflexivity.
Qed.

Lemma py_int_share_nonneg T B row :
  0 < T -> 0 <= B -> 0 <= starters_count row -> 0 <= py_int (share T B row).
Proof.
  intros HT HB Hs. rewrite py_int_share by exact HT.
  apply Z.quot_pos; nia.
Qed.

Lemma with_prop_slots_returns T B groups :
  T <> 0 ->
  with_prop_slots T B groups
  = Returns (map (fun row => (row, share T B row)) groups).
Proof.
  intros HT. induction groups as [|row groups IH]; simpl; [reflexivity|].
  unfold prop_slots, truediv. destruct (Z.eqb_spec T 0); [contradiction|].
  simpl. rewrite IH. reflexivity.
Qed.

Lemma add_whole_parts_adds props d B :
  add_whole_parts props (d, B)
  = (d' <- apply_adds (whole_adds props) d ;;
     Returns (d', B - total_adds (whole_adds props))).
Proof.
  revert d B. induction props as [|[row p] props IH]; intros d B; simpl.
  - f_equal. f_equal. lia.
  - destruct (Dict.add d (row_age_group row) (py_int p)) as [d1|e]; simpl;
      [|reflexivity].
    rewrite IH. destruct (apply_adds (whole_adds props) d1); simpl;
      [|reflexivity].
    f_equal. f_equal. lia.
Qed.

Lemma apportion_as_adds groups B d :
  apportion groups B d = apply_adds (apportion_adds groups B) d.
Proof.
  unfold apportion, apportion_adds.
  destruct ((B >? 0) && negb (is_empty groups)); [|reflexivity].
  destruct (Z.gtb_spec (sum_starters groups) 0) as [HT|HT]; [|reflexivity].
  rewrite with_prop_slots_returns by lia. cbn [bind].
  rewrite add_whole_parts_adds, apply_adds_app.
  destruct (apply_adds _ d) as [d1|e]; cbn [bind]; [|reflexivity].
  rewrite award_one_each_adds.
  destruct (_ >? 0); reflexivity.
Qed.

(** ** Largest remainders *)

Lemma In_firstn {A : Type} (n : nat) (l : list A) (x : A) :
  In x (firstn n l) -> In x l.
Proof.
  intros H. rewrite <- (firstn_skipn n l). apply in_or_app. now left.
Qed.

Lemma whole_parts_bounds T B gs :
  0 < T -> 0 <= B -> (forall row, In row gs -> 0 <= starters_count row) ->
  let W := total_adds (whole_adds (map (fun row => (row, share T B row)) gs)) in
  T * W <= B * sum_starters gs
  /\ B * sum_starters gs - Z.of_nat (List.length gs) * (T - 1) <= T * W.
Proof.
  intros HT HB. induction gs as [|row gs IH]; intros Hs.
  - simpl. lia.
  - assert (Hrow : 0 <= starters_count row) by (apply Hs; now left).
    destruct (IH (fun r Hr => Hs r (or_intror Hr))) as [IH1 IH2].
    cbn [map whole_adds total_adds fold_right snd sum_starters List.length] in *.
    fold (whole_adds (map (fun row => (row, share T B row)) gs)) in *.
    fold (total_adds (whole_adds (map (fun row => (row, share T B row)) gs))) in *.
    fold (sum_starters gs) in *.
    rewrite py_int_share by exact HT.
    rewrite Z.quot_div_nonneg by nia.
    pose proof (Z.div_mod (starters_count row * B) T ltac:(lia)) as Hdm.
    pose proof (Z.mod_pos_bound (starters_count row * B) T HT) as Hmod.
    set (q := starters_count row * B / T) in *.
    set (r := (starters_count row * B) mod T) in *.
    rewrite Nat2Z.inj_succ. nia.
Qed.

Lemma sum_starters_pos gs :
  gs <> [] -> (forall row, In row gs -> 0 < starters_count row) ->
  0 < sum_starters gs.
Proof.
  destruct gs as [|row gs]; [congruence|]. intros _ H.
  assert (Hnn : forall l, (forall r, In r l -> 0 < starters_count r) ->
                          0 <= sum_starters l).
  { induction l as [|r l IHl]; simpl; intros Hl; [lia|].
    specialize (Hl r (or_introl eq_refl)) as Hr.
    specialize (IHl (fun x Hx => Hl x (or_intror Hx))). lia. }
  simpl. specialize (H row (or_introl eq_refl)) as Hr.
  specialize (Hnn gs (fun x Hx => H x (or_intror Hx))). lia.
Qed.

Lemma whole_adds_keys T B gs x :
  In x (whole_adds (map (fun row => (row, share T B row)) gs)) ->
  exists row, In row gs /\ x = (row_age_group row, py_int (share T B row)).
Proof.
  unfold whole_adds. rewrite map_map. intros H. apply in_map_iff in H.
  destruct H as [row [Hx Hr]]. exists row. split; [exact Hr | now symmetry].
Qed.

Lemma apportion_adds_keys groups B x :
  In x (apportion_adds groups B) ->
  exists row, In row groups /\ fst x = row_age_group row.
Proof.
  unfold apportion_adds.
  destruct ((B >? 0) && negb (is_empty groups)); [|intros []].
  destruct (sum_starters groups >? 0); [|intros []].
  intros H. apply in_app_or in H. destruct H as [H|H].
  - apply whole_adds_keys in H. destruct H as [row [Hr ->]].
    exists row. split; [exact Hr | reflexivity].
  - destruct (_ >? 0); [|destruct H].
    unfold one_each in H. apply in_map_iff in H. destruct H as [y [<- Hy]].
    apply In_firstn in Hy.
    apply (Permutation_in _ (sort_desc_perm _)) in Hy.
    rewrite map_map in Hy. apply in_map_iff in Hy.
    destruct Hy as [row [<- Hr]]. exists row. split; [exact Hr | reflexivity].
Qed.

Lemma apportion_adds_nonneg groups B x :
  (forall row, In row groups -> 0 <= starters_count row) ->
  In x (apportion_adds groups B) -> 0 <= snd x.
Proof.
  unfold apportion_adds. intros Hs.
  destruct (Z.gtb_spec B 0) as [HB|HB]; simpl; [|intros []].
  destruct (negb (is_empty groups)); [|intros []].
  destruct (Z.gtb_spec (sum_starters groups) 0) as [HT|HT]; [|intros []].
  intros H. apply in_app_or in H. destruct H as [H|H].
  - apply whole_adds_keys in H. destruct H as [row [Hr ->]]. simpl.
    apply py_int_share_nonneg; [lia | lia | now apply Hs].
  - destruct (_ >? 0); [|destruct H].
    unfold one_each in H. apply in_map_iff in H. destruct H as [y [<- Hy]].
    simpl. lia.
Qed.

(** The increments of a block add up to its budget: the whole parts fall
    short of the budget by less than the number of groups, and the
    correction hands out exactly the shortfall. *)
Lemma apportion_adds_total groups B :
  (forall row, In row groups -> 0 < starters_count row) ->
  total_adds (apportion_adds groups B)
  = if (B >? 0) && negb (is_empty groups) then B else 0.
Proof.
  intros Hs. unfold apportion_adds.
  destruct (Z.gtb_spec B 0) as [HB|HB]; simpl; [|reflexivity].
  destruct groups as [|g0 gs] eqn:Eg; [reflexivity|]. rewrite <- Eg in *.
  cbn [is_empty negb]. replace (is_empty groups) with false by now rewrite Eg.
  cbn [negb].
  assert (HT : 0 < sum_starters groups).
  { apply sum_starters_pos; [rewrite Eg; discriminate | exact Hs]. }
  destruct (Z.gtb_spec (sum_starters groups) 0) as [_|]; [|lia].
  set (T := sum_starters groups) in *.
  set (props := map (fun row => (row, share T B row)) groups).
  destruct (whole_parts_bounds T B groups HT ltac:(lia)
              (fun r Hr => Z.lt_le_incl _ _ (Hs r Hr))) as [H1 H2].
  fold props in H1, H2. fold T in H1, H2.
  set (W := total_adds (whole_adds props)) in *.
  assert (Hlen : 0 < Z.of_nat (List.length groups)) by (rewrite Eg; simpl; lia).
  assert (HL0 : 0 <= B - W) by nia.
  assert (HLn : B - W < Z.of_nat (List.length groups)) by nia.
  assert (Happ : forall l1 l2, total_adds (l1 ++ l2) = total_adds l1 + total_adds l2).
  { intros l1 l2. induction l1 as [|x l1 IH]; simpl; [reflexivity|].
    rewrite IH. lia. }
  rewrite Happ. fold W.
  destruct (Z.gtb_spec (B - W) 0) as [HL|HL].
  - unfold total_adds at 1. rewrite total_one_each.
    rewrite firstn_length_le.
    + lia.
    + rewrite sort_desc_length, length_map. unfold props. rewrite length_map. lia.
  - simpl. lia.
Qed.

(** ** The minimum guarantee *)

Lemma charged_female_split rows :
  charged_female rows = female_rows rows + other_rows rows.
Proof.
  unfold charged_female, female_rows, other_rows.
  induction rows as [|r rows IH]; [reflexivity|].
  cbn [filter]. destruct (starters_count r =? 0); cbn [negb andb]; [exact IH|].
  destruct (String.eqb_spec (gender r) "M") as [E|E]; cbn [negb andb].
  - rewrite E. cbn [String.eqb Ascii.eqb Bool.eqb andb]. exact IH.
  - destruct (String.eqb (gender r) "F"); cbn [negb List.length];
      rewrite ?Nat2Z.inj_succ; lia.
Qed.

Lemma minimum_guarantee_eq rows d m f :
  minimum_guarantee rows (d, m, f)
  = (fold_left set_minimum rows d,
     m - charged_male rows, f - charged_female rows).
Proof.
  unfold minimum_guarantee, charged_male, charged_female.
  revert d m f. induction rows as [|row rows IH]; intros d m f.
  - simpl. repeat apply f_equal2; trivial; lia.
  - cbn [fold_left filter]. unfold set_minimum at 2.
    destruct (starters_count row =? 0); cbn [negb andb].
    + apply IH.
    + destruct (String.eqb (gender row) "M"); cbn [negb];
        rewrite IH; cbn [List.length]; rewrite Nat2Z.inj_succ;
        repeat match goal with |- (_, _) = (_, _) => apply f_equal2 end;
        trivial; lia.
Qed.

Section MinimumGuarantee.
Import Dict DictFacts.

Lemma set_minimum_keys rows d :
  (forall r, In r rows -> In (row_age_group r) (keys d)) ->
  keys (fold_left set_minimum rows d) = keys d.
Proof.
  revert d. induction rows as [|row rows IH]; intros d H; simpl; [reflexivity|].
  assert (Hk : keys (set_minimum d row) = keys d).
  { unfold set_minimum. destruct (starters_count row =? 0); [reflexivity|].
    apply keys_set_present, H. now left. }
  rewrite IH; [exact Hk|]. intros r Hr. rewrite Hk. apply H. now right.
Qed.

Lemma set_minimum_get rows d k :
  get (fold_left set_minimum rows d) k
  = if existsb (fun r => negb (starters_count r =? 0)
                         && String.eqb k (row_age_group r)) rows
    then Some 1 else get d k.
Proof.
  revert d. induction rows as [|row rows IH]; intros d; simpl; [reflexivity|].
  rewrite IH. destruct (existsb _ rows); [now rewrite orb_true_r|].
  rewrite orb_false_r. unfold set_minimum.
  destruct (starters_count row =? 0); simpl; [reflexivity|].
  apply get_set.
Qed.

Lemma set_minimum_sum p rows d :
  NoDup (map row_age_group rows) ->
  (forall r, In r rows -> get d (row_age_group r) = Some 0) ->
  sum_where p (fold_left set_minimum rows d)
  = sum_where p d
    + Z.of_nat (List.length
        (filter (fun r => negb (starters_count r =? 0) && p (row_age_group r))
                rows)).
Proof.
  revert d. induction rows as [|row rows IH]; intros d Hnd H0.
  - simpl. lia.
  - inversion Hnd as [|? ? Hrow Hnd']; subst. cbn [fold_left filter].
    rewrite IH; [|exact Hnd'|].
    + unfold set_minimum.
      destruct (starters_count row =? 0); cbn [negb andb]; [reflexivity|].
      rewrite (sum_where_set p d _ 1 0) by (apply H0; now left).
      destruct (p (row_age_group row)); cbn [List.length]; lia.
    + intros r Hr. unfold set_minimum.
      destruct (starters_count row =? 0); [apply H0; now right|].
      rewrite get_set_other; [apply H0; now right|].
      intros He. apply Hrow. rewrite <- He. now apply in_map.
Qed.

End MinimumGuarantee.

(** ** The allocation before the reallocation loop *)

Section BeforeReallocation.
Import Dict DictFacts.

Variables (df : DataFrame) (valid : list string) (slot_df : list group_row).
Hypothesis Hgrouped : grouped df valid slot_df.

Lemma grouped_row row :
  In row slot_df ->
  gender row = gender_of (row_age_group row)
  /\ In (row_age_group row) valid
  /\ starters_count row = starters_in df (row_age_group row)
  /\ finishers_count row = finishers_in df (row_age_group row)
  /\ 0 < starters_count row
  /\ 0 <= finishers_count row.
Proof.
  intros Hin. apply (grouped_rows _ _ _ Hgrouped) in Hin.
  destruct Hin as [ag [-> [Hv Hs]]]. simpl.
  repeat split; trivial. apply count_rows_nonneg.
Qed.

Lemma grouped_key_row k :
  In k (map row_age_group slot_df) <-> In k valid /\ 0 < starters_in df k.
Proof.
  rewrite in_map_iff. split.
  - intros [row [<- Hrow]]. apply grouped_row in Hrow.
    destruct Hrow as [_ [Hv [Hs [_ [Hpos _]]]]]. split; [exact Hv | lia].
  - intros [Hv Hs]. exists (row_for df k). split; [reflexivity|].
    apply (grouped_rows _ _ _ Hgrouped). now exists k.
Qed.

Lemma grouped_same_key r1 r2 :
  In r1 slot_df -> In r2 slot_df ->
  row_age_group r1 = row_age_group r2 -> r1 = r2.
Proof.
  intros H1 H2 He.
  apply (grouped_rows _ _ _ Hgrouped) in H1, H2.
  destruct H1 as [a1 [-> _]]. destruct H2 as [a2 [-> _]].
  simpl in He. now subst.
Qed.

Lemma male_groups_In row :
  In row (male_groups_of slot_df) <-> In row slot_df /\ gender row = "M"%string.
Proof.
  unfold male_groups_of. rewrite filter_In. split.
  - intros [Hin H]. apply andb_true_iff in H. destruct H as [H _].
    apply String.eqb_eq in H. now split.
  - intros [Hin H]. split; [exact Hin|]. apply andb_true_iff. split.
    + now apply String.eqb_eq.
    + apply grouped_row in Hin. apply Z.gtb_lt. tauto.
Qed.

Lemma female_groups_In row :
  In row (female_groups_of slot_df) <-> In row slot_df /\ gender row = "F"%string.
Proof.
  unfold female_groups_of. rewrite filter_In. split.
  - intros [Hin H]. apply andb_true_iff in H. destruct H as [H _].
    apply String.eqb_eq in H. now split.
  - intros [Hin H]. split; [exact Hin|]. apply andb_true_iff. split.
    + now apply String.eqb_eq.
    + apply grouped_row in Hin. apply Z.gtb_lt. tauto.
Qed.

Lemma charged_male_eq :
  charged_male slot_df
  = Z.of_nat (List.length
      (filter (fun r => negb (starters_count r =? 0)
                        && is_male (row_age_group r)) slot_df)).
Proof.
  unfold charged_male. f_equal. f_equal. apply filter_ext_in.
  intros r Hr. apply grouped_row in Hr. destruct Hr as [Hg _].
  unfold is_male. now rewrite Hg.
Qed.

Lemma female_rows_eq :
  female_rows slot_df
  = Z.of_nat (List.length
      (filter (fun r => negb (starters_count r =? 0)
                        && is_female (row_age_group r)) slot_df)).
Proof.
  unfold female_rows. f_equal. f_equal. apply filter_ext_in.
  intros r Hr. apply grouped_row in Hr. destruct Hr as [Hg _].
  unfold is_female. now rewrite Hg.
Qed.

Lemma allocation_before_reallocation_spec mens_slots womens_slots :
  exists d,
    allocation_before_reallocation slot_df mens_slots womens_slots valid
    = Returns d
    /\ before_reallocation valid slot_df mens_slots womens_slots d.
Proof.
  unfold allocation_before_reallocation. rewrite minimum_guarantee_eq.
  set (d0 := from_keys valid 0).
  set (d1 := fold_left set_minimum slot_df d0).
  set (m := mens_slots - charged_male slot_df).
  set (f := womens_slots - charged_female slot_df).
  assert (Hin0 : forall r, In r slot_df -> In (row_age_group r) (keys d0)).
  { intros r Hr. apply from_keys_keys. apply grouped_row in Hr. tauto. }
  assert (Hk1 : keys d1 = keys d0) by now apply set_minimum_keys.
  assert (Hget0 : forall r, In r slot_df -> get d0 (row_age_group r) = Some 0).
  { intros r Hr. apply from_keys_get. apply grouped_row in Hr. tauto. }
  assert (Hzero : forall p, sum_where p d0 = 0).
  { intros p. apply sum_where_zero; [|apply from_keys_NoDup].
    intros k v Hg _. unfold d0, from_keys in Hg. apply fold_set_get in Hg.
    destruct Hg as [Hg|Hg]; [exact Hg | discriminate]. }
  rewrite !apportion_as_adds.
  destruct (apply_adds_returns (apportion_adds (male_groups_of slot_df) m) d1)
    as [d2 [Hr2 [Hk2 [Ho2 Hs2]]]].
  { intros x Hx. apply apportion_adds_keys in Hx.
    destruct Hx as [row [Hrow ->]]. rewrite Hk1. apply Hin0.
    now apply male_groups_In in Hrow. }
  rewrite Hr2. cbn [bind]. rewrite apportion_as_adds.
  destruct (apply_adds_returns (apportion_adds (female_groups_of slot_df) f) d2)
    as [d3 [Hr3 [Hk3 [Ho3 Hs3]]]].
  { intros x Hx. apply apportion_adds_keys in Hx.
    destruct Hx as [row [Hrow ->]]. rewrite Hk2, Hk1. apply Hin0.
    now apply female_groups_In in Hrow. }
  exists d3. split; [exact Hr3|].
  assert (Hnn2 : forall x, In x (apportion_adds (male_groups_of slot_df) m) ->
                           0 <= snd x).
  { intros x. apply apportion_adds_nonneg. intros row Hrow.
    apply male_groups_In in Hrow. destruct Hrow as [Hrow _].
    apply grouped_row in Hrow. lia. }
  assert (Hnn3 : forall x, In x (apportion_adds (female_groups_of slot_df) f) ->
                           0 <= snd x).
  { intros x. apply apportion_adds_nonneg. intros row Hrow.
    apply female_groups_In in Hrow. destruct Hrow as [Hrow _].
    apply grouped_row in Hrow. lia. }
  assert (Hmale_keys : forall x,
    In x (apportion_adds (male_groups_of slot_df) m) -> is_male (fst x) = true).
  { intros x Hx. apply apportion_adds_keys in Hx.
    destruct Hx as [row [Hrow ->]]. apply male_groups_In in Hrow.
    destruct Hrow as [Hrow Hg]. apply grouped_row in Hrow.
    unfold is_male. destruct Hrow as [<- _]. now rewrite Hg. }
  assert (Hfemale_keys : forall x,
    In x (apportion_adds (female_groups_of slot_df) f) ->
    is_male (fst x) = false /\ is_female (fst x) = true).
  { intros x Hx. apply apportion_adds_keys in Hx.
    destruct Hx as [row [Hrow ->]]. apply female_groups_In in Hrow.
    destruct Hrow as [Hrow Hg]. apply grouped_row in Hrow.
    unfold is_male, is_female. destruct Hrow as [<- _]. now rewrite Hg. }
  assert (Hmale_not_female : forall x,
    In x (apportion_adds (male_groups_of slot_df) m) -> is_female (fst x) = false).
  { intros x Hx. apply apportion_adds_keys in Hx.
    destruct Hx as [row [Hrow ->]]. apply male_groups_In in Hrow.
    destruct Hrow as [Hrow Hg]. apply grouped_row in Hrow.
    unfold is_female. destruct Hrow as [<- _]. now rewrite Hg. }
  split.
  - now rewrite Hk3, Hk2, Hk1.
  - intros k Hk.
    assert (H1 : get d1 k = Some 1).
    { unfold d1. rewrite set_minimum_get.
      replace (existsb _ slot_df) with true; [reflexivity|].
      symmetry. apply existsb_exists. apply in_map_iff in Hk.
      destruct Hk as [row [<- Hrow]]. exists row. split; [exact Hrow|].
      rewrite String.eqb_refl, andb_true_r.
      apply grouped_row in Hrow.
      destruct (Z.eqb_spec (starters_count row) 0); [lia | reflexivity]. }
    destruct (apply_adds_monotone _ _ _ Hr2 Hnn2 k 1 H1) as [v2 [Hv2 Hle2]].
    destruct (apply_adds_monotone _ _ _ Hr3 Hnn3 k v2 Hv2) as [v3 [Hv3 Hle3]].
    exists v3. split; [exact Hv3 | lia].
  - intros k Hv Hnk.
    assert (Hnot : forall groups B,
      (forall row, In row groups -> In row slot_df) ->
      ~ In k (map fst (apportion_adds groups B))).
    { intros groups B Hsub Hin. apply in_map_iff in Hin.
      destruct Hin as [x [Hx Hin]]. apply apportion_adds_keys in Hin.
      destruct Hin as [row [Hrow He]]. apply Hnk. apply in_map_iff.
      exists row. split; [congruence | now apply Hsub]. }
    rewrite Ho3, Ho2.
    + unfold d1. rewrite set_minimum_get.
      replace (existsb _ slot_df) with false; [now apply from_keys_get|].
      symmetry. apply not_true_is_false. intros He.
      apply existsb_exists in He. destruct He as [row [Hrow He]].
      apply andb_true_iff in He. destruct He as [_ He].
      apply String.eqb_eq in He. apply Hnk. subst k. now apply in_map.
    + apply Hnot. intros row Hrow. now apply male_groups_In in Hrow.
    + apply Hnot. intros row Hrow. now apply female_groups_In in Hrow.
  - rewrite Hs3, Hs2.
    rewrite (sum_adds_none _ _ (fun x Hx => proj1 (Hfemale_keys x Hx))).
    rewrite (sum_adds_all _ _ Hmale_keys).
    fold (total_adds (apportion_adds (male_groups_of slot_df) m)).
    rewrite apportion_adds_total.
    + unfold d1.
      rewrite (set_minimum_sum _ _ _ (grouped_NoDup _ _ _ Hgrouped) Hget0).
      rewrite Hzero. unfold m. rewrite charged_male_eq. cbn zeta.
      destruct (_ && _); lia.
    + intros row Hrow. apply male_groups_In in Hrow. destruct Hrow as [Hrow _].
      apply grouped_row in Hrow. lia.
  - rewrite Hs3, Hs2.
    rewrite (sum_adds_none _ _ Hmale_not_female).
    rewrite (sum_adds_all _ _ (fun x Hx => proj2 (Hfemale_keys x Hx))).
    fold (total_adds (apportion_adds (female_groups_of slot_df) f)).
    rewrite apportion_adds_total.
    + unfold d1.
      rewrite (set_minimum_sum _ _ _ (grouped_NoDup _ _ _ Hgrouped) Hget0).
      rewrite Hzero. unfold f. rewrite female_rows_eq. cbn zeta.
      destruct (_ && _); lia.
    + intros row Hrow. apply female_groups_In in Hrow. destruct Hrow as [Hrow _].
      apply grouped_row in Hrow. lia.
Qed.

End BeforeReallocation.

(** ** Conservation before reallocation *)

(** With labels of the form M... or F... only, no row is charged to a
    budget that is not its gender's. *)
Lemma other_rows_zero rows :
  (forall r, In r rows -> gender r = "M"%string \/ gender r = "F"%string) ->
  other_rows rows = 0.
Proof.
  unfold other_rows. induction rows as [|r rows IH]; intros H; [reflexivity|].
  cbn [filter]. replace (_ && (_ && _)) with false.
  - apply IH. intros x Hx. apply H. now right.
  - destruct (H r (or_introl eq_refl)) as [-> | ->]; cbn;
      now rewrite andb_false_r.
Qed.




(** ** One reallocation step *)

Lemma ratios_of_returns targets d :
  ratios_of targets d = Returns (ratios_list targets d).
Proof.
  induction targets as [|trow rest IH]; simpl; [reflexivity|].
  unfold truediv.
  destruct (Z.eqb_spec (Z.max 1 (Dict.get_default d (row_age_group trow) 1)) 0);
    [lia|].
  simpl. rewrite IH. reflexivity.
Qed.

Lemma reallocate_row_eq male_groups female_groups d row :
  reallocate_row male_groups female_groups d row
  = if withdraws d row then
      let d0 := Dict.set d (row_age_group row) 0 in
      apply_adds
        (one_each
           (recipients (target_groups_of male_groups female_groups row) d0
              (Dict.get_default d (row_age_group row) 0)))
        d0
    else Returns d.
Proof.
  unfold reallocate_row, withdraws, recipients, target_groups_of.
  destruct (_ && _ && _ && _); [|reflexivity]. cbn zeta.
  set (targets := if String.eqb (gender row) "M" then _ else _).
  destruct targets as [|t rest] eqn:E.
  - simpl. now rewrite firstn_nil.
  - cbn [is_empty negb]. rewrite ratios_of_returns. cbn [bind].
    apply award_one_each_adds.
Qed.

Lemma recipients_keys targets d k x :
  In x (one_each (recipients targets d k)) ->
  snd x = 1 /\ exists trow, In trow targets /\ fst x = row_age_group trow.
Proof.
  unfold one_each, recipients. intros H. apply in_map_iff in H.
  destruct H as [y [<- Hy]]. split; [reflexivity|].
  apply In_firstn in Hy. apply (Permutation_in _ (sort_desc_perm _)) in Hy.
  unfold ratios_list in Hy. apply in_map_iff in Hy.
  destruct Hy as [trow [<- Ht]]. now exists trow.
Qed.

Lemma fill_missing_present valid d :
  (forall k, In k valid -> In k (Dict.keys d)) -> fill_missing valid d = d.
Proof.
  unfold fill_missing. induction valid as [|k valid IH]; intros H; simpl;
    [reflexivity|].
  replace (Dict.mem d k) with true.
  - apply IH. intros k' Hk'. apply H. now right.
  - symmetry. apply DictFacts.mem_true. apply H. now left.
Qed.

(** ** The reallocation loop *)

Section Reallocation.
Import Dict DictFacts.

Variables (df : DataFrame) (valid : list string) (slot_df : list group_row).
Hypothesis Hgrouped : grouped df valid slot_df.

Let male_groups := male_groups_of slot_df.
Let female_groups := female_groups_of slot_df.

Lemma target_In row trow :
  In trow (target_groups_of male_groups female_groups row) ->
  In trow slot_df /\ 0 < finishers_count trow
  /\ gender trow = (if String.eqb (gender row) "M" then "M" else "F")%string.
Proof.
  unfold target_groups_of.
  destruct (String.eqb (gender row) "M"); rewrite filter_In;
    intros [Hin Hf]; apply Z.gtb_lt in Hf.
  - apply (male_groups_In df valid slot_df Hgrouped) in Hin. tauto.
  - apply (female_groups_In df valid slot_df Hgrouped) in Hin. tauto.
Qed.

(** One step on a dictionary that covers the grouped frame. *)
Lemma reallocate_row_spec d row :
  In row slot_df ->
  (forall r, In r slot_df -> In (row_age_group r) (keys d)) ->
  nonneg d ->
  exists d',
    reallocate_row male_groups female_groups d row = Returns d'
    /\ keys d' = keys d
    /\ nonneg d'
    /\ (finishers_count row = 0 ->
        (exists v, get d (row_age_group row) = Some v /\ 1 <= v) ->
        get d' (row_age_group row) = Some 0)
    /\ (forall r, In r slot_df -> finishers_count r = 0 -> r <> row ->
        get d' (row_age_group r) = get d (row_age_group r))
    /\ (forall k, ~ In k (map row_age_group slot_df) -> get d' k = get d k).
Proof.
  intros Hrow Hcov Hnn. rewrite reallocate_row_eq.
  destruct (withdraws d row) eqn:Hw.
  - unfold withdraws in Hw. apply andb_true_iff in Hw. destruct Hw as [Hw Hpos].
    apply andb_true_iff in Hw. destruct Hw as [Hw Hmem].
    apply andb_true_iff in Hw. destruct Hw as [Hs Hf].
    apply Z.eqb_eq in Hf.
    cbn zeta. set (ag := row_age_group row) in *.
    set (d0 := set d ag 0).
    set (adds := one_each (recipients _ d0 _)).
    assert (Hk0 : keys d0 = keys d).
    { apply keys_set_present. now apply mem_true. }
    assert (Hadds : forall x, In x adds ->
              snd x = 1 /\ exists trow, In trow slot_df
                /\ 0 < finishers_count trow /\ fst x = row_age_group trow).
    { intros x Hx. apply recipients_keys in Hx.
      destruct Hx as [H1 [trow [Ht He]]]. split; [exact H1|].
      exists trow. apply target_In in Ht. tauto. }
    destruct (apply_adds_returns adds d0) as [d' [Hret [Hk [Ho Hsum]]]].
    { intros x Hx. destruct (Hadds x Hx) as [_ [trow [Ht [_ ->]]]].
      rewrite Hk0. now apply Hcov. }
    assert (Hzero_untouched : forall r, In r slot_df -> finishers_count r = 0 ->
              ~ In (row_age_group r) (map fst adds)).
    { intros r Hr Hr0 Hin. apply in_map_iff in Hin.
      destruct Hin as [x [Hx Hin]]. destruct (Hadds x Hin) as [_ [trow [Ht [Hfp He]]]].
      assert (trow = r).
      { apply (grouped_same_key df valid slot_df Hgrouped); trivial. congruence. }
      subst trow. lia. }
    exists d'. split; [exact Hret|]. split; [congruence|]. split; [|split; [|split]].
    + intros k v Hv.
      destruct (in_dec string_dec k (map fst adds)) as [Hin|Hnin].
      * assert (Hnn0 : nonneg d0).
        { intros k' v' Hv'. unfold d0 in Hv'. rewrite get_set in Hv'.
          destruct (String.eqb k' ag); [inversion Hv'; lia | now apply (Hnn k')]. }
        assert (Hk' : In k (keys d0)).
        { rewrite <- Hk. apply get_in_keys. now exists v. }
        apply get_in_keys in Hk'. destruct Hk' as [v0 Hv0].
        destruct (apply_adds_monotone adds d0 d' Hret) with (k := k) (v := v0)
          as [v' [Hv' Hle]]; trivial.
        { intros x Hx. destruct (Hadds x Hx) as [-> _]. lia. }
        rewrite Hv in Hv'. inversion Hv'. subst v'.
        specialize (Hnn0 k v0 Hv0). lia.
      * rewrite (Ho k Hnin) in Hv. unfold d0 in Hv. rewrite get_set in Hv.
        destruct (String.eqb k ag); [inversion Hv; lia | now apply (Hnn k)].
    + intros _ _. rewrite Ho by now apply Hzero_untouched.
      unfold d0. apply get_set_same.
    + intros r Hr Hr0 Hne. rewrite Ho by now apply Hzero_untouched.
      unfold d0. apply get_set_other. intros He. apply Hne.
      now apply (grouped_same_key df valid slot_df Hgrouped).
    + intros k Hnk. rewrite Ho.
      * unfold d0. apply get_set_other. intros ->. apply Hnk. now apply in_map.
      * intros Hin. apply in_map_iff in Hin. destruct Hin as [x [Hx Hin]].
        destruct (Hadds x Hin) as [_ [trow [Ht [_ He]]]].
        apply Hnk. apply in_map_iff. exists trow. split; [congruence | exact Ht].
  - exists d. split; [reflexivity|]. split; [reflexivity|]. split; [exact Hnn|].
    split; [|split; reflexivity].
    intros Hf [v [Hv Hle]]. exfalso.
    unfold withdraws in Hw.
    assert (Hs : (starters_count row >? 0) = true).
    { apply Z.gtb_lt. apply (grouped_row df valid slot_df Hgrouped) in Hrow. tauto. }
    rewrite Hs, Hf in Hw. unfold mem, get_default in Hw. rewrite Hv in Hw.
    cbn in Hw. destruct (Z.gtb_spec v 0); [discriminate | lia].
Qed.

Lemma reallocate_loop rows d :
  NoDup (map row_age_group rows) ->
  (forall r, In r rows -> In r slot_df) ->
  (forall r, In r slot_df -> In (row_age_group r) (keys d)) ->
  nonneg d ->
  exists d',
    reallocate male_groups female_groups rows d = Returns d'
    /\ keys d' = keys d
    /\ nonneg d'
    /\ (forall r, In r slot_df -> finishers_count r = 0 ->
        (In r rows -> (exists v, get d (row_age_group r) = Some v /\ 1 <= v) ->
         get d' (row_age_group r) = Some 0)
        /\ (~ In r rows -> get d' (row_age_group r) = get d (row_age_group r)))
    /\ (forall k, ~ In k (map row_age_group slot_df) -> get d' k = get d k).
Proof.
  unfold reallocate. revert d.
  induction rows as [|row rows IH]; intros d Hnd Hsub Hcov Hnn.
  - exists d. simpl. repeat split; trivial. intros [].
  - inversion Hnd as [|? ? Hrow Hnd']; subst.
    assert (Hin : In row slot_df) by (apply Hsub; now left).
    destruct (reallocate_row_spec d row Hin Hcov Hnn)
      as [d1 [Hr1 [Hk1 [Hnn1 [Hself [Hzero Hrest]]]]]].
    cbn [fold_left bind]. rewrite Hr1.
    destruct (IH d1 Hnd' (fun r Hr => Hsub r (or_intror Hr)))
      as [d' [Hr' [Hk' [Hnn' [Hz' Hrest']]]]]; trivial.
    { intros r Hr. rewrite Hk1. now apply Hcov. }
    exists d'. split; [exact Hr'|]. split; [congruence|]. split; [exact Hnn'|].
    split.
    + intros r Hr Hr0. destruct (Hz' r Hr Hr0) as [Hz1 Hz2]. split.
      * intros [<-|Hin'] Hv.
        -- rewrite Hz2.
           ++ now apply Hself.
           ++ intros Hin'. apply Hrow. now apply in_map.
        -- apply Hz1; [exact Hin'|]. rewrite Hzero; trivial.
           intros ->. apply Hrow. now apply in_map.
      * intros Hnot. rewrite Hz2 by (intros H; apply Hnot; now right).
        apply Hzero; trivial. intros ->. apply Hnot. now left.
    + intros k Hk. rewrite Hrest' by exact Hk. now apply Hrest.
Qed.

End Reallocation.

(** ** The returned allocation *)

Section Returned.
Import Dict DictFacts.

Variables (df : DataFrame) (valid : list string) (slot_df : list group_row).
Hypothesis Hgrouped : grouped df valid slot_df.

Lemma slot_allocation_of_spec mens_slots womens_slots :
  exists d,
    slot_allocation_of slot_df mens_slots womens_slots valid = Returns d
    /\ returned valid slot_df d.
Proof.
  unfold slot_allocation_of.
  destruct (allocation_before_reallocation_spec df valid slot_df Hgrouped
              mens_slots womens_slots) as [d1 [Hr1 Hd1]].
  rewrite Hr1. cbn [bind].
  assert (Hcov : forall r, In r slot_df -> In (row_age_group r) (keys d1)).
  { intros r Hr. rewrite (before_keys _ _ _ _ _ Hd1). apply from_keys_keys.
    apply (grouped_row df valid slot_df Hgrouped) in Hr. tauto. }
  assert (Hnn1 : nonneg d1).
  { intros k v Hv.
    destruct (in_dec string_dec k (map row_age_group slot_df)) as [Hin|Hnin].
    - destruct (before_rows _ _ _ _ _ Hd1 k Hin) as [v' [Hv' Hle]].
      rewrite Hv in Hv'. inversion Hv'. lia.
    - assert (Hkv : In k valid).
      { apply (from_keys_keys valid 0). rewrite <- (before_keys _ _ _ _ _ Hd1).
        apply get_in_keys. now exists v. }
      rewrite (before_rest _ _ _ _ _ Hd1 k Hkv Hnin) in Hv. inversion Hv. lia. }
  destruct (reallocate_loop df valid slot_df Hgrouped slot_df d1
              (grouped_NoDup _ _ _ Hgrouped) (fun r Hr => Hr) Hcov Hnn1)
    as [d2 [Hr2 [Hk2 [Hnn2 [Hz2 Hrest2]]]]].
  rewrite Hr2. cbn [bind].
  assert (Hkeys : keys d2 = keys (from_keys valid 0)).
  { rewrite Hk2. apply (before_keys _ _ _ _ _ Hd1). }
  rewrite fill_missing_present.
  2:{ intros k Hk. rewrite Hkeys. now apply from_keys_keys. }
  exists d2. split; [reflexivity|]. split.
  - exact Hkeys.
  - exact Hnn2.
  - intros row Hrow Hf. destruct (Hz2 row Hrow Hf) as [Hz _].
    apply Hz; [exact Hrow|].
    apply (before_rows _ _ _ _ _ Hd1). now apply in_map.
  - intros k Hk Hnk. rewrite Hrest2 by exact Hnk.
    now apply (before_rest _ _ _ _ _ Hd1).
Qed.

End Returned.

(** ** Runs *)

Lemma all_runs_return df valid mens_slots womens_slots res :
  calculate_slot_allocation df mens_slots womens_slots valid res ->
  exists slot_df d,
    grouped df valid slot_df
    /\ res = Returns d
    /\ slot_allocation_of slot_df mens_slots womens_slots valid = Returns d
    /\ returned valid slot_df d.
Proof.
  intros [slot_df Hagg]. apply aggregation_grouped in Hagg.
  destruct (slot_allocation_of_spec df valid slot_df Hagg mens_slots womens_slots)
    as [d [Hr Hd]].
  exists slot_df, d. now rewrite Hr.
Qed.

Lemma some_run df valid mens_slots womens_slots :
  calculate_slot_allocation df mens_slots womens_slots valid
    (slot_allocation_of (slot_frame df valid) mens_slots womens_slots valid).
Proof. constructor. apply Permutation_refl. Qed.

(** ** Zero-finisher withdrawal *)

(** C4: in every map [calculate_slot_allocation] returns, a ground-truth
    category with starters and no finisher holds 0 slots. *)
Theorem zero_finisher_withdrawal
  (df : DataFrame) (valid : list string) (mens_slots womens_slots : Z)
  (res : outcome Dict.t) :
  calculate_slot_allocation df mens_slots womens_slots valid res ->
  exists d,
    res = Returns d
    /\ forall ag, In ag valid -> 0 < starters_in df ag ->
                  finishers_in df ag = 0 -> Dict.get d ag = Some 0.
Proof.
  intros Hrun. apply all_runs_return in Hrun.
  destruct Hrun as [slot_df [d [Hg [-> [_ Hd]]]]].
  exists d. split; [reflexivity|]. intros ag Hv Hs Hf.
  apply (returned_withdrawn _ _ _ Hd (row_for df ag)).
  - apply (grouped_rows _ _ _ Hg). now exists ag.
  - exact Hf.
Qed.

Lemma zero_finisher_withdrawal_witness :
  exists d,
    slot_allocation_of (slot_frame scenario_roster scenario_valid) 3 0
      scenario_valid = Returns d
    /\ Dict.get d "M40-44" = Some 0.
Proof.
  destruct (zero_finisher_withdrawal scenario_roster scenario_valid 3 0 _
              (some_run scenario_roster scenario_valid 3 0)) as [d [Hr Hd]].
  exists d. split; [exact Hr|].
  apply Hd; [right; now left | reflexivity | reflexivity].
Defined.

(** ** Totality *)


(** ** The minimum guarantee and the budgets *)

(** C6 as stated fails on the budget: with ground truth {F18-24, PRO}, one
    starter in each and 5 female slots, one category has gender F, but the
    female budget left by the minimum-guarantee phase is 3, not 5 - 1. *)
Lemma minimum_guarantee_counterexample :
  let slot_df := slot_frame two_prefix_roster two_prefix_valid in
  aggregation two_prefix_roster two_prefix_valid slot_df
  /\ female_rows slot_df = 1
  /\ snd (minimum_guarantee slot_df (Dict.from_keys two_prefix_valid 0, 0, 5))
     = 3
  /\ snd (minimum_guarantee slot_df (Dict.from_keys two_prefix_valid 0, 0, 5))
     <> 5 - female_rows slot_df.
Proof.
  cbn zeta. split; [apply Permutation_refl|].
  split; [reflexivity|]. split; [reflexivity|]. vm_compute. discriminate.
Qed.

(** C6 (amended): after the minimum-guarantee phase every ground-truth
    category with starters holds exactly 1 slot, and it still holds at
    least 1 after the proportional and largest-remainder phases; the male
    budget has been decremented by 1 for every such category whose label
    starts with M and the female budget by 1 for every other such category
    (label starting with F or with any other character), with no check
    that the budgets stay non-negative. *)
Theorem minimum_guarantee_holds
  (df : DataFrame) (valid : list string) (mens_slots womens_slots : Z)
  (slot_df : list group_row) :
  aggregation df valid slot_df ->
  exists d1 d,
    minimum_guarantee slot_df (Dict.from_keys valid 0, mens_slots, womens_slots)
    = (d1, mens_slots - charged_male slot_df,
       womens_slots - (female_rows slot_df + other_rows slot_df))
    /\ allocation_before_reallocation slot_df mens_slots womens_slots valid
       = Returns d
    /\ forall ag, In ag valid -> 0 < starters_in df ag ->
         Dict.get d1 ag = Some 1
         /\ exists v, Dict.get d ag = Some v /\ 1 <= v.
Proof.
  intros Hagg. apply aggregation_grouped in Hagg.
  destruct (allocation_before_reallocation_spec df valid slot_df Hagg
              mens_slots womens_slots) as [d [Hr Hd]].
  exists (fold_left set_minimum slot_df (Dict.from_keys valid 0)), d.
  split; [|split; [exact Hr|]].
  - rewrite minimum_guarantee_eq. now rewrite charged_female_split.
  - intros ag Hv Hs.
    assert (Hin : In (row_for df ag) slot_df).
    { apply (grouped_rows _ _ _ Hagg). now exists ag. }
    split.
    + rewrite set_minimum_get.
      replace (existsb _ slot_df) with true; [reflexivity|].
      symmetry. apply existsb_exists. exists (row_for df ag).
      split; [exact Hin|]. simpl. rewrite String.eqb_refl, andb_true_r.
      destruct (Z.eqb_spec (starters_in df ag) 0); [lia | reflexivity].
    + apply (before_rows _ _ _ _ _ Hd).
      change ag with (row_age_group (row_for df ag)). now apply in_map.
Qed.

Lemma minimum_guarantee_holds_witness :
  exists d1 d,
    minimum_guarantee (slot_frame two_prefix_roster two_prefix_valid)
      (Dict.from_keys two_prefix_valid 0, 0, 5)
    = (d1, 0 - 0, 5 - (1 + 1))
    /\ allocation_before_reallocation
         (slot_frame two_prefix_roster two_prefix_valid) 0 5 two_prefix_valid
       = Returns d
    /\ Dict.get d1 "PRO" = Some 1.
Proof.
  destruct (minimum_guarantee_holds two_prefix_roster two_prefix_valid 0 5
              (slot_frame two_prefix_roster two_prefix_valid)
              (Permutation_refl _)) as [d1 [d [Hm [Hr Hd]]]].
  exists d1, d. split; [exact Hm|]. split; [exact Hr|].
  apply (Hd "PRO"%string); [right; now left | reflexivity].
Defined.

(** ** Input validation *)

(** C8 as stated fails: with an empty ground-truth list the call returns the
    empty map, and with a negative male quota it returns a map as well. *)
Lemma fail_fast_counterexample :
  calculate_slot_allocation scenario_roster 3 0 [] (Returns [])
  /\ calculate_slot_allocation scenario_roster (-1) 0 scenario_valid
       (Returns [("M35-39"%string, 2); ("M40-44"%string, 0)]).
Proof.
  split.
  - exact (some_run scenario_roster [] 3 0).
  - exact (some_run scenario_roster scenario_valid (-1) 0).
Qed.

(** C8 (amended): [calculate_slot_allocation] validates neither input.  With
    an empty ground-truth list every run returns the empty map; with a
    negative male or female quota every run returns a map whose keys are
    the ground-truth labels. *)
Theorem no_input_validation
  (df : DataFrame) (valid : list string) (mens_slots womens_slots : Z)
  (res : outcome Dict.t) :
  calculate_slot_allocation df mens_slots womens_slots valid res ->
  (valid = [] -> res = Returns [])
  /\ (mens_slots < 0 \/ womens_slots < 0 ->
      exists d, res = Returns d
                /\ forall k, In k (Dict.keys d) <-> In k valid).
Proof.
  intros Hrun. split.
  - intros ->. destruct Hrun as [slot_df Hagg].
    unfold aggregation in Hagg.
    replace (slot_frame df []) with (@nil group_row) in Hagg.
    + apply Permutation_sym, Permutation_nil in Hagg. subst slot_df.
      unfold slot_allocation_of, allocation_before_reallocation, apportion.
      cbn. destruct (mens_slots >? 0), (womens_slots >? 0); reflexivity.
    + unfold slot_frame. simpl.
      replace (filter (fun _ => false) df) with (@nil athlete); [reflexivity|].
      clear Hagg. induction df as [|a l IH]; [reflexivity | exact IH].
  - intros _. apply all_runs_return in Hrun.
    destruct Hrun as [slot_df [d [_ [-> [_ Hd]]]]].
    exists d. split; [reflexivity|]. intros k.
    rewrite (returned_keys _ _ _ Hd). apply DictFacts.from_keys_keys.
Qed.

Lemma no_input_validation_witness :
  slot_allocation_of (slot_frame scenario_roster []) 3 0 [] = Returns []
  /\ exists d,
       slot_allocation_of (slot_frame scenario_roster scenario_valid) (-1) 0
         scenario_valid = Returns d
       /\ forall k, In k (Dict.keys d) <-> In k scenario_valid.
Proof.
  split.
  - apply (no_input_validation scenario_roster [] 3 0 _
             (some_run scenario_roster [] 3 0)). reflexivity.
  - apply (no_input_validation scenario_roster scenario_valid (-1) 0 _
             (some_run scenario_roster scenario_valid (-1) 0)).
    left. reflexivity.
Defined.

(** ** Selection *)

Lemma combine_seq_In {A : Type} (l : list A) (s i : nat) (a : A) :
  In (i, a) (combine (seq s (List.length l)) l)
  <-> (s <= i)%nat /\ nth_error l (i - s) = Some a.
Proof.
  revert s. induction l as [|x l IH]; intros s; simpl.
  - split; [intros [] | intros [_ H]]. destruct (i - s)%nat; discriminate.
  - rewrite IH. split.
    + intros [H|[Hle Hn]].
      * inversion H; subst. rewrite Nat.sub_diag. split; [lia | reflexivity].
      * split; [lia|]. replace (i - s)%nat with (S (i - S s)) by lia. exact Hn.
    + intros [Hle Hn]. destruct (Nat.eq_dec s i) as [->|Hne].
      * rewrite Nat.sub_diag in Hn. simpl in Hn. left. congruence.
      * right. split; [lia|].
        replace (i - s)%nat with (S (i - S s)) in Hn by lia. exact Hn.
Qed.

Lemma with_row_index_In df i a :
  In (i, a) (with_row_index df) <-> nth_error df i = Some a.
Proof.
  unfold with_row_index. rewrite combine_seq_In, Nat.sub_0_r.
  split; [tauto | intros H; split; [lia | exact H]].
Qed.

Lemma combine_seq_fst {A : Type} (l : list A) (s : nat) :
  map fst (combine (seq s (List.length l)) l) = seq s (List.length l).
Proof.
  revert s. induction l as [|x l IH]; intros s; simpl; [reflexivity|].
  now rewrite IH.
Qed.

Lemma with_row_index_NoDup df : NoDup (map fst (with_row_index df)).
Proof. unfold with_row_index. rewrite combine_seq_fst. apply seq_NoDup. Qed.

Lemma filter_combine_seq_length {A : Type} (p : A -> bool) (l : list A) (s : nat) :
  List.length (filter (fun r => p (snd r)) (combine (seq s (List.length l)) l))
  = List.length (filter p l).
Proof.
  revert s. induction l as [|x l IH]; intros s; simpl; [reflexivity|].
  destruct (p x); simpl; now rewrite IH.
Qed.

Lemma group_rows_length df ag :
  Z.of_nat (List.length (group_rows df ag)) = finishers_in df ag.
Proof.
  unfold group_rows, with_row_index, finishers_in, count_rows.
  now rewrite (filter_combine_seq_length
                 (fun a => has_age_group ag a && finisher a)).
Qed.

Lemma group_rows_In df ag i a :
  In (i, a) (group_rows df ag)
  <-> nth_error df i = Some a /\ age_group a = ag /\ finisher a = true.
Proof.
  unfold group_rows. rewrite filter_In, with_row_index_In. simpl.
  unfold has_age_group. rewrite andb_true_iff, String.eqb_eq. tauto.
Qed.

Lemma NoDup_map_filter {K R : Type} (key : R -> K) (keep : R -> bool)
  (rows : list R) (Hkey : NoDup (map key rows)) :
  NoDup (map key (filter keep rows)).
Proof.
  induction rows as [|r rows IH]; simpl; [constructor|].
  inversion Hkey as [|? ? Hr Hrows]; subst.
  destruct (keep r); simpl; [|now apply IH].
  constructor; [|now apply IH].
  intros Hin. apply Hr. apply in_map_iff in Hin. destruct Hin as [y [He Hy]].
  apply filter_In in Hy. rewrite <- He. apply in_map. tauto.
Qed.

Lemma group_rows_NoDup df ag : NoDup (map fst (group_rows df ag)).
Proof. apply NoDup_map_filter, with_row_index_NoDup. Qed.

Lemma StronglySorted_app_le {A : Type} (R : A -> A -> Prop) (l1 l2 : list A) :
  StronglySorted R (l1 ++ l2) ->
  StronglySorted R l1
  /\ forall x y, In x l1 -> In y l2 -> R x y.
Proof.
  induction l1 as [|a l1 IH]; simpl; intros H.
  - split; [constructor | intros x y []].
  - inversion H as [|? ? Hs Hall]; subst. destruct (IH Hs) as [IH1 IH2].
    rewrite Forall_app in Hall. destruct Hall as [Ha1 Ha2]. split.
    + now constructor.
    + intros x y [<-|Hx] Hy.
      * rewrite Forall_forall in Ha2. now apply Ha2.
      * now apply IH2.
Qed.

Lemma filter_qualifiers (keep : nat -> bool)
  (per_item : string * Z -> list nat) (d : Dict.t) :
  filter keep (flat_map per_item d)
  = flat_map (fun item => filter keep (per_item item)) d.
Proof.
  induction d as [|item d IH]; simpl; [reflexivity|].
  now rewrite filter_app, IH.
Qed.

Lemma filter_all {A : Type} (p : A -> bool) (l : list A) :
  (forall x, In x l -> p x = true) -> filter p l = l.
Proof.
  induction l as [|x l IH]; simpl; intros H; [reflexivity|].
  rewrite (H x) by now left. f_equal. apply IH. intros y Hy. apply H. now right.
Qed.

Lemma filter_none {A : Type} (p : A -> bool) (l : list A) :
  (forall x, In x l -> p x = false) -> filter p l = [].
Proof.
  induction l as [|x l IH]; simpl; intros H; [reflexivity|].
  rewrite (H x) by now left. apply IH. intros y Hy. apply H. now right.
Qed.

Section SelectorFacts.

Variable sort_rank : list (nat * athlete) -> list (nat * athlete).
Hypothesis sort_perm : forall l, Permutation (sort_rank l) l.
Hypothesis sort_sorted : forall l, Sorted rank_le (sort_rank l).

Lemma qualifiers_of_group_eq df ag slots :
  qualifiers_of_group sort_rank df (ag, slots)
  = if slots <=? 0 then []
    else map fst (firstn (Z.to_nat slots) (sort_rank (group_rows df ag))).
Proof.
  unfold qualifiers_of_group. fold (group_rows df ag).
  destruct (slots <=? 0); [reflexivity|].
  destruct (group_rows df ag) as [|r l] eqn:E; [|reflexivity].
  cbn [is_empty]. pose proof (sort_perm []) as Hp.
  apply Permutation_sym, Permutation_nil in Hp. rewrite Hp.
  now rewrite firstn_nil.
Qed.

Lemma sort_rank_strongly l : StronglySorted rank_le (sort_rank l).
Proof.
  apply Sorted_StronglySorted; [|apply sort_sorted].
  intros x y z Hxy Hyz. unfold rank_le in *. lia.
Qed.

Lemma taken_spec df c N :
  0 < N ->
  (forall i a, In (i, a) (taken sort_rank df c N) ->
     nth_error df i = Some a /\ age_group a = c /\ finisher a = true)
  /\ NoDup (map fst (taken sort_rank df c N))
  /\ Z.of_nat (List.length (taken sort_rank df c N)) = Z.min N (finishers_in df c)
  /\ StronglySorted rank_le (taken sort_rank df c N)
  /\ (forall x j b, In x (taken sort_rank df c N) ->
        nth_error df j = Some b -> age_group b = c -> finisher b = true ->
        ~ In j (map fst (taken sort_rank df c N)) -> rank_of x <= age_group_rank b).
Proof.
  intros HN. unfold taken.
  set (sorted := sort_rank (group_rows df c)).
  set (n := Z.to_nat N).
  assert (Hsplit : sorted = firstn n sorted ++ skipn n sorted)
    by (symmetry; apply firstn_skipn).
  pose proof (sort_rank_strongly (group_rows df c)) as Hss. fold sorted in Hss.
  rewrite Hsplit in Hss. apply StronglySorted_app_le in Hss.
  destruct Hss as [Hs1 Hs2].
  assert (Hin : forall i a, In (i, a) sorted <->
            nth_error df i = Some a /\ age_group a = c /\ finisher a = true).
  { intros i a. rewrite <- group_rows_In. split; apply Permutation_in.
    - apply sort_perm.
    - apply Permutation_sym, sort_perm. }
  split; [|split; [|split; [|split]]].
  - intros i a H. apply Hin. now apply In_firstn in H.
  - assert (Hnd : NoDup (map fst sorted)).
    { apply (Permutation_NoDup
               (Permutation_map fst (Permutation_sym (sort_perm _)))).
      apply group_rows_NoDup. }
    rewrite Hsplit, map_app in Hnd. now apply NoDup_app_remove_r in Hnd.
  - rewrite length_firstn. unfold sorted.
    rewrite (Permutation_length (sort_perm _)).
    rewrite <- group_rows_length. unfold n. lia.
  - exact Hs1.
  - intros x j b Hx Hj Hc Hf Hnot.
    assert (Hjb : In (j, b) sorted) by (apply Hin; tauto).
    rewrite Hsplit in Hjb. apply in_app_or in Hjb. destruct Hjb as [Hjb|Hjb].
    + exfalso. apply Hnot. apply in_map_iff. now exists (j, b).
    + apply (Hs2 x (j, b) Hx Hjb).
Qed.

Lemma qualifiers_of_group_rows df ag slots i :
  In i (qualifiers_of_group sort_rank df (ag, slots)) ->
  exists a, nth_error df i = Some a /\ age_group a = ag /\ finisher a = true.
Proof.
  rewrite qualifiers_of_group_eq. destruct (slots <=? 0); [intros []|].
  intros H. apply in_map_iff in H. destruct H as [[j a] [<- H]].
  exists a. apply In_firstn in H.
  apply (Permutation_in _ (sort_perm _)) in H. now apply group_rows_In.
Qed.

Lemma selected_in_group df d c :
  NoDup (Dict.keys d) ->
  selected_in (determine_qualifiers sort_rank df d) df c
  = match Dict.get d c with
    | Some N => qualifiers_of_group sort_rank df (c, N)
    | None => []
    end.
Proof.
  unfold selected_in, determine_qualifiers. rewrite filter_qualifiers.
  induction d as [|[k v] d IH]; intros Hnd; [reflexivity|].
  inversion Hnd as [|? ? Hk Hd]; subst. cbn [flat_map Dict.get].
  rewrite (IH Hd). destruct (String.eqb_spec c k) as [->|Hne].
  - replace (Dict.get d k) with (@None Z).
    + rewrite app_nil_r. apply filter_all. intros i Hi.
      apply qualifiers_of_group_rows in Hi. destruct Hi as [a [Hi [Ha _]]].
      unfold in_category, has_age_group. rewrite Hi. now apply String.eqb_eq.
    + symmetry. now apply DictFacts.get_none_keys.
  - rewrite filter_none; [reflexivity|]. intros i Hi.
    apply qualifiers_of_group_rows in Hi. destruct Hi as [a [Hi [Ha _]]].
    unfold in_category, has_age_group. rewrite Hi. apply String.eqb_neq.
    congruence.
Qed.


End SelectorFacts.

(** ** The stable sort on ranks is a sort *)

Lemma insert_rank_perm x l : Permutation (insert_rank x l) (x :: l).
Proof.
  induction l as [|y l IH]; simpl; [reflexivity|].
  destruct (rank_of x <=? rank_of y); [reflexivity|].
  rewrite IH. apply perm_swap.
Qed.

Lemma stable_sort_rank_perm l : Permutation (stable_sort_rank l) l.
Proof.
  induction l as [|x l IH]; simpl; [reflexivity|].
  rewrite insert_rank_perm. now apply perm_skip.
Qed.

Lemma insert_rank_sorted x l :
  Sorted rank_le l -> Sorted rank_le (insert_rank x l).
Proof.
  induction 1 as [|y l Hs IH Hy]; simpl.
  - repeat constructor.
  - destruct (Z.leb_spec (rank_of x) (rank_of y)) as [Hle|Hlt].
    + constructor; [now constructor|]. now constructor.
    + constructor; [exact IH|].
      destruct l as [|z l]; simpl.
      * constructor. unfold rank_le. lia.
      * inversion Hy as [|? ? Hyz]; subst.
        destruct (rank_of x <=? rank_of z); constructor;
          [unfold rank_le; lia | exact Hyz].
Qed.

Lemma stable_sort_rank_sorted l : Sorted rank_le (stable_sort_rank l).
Proof.
  induction l as [|x l IH]; simpl; [constructor|].
  now apply insert_rank_sorted.
Qed.

Lemma scenario_allocation_NoDup : NoDup (Dict.keys scenario_allocation).
Proof.
  repeat constructor; simpl; intuition discriminate.
Defined.


(** ** Shape of the returned map *)

Section Shape.

Variable sort_rank : list (nat * athlete) -> list (nat * athlete).
Hypothesis sort_perm : forall l, Permutation (sort_rank l) l.

(** C7: every map [calculate_slot_allocation] returns has exactly the
    ground-truth labels as keys, each once, and only non-negative counts; a
    label outside the ground truth has no entry and no qualifier of
    [determine_qualifiers] belongs to it; a ground-truth label without a
    roster row holds 0. *)
Theorem allocation_map_shape
  (df : DataFrame) (valid : list string) (mens_slots womens_slots : Z)
  (res : outcome Dict.t) :
  calculate_slot_allocation df mens_slots womens_slots valid res ->
  exists d,
    res = Returns d
    /\ (forall k, In k (Dict.keys d) <-> In k valid)
    /\ NoDup (Dict.keys d)
    /\ (forall k v, Dict.get d k = Some v -> 0 <= v)
    /\ (forall c, ~ In c valid ->
          Dict.get d c = None
          /\ selected_in (determine_qualifiers sort_rank df d) df c = [])
    /\ (forall c, In c valid -> starters_in df c = 0 ->
          Dict.get d c = Some 0).
Proof.
  intros Hrun. apply all_runs_return in Hrun.
  destruct Hrun as [slot_df [d [Hg [-> [_ Hd]]]]].
  exists d. split; [reflexivity|].
  assert (Hkeys : forall k, In k (Dict.keys d) <-> In k valid).
  { intros k. rewrite (returned_keys _ _ _ Hd).
    apply DictFacts.from_keys_keys. }
  assert (Hnd : NoDup (Dict.keys d)).
  { rewrite (returned_keys _ _ _ Hd). apply DictFacts.from_keys_NoDup. }
  split; [exact Hkeys|]. split; [exact Hnd|].
  split; [exact (returned_nonneg _ _ _ Hd)|]. split.
  - intros c Hc.
    assert (Hnone : Dict.get d c = None).
    { apply DictFacts.get_none_keys. now rewrite Hkeys. }
    split; [exact Hnone|].
    rewrite (selected_in_group sort_rank sort_perm df d c Hnd).
    now rewrite Hnone.
  - intros c Hc Hs. apply (returned_rest _ _ _ Hd c Hc).
    rewrite (grouped_key_row df valid slot_df Hg). lia.
Qed.

End Shape.

Lemma allocation_map_shape_witness :
  exists d,
    slot_allocation_of (slot_frame scenario_roster scenario_valid) 3 0
      scenario_valid = Returns d
    /\ (forall k, In k (Dict.keys d) <-> In k scenario_valid).
Proof.
  destruct (allocation_map_shape stable_sort_rank stable_sort_rank_perm
              scenario_roster scenario_valid 3 0 _
              (some_run scenario_roster scenario_valid 3 0))
    as [d [Hr [Hk _]]].
  exists d. split; [exact Hr | exact Hk].
Defined.

(** ** The reallocation rule *)

Lemma apply_one_each_get l d d' :
  apply_adds (one_each l) d = Returns d' ->
  NoDup (map fst l) ->
  forall g v, Dict.get d g = Some v ->
    Dict.get d' g
    = Some (v + if existsb (String.eqb g) (map fst l) then 1 else 0).
Proof.
  revert d. induction l as [|[k q] l IH]; intros d Hr Hnd g v Hv.
  - simpl in *. inversion Hr; subst. rewrite Hv. f_equal. lia.
  - cbn [one_each map apply_adds fst] in Hr. unfold Dict.add in Hr.
    destruct (Dict.get d k) as [v0|] eqn:Hk; [|discriminate].
    cbn [bind] in Hr. inversion Hnd as [|? ? Hnk Hnd']; subst.
    cbn [map fst existsb].
    destruct (String.eqb_spec g k) as [->|Hne]; cbn [orb].
    + rewrite Hk in Hv. inversion Hv; subst v0.
      rewrite (IH _ Hr Hnd' k (v + 1)) by apply DictFacts.get_set_same.
      replace (existsb (String.eqb k) (map fst l)) with false; [f_equal; lia|].
      symmetry. apply not_true_is_false. intros He.
      apply existsb_exists in He. destruct He as [x [Hx He]].
      apply String.eqb_eq in He. now subst x.
    + apply (IH _ Hr Hnd'). rewrite DictFacts.get_set_other; trivial.
Qed.

(** C3 as stated fails on "within its gender": with ground truth
    {F18-24, PRO}, a finisher in F18-24, a non-finisher in PRO and 5 female
    slots, no category of PRO's gender has a finisher, yet the slot
    withdrawn from PRO is awarded to F18-24 rather than dropped. *)
Lemma reallocation_counterexample :
  let slot_df := slot_frame withdrawal_roster two_prefix_valid in
  let row := row_for withdrawal_roster "PRO" in
  let d := [("F18-24"%string, 4); ("PRO"%string, 1)] in
  aggregation withdrawal_roster two_prefix_valid slot_df
  /\ allocation_before_reallocation slot_df 0 5 two_prefix_valid = Returns d
  /\ In row slot_df
  /\ 0 < starters_count row /\ finishers_count row = 0
  /\ (forall r, In r slot_df -> gender r = gender row -> finishers_count r = 0)
  /\ reallocate_row (male_groups_of slot_df) (female_groups_of slot_df) d row
     = Returns [("F18-24"%string, 5); ("PRO"%string, 0)].
Proof.
  cbn zeta. split; [apply Permutation_refl|]. split; [reflexivity|].
  split; [right; now left|]. split; [reflexivity|]. split; [reflexivity|].
  split; [|reflexivity].
  intros r [<-|[<-|[]]]; [discriminate | reflexivity].
Qed.

(** C3 (amended): when the reallocation loop reaches a row with no finisher
    whose category holds [k > 0] slots, the category is set to 0; the
    eligible targets are the rows with a finisher whose gender is "M" if
    the withdrawn row's gender is "M" and "F" otherwise (so a row whose
    label starts with neither letter hands its slots to the F rows); they
    are ranked descending by starters_count / max(1, current allocation);
    each of the first min(k, number of targets) of the ranking gains exactly
    one slot and nothing else changes, so the total of the receiving gender
    changes by min(k, number of targets) minus the k withdrawn (when the
    withdrawn row has that gender): with fewer than k targets the surplus
    is dropped. *)
Theorem reallocation_rule
  (df : DataFrame) (valid : list string) (slot_df : list group_row)
  (d : Dict.t) (row : group_row) (k : Z) :
  aggregation df valid slot_df ->
  In row slot_df ->
  (forall r, In r slot_df -> In (row_age_group r) (Dict.keys d)) ->
  finishers_count row = 0 ->
  Dict.get d (row_age_group row) = Some k ->
  0 < k ->
  let side := (if String.eqb (gender row) "M" then "M" else "F")%string in
  let targets :=
    target_groups_of (male_groups_of slot_df) (female_groups_of slot_df) row in
  let awarded := Z.min k (Z.of_nat (List.length targets)) in
  exists d' ranked,
    reallocate_row (male_groups_of slot_df) (female_groups_of slot_df) d row
    = Returns d'
    /\ (forall t, In t targets <->
          In t slot_df /\ 0 < finishers_count t /\ gender t = side)
    /\ Permutation ranked (ratios_list targets d)
    /\ StronglySorted desc ranked
    /\ Z.of_nat (List.length (firstn (Z.to_nat k) ranked)) = awarded
    /\ Dict.keys d' = Dict.keys d
    /\ Dict.get d' (row_age_group row) = Some 0
    /\ (forall g v, g <> row_age_group row -> Dict.get d g = Some v ->
          Dict.get d' g
          = Some (v + if existsb (String.eqb g)
                           (map fst (firstn (Z.to_nat k) ranked))
                      then 1 else 0))
    /\ Dict.sum_where (fun g => String.eqb (gender_of g) side) d'
       = Dict.sum_where (fun g => String.eqb (gender_of g) side) d
         - (if String.eqb (gender row) side then k else 0)
         + awarded.
Proof.
  intros Hagg Hrow Hcov Hfin Hget Hk side targets awarded.
  apply aggregation_grouped in Hagg.
  set (ag := row_age_group row) in *.
  set (d0 := Dict.set d ag 0).
  assert (Htargets : forall t, In t targets <->
            In t slot_df /\ 0 < finishers_count t /\ gender t = side).
  { intros t. unfold targets, target_groups_of, side.
    destruct (String.eqb (gender row) "M"); rewrite filter_In, Z.gtb_lt.
    - rewrite (male_groups_In df valid slot_df Hagg). tauto.
    - rewrite (female_groups_In df valid slot_df Hagg). tauto. }
  assert (Hne : forall t, In t targets -> row_age_group t <> ag).
  { intros t Ht He. apply Htargets in Ht. destruct Ht as [Ht [Hf _]].
    assert (t = row)
      by now apply (grouped_same_key df valid slot_df Hagg).
    subst t. lia. }
  assert (Hratios : ratios_list targets d0 = ratios_list targets d).
  { unfold ratios_list. apply map_ext_in. intros t Ht. f_equal.
    unfold ratio_of, Dict.get_default, d0.
    rewrite DictFacts.get_set_other by now apply Hne. reflexivity. }
  set (ranked := sort_desc (ratios_list targets d)).
  set (chosen := firstn (Z.to_nat k) ranked).
  assert (Hperm : Permutation ranked (ratios_list targets d))
    by apply sort_desc_perm.
  assert (Hnd : NoDup (map fst chosen)).
  { assert (Hall : NoDup (map fst ranked)).
    { apply (Permutation_NoDup
               (Permutation_map fst (Permutation_sym Hperm))).
      unfold ratios_list. rewrite map_map. cbn [fst].
      unfold targets, target_groups_of.
      destruct (String.eqb (gender row) "M"); apply NoDup_map_filter;
        [unfold male_groups_of | unfold female_groups_of];
        apply NoDup_map_filter, (grouped_NoDup _ _ _ Hagg). }
    unfold chosen. rewrite <- (firstn_skipn (Z.to_nat k) ranked), map_app in Hall.
    now apply NoDup_app_remove_r in Hall. }
  assert (Hchosen : forall x, In x chosen ->
            exists t, In t targets /\ fst x = row_age_group t).
  { intros x Hx. unfold chosen in Hx. apply In_firstn in Hx.
    apply (Permutation_in _ Hperm) in Hx. unfold ratios_list in Hx.
    apply in_map_iff in Hx. destruct Hx as [t [<- Ht]]. now exists t. }
  assert (Hlen : Z.of_nat (List.length chosen) = awarded).
  { unfold chosen, awarded. rewrite length_firstn.
    rewrite (Permutation_length Hperm). unfold ratios_list.
    rewrite length_map. lia. }
  assert (Hw : withdraws d row = true).
  { unfold withdraws, Dict.mem, Dict.get_default. fold ag. rewrite Hget, Hfin.
    apply (grouped_row df valid slot_df Hagg) in Hrow.
    destruct Hrow as [_ [_ [_ [_ [Hs _]]]]].
    apply Z.gtb_lt in Hs, Hk. now rewrite Hs, Hk. }
  assert (Hkeys0 : Dict.keys d0 = Dict.keys d).
  { apply DictFacts.keys_set_present. apply DictFacts.get_in_keys. now exists k. }
  destruct (apply_adds_returns (one_each chosen) d0)
    as [d' [Hr [Hkeys [Hother Hsum]]]].
  { intros x Hx. unfold one_each in Hx. apply in_map_iff in Hx.
    destruct Hx as [y [<- Hy]]. cbn [fst].
    destruct (Hchosen y Hy) as [t [Ht ->]]. rewrite Hkeys0.
    apply Hcov. now apply Htargets in Ht. }
  exists d', ranked.
  split.
  { rewrite reallocate_row_eq, Hw. cbn zeta. fold ag d0.
    unfold recipients. fold targets. rewrite Hratios.
    unfold Dict.get_default. rewrite Hget. exact Hr. }
  split; [exact Htargets|]. split; [exact Hperm|].
  split; [apply sort_desc_sorted|]. split; [exact Hlen|].
  split; [congruence|]. split; [|split].
  - rewrite Hother; [apply DictFacts.get_set_same|].
    intros Hin. unfold one_each in Hin. rewrite map_map in Hin.
    apply in_map_iff in Hin. destruct Hin as [y [He Hy]]. cbn [fst] in He.
    destruct (Hchosen y Hy) as [t [Ht Het]].
    apply (Hne t Ht). congruence.
  - intros g v Hg Hv. fold chosen.
    apply (apply_one_each_get chosen d0 d' Hr Hnd).
    unfold d0. now rewrite DictFacts.get_set_other.
  - rewrite Hsum. unfold d0.
    rewrite (DictFacts.sum_where_set _ d ag 0 k Hget).
    assert (Hg : gender_of ag = gender row).
    { apply (grouped_row df valid slot_df Hagg) in Hrow. symmetry. tauto. }
    rewrite Hg.
    rewrite sum_adds_all.
    + rewrite total_one_each, Hlen.
      destruct (String.eqb (gender row) side); lia.
    + intros x Hx. unfold one_each in Hx. apply in_map_iff in Hx.
      destruct Hx as [y [<- Hy]]. cbn [fst].
      destruct (Hchosen y Hy) as [t [Ht ->]]. apply Htargets in Ht.
      destruct Ht as [Ht [_ Hside]].
      apply (grouped_row df valid slot_df Hagg) in Ht.
      destruct Ht as [<- _]. rewrite Hside. apply String.eqb_refl.
Qed.

(** Three slots are withdrawn from M18-24 and the only target takes one:
    the male total drops from 5 to 3. *)
Lemma reallocation_rule_witness :
  allocation_before_reallocation (slot_frame surplus_roster surplus_valid)
    5 0 surplus_valid = Returns surplus_before
  /\ exists d',
       reallocate_row
         (male_groups_of (slot_frame surplus_roster surplus_valid))
         (female_groups_of (slot_frame surplus_roster surplus_valid))
         surplus_before (row_for surplus_roster "M18-24")
       = Returns d'
       /\ Dict.sum_where is_male d' = 5 - 3 + 1.
Proof.
  split; [reflexivity|].
  destruct (reallocation_rule surplus_roster surplus_valid
              (slot_frame surplus_roster surplus_valid) surplus_before
              (row_for surplus_roster "M18-24") 3)
    as [d' [ranked [Hr [_ [_ [_ [_ [_ [_ [_ Hsum]]]]]]]]]].
  - apply Permutation_refl.
  - now left.
  - intros r [<-|[<-|[]]]; [now left | right; now left].
  - reflexivity.
  - reflexivity.
  - reflexivity.
  - exists d'. split; [exact Hr|]. exact Hsum.
Defined.

(** ** Determinism *)



Section Determinism.

Variables sort1 sort2 : list (nat * athlete) -> list (nat * athlete).
Hypothesis sort1_perm : forall l, Permutation (sort1 l) l.
Hypothesis sort1_sorted : forall l, Sorted rank_le (sort1 l).
Hypothesis sort2_perm : forall l, Permutation (sort2 l) l.
Hypothesis sort2_sorted : forall l, Sorted rank_le (sort2 l).



End Determinism.

Lemma insert_rank_after_perm x l : Permutation (insert_rank_after x l) (x :: l).
Proof.
  induction l as [|y l IH]; simpl; [reflexivity|].
  destruct (rank_of x <? rank_of y); [reflexivity|].
  rewrite IH. apply perm_swap.
Qed.

Lemma reverse_sort_rank_perm l : Permutation (reverse_sort_rank l) l.
Proof.
  induction l as [|x l IH]; simpl; [reflexivity|].
  rewrite insert_rank_after_perm. now apply perm_skip.
Qed.

Lemma insert_rank_after_sorted x l :
  Sorted rank_le l -> Sorted rank_le (insert_rank_after x l).
Proof.
  induction 1 as [|y l Hs IH Hy]; simpl.
  - repeat constructor.
  - destruct (Z.ltb_spec (rank_of x) (rank_of y)) as [Hlt|Hle].
    + constructor; [now constructor|]. constructor. unfold rank_le. lia.
    + constructor; [exact IH|].
      destruct l as [|z l]; simpl.
      * constructor. exact Hle.
      * inversion Hy as [|? ? Hyz]; subst.
        destruct (rank_of x <? rank_of z); constructor;
          [exact Hle | exact Hyz].
Qed.

Lemma reverse_sort_rank_sorted l : Sorted rank_le (reverse_sort_rank l).
Proof.
  induction l as [|x l IH]; simpl; [constructor|].
  now apply insert_rank_after_sorted.
Qed.



(** ** The example scenario *)

Section Scenario.

Variable sort_rank : list (nat * athlete) -> list (nat * athlete).
Hypothesis sort_perm : forall l, Permutation (sort_rank l) l.
Hypothesis sort_sorted : forall l, Sorted rank_le (sort_rank l).

Variable df : DataFrame.
Hypothesis starters_M35 : starters_in df "M35-39" = 10.
Hypothesis finishers_M35 : finishers_in df "M35-39" = 8.
Hypothesis starters_M40 : starters_in df "M40-44" = 5.
Hypothesis finishers_M40 : finishers_in df "M40-44" = 0.

Variable valid : list string.
Hypothesis valid_set : Permutation ["M35-39"; "M40-44"]%string valid.

Lemma scenario_valid_cases :
  valid = ["M35-39"; "M40-44"]%string \/ valid = ["M40-44"; "M35-39"]%string.
Proof. now apply Permutation_length_2_inv. Qed.

Lemma scenario_slot_df slot_df :
  aggregation df valid slot_df ->
  slot_df = [row_M35; row_M40] \/ slot_df = [row_M40; row_M35].
Proof.
  intros Hagg. apply aggregation_grouped in Hagg.
  apply Permutation_length_2_inv. apply NoDup_Permutation.
  - repeat constructor; simpl; intuition discriminate.
  - apply (NoDup_map_inv row_age_group), (grouped_NoDup _ _ _ Hagg).
  - intros row. rewrite (grouped_rows _ _ _ Hagg row). split.
    + intros [<-|[<-|[]]].
      * exists "M35-39"%string. unfold row_for.
        rewrite starters_M35, finishers_M35. split; [reflexivity|].
        split; [|lia]. apply (Permutation_in _ valid_set). now left.
      * exists "M40-44"%string. unfold row_for.
        rewrite starters_M40, finishers_M40. split; [reflexivity|].
        split; [|lia]. apply (Permutation_in _ valid_set). right. now left.
    + intros [ag [-> [Hv _]]].
      apply (Permutation_in _ (Permutation_sym valid_set)) in Hv.
      destruct Hv as [<-|[<-|[]]]; unfold row_for.
      * rewrite starters_M35, finishers_M35. now left.
      * rewrite starters_M40, finishers_M40. right. now left.
Qed.

Lemma scenario_allocation_value slot_df womens_slots :
  aggregation df valid slot_df ->
  slot_allocation_of slot_df 3 womens_slots valid
  = Returns (map (fun ag => (ag, if String.eqb ag "M35-39" then 3 else 0))
                 valid).
Proof.
  intros Hagg.
  destruct (scenario_slot_df slot_df Hagg) as [-> | ->];
    destruct scenario_valid_cases as [-> | ->];
    unfold slot_allocation_of, allocation_before_reallocation;
    cbn; destruct womens_slots; reflexivity.
Qed.

(** C2: for every roster with 10 starters and 8 finishers in M35-39 and 5
    starters and no finisher in M40-44, ground truth {M35-39, M40-44} (in
    either order), 3 male slots and any female quota, every run of
    [calculate_slot_allocation] returns the map {M35-39: 3, M40-44: 0}, and
    [determine_qualifiers] on that map returns three distinct roster rows,
    all finishers of M35-39, in ascending rank order, such that no other
    finisher of M35-39 has a smaller rank than one of them. *)
Theorem example_scenario (womens_slots : Z) (res : outcome Dict.t) :
  calculate_slot_allocation df 3 womens_slots valid res ->
  exists d,
    res = Returns d
    /\ d = map (fun ag => (ag, if String.eqb ag "M35-39" then 3 else 0)) valid
    /\ Dict.get d "M35-39" = Some 3
    /\ Dict.get d "M40-44" = Some 0
    /\ exists sel : list (nat * athlete),
         determine_qualifiers sort_rank df d = map fst sel
         /\ List.length sel = 3%nat
         /\ NoDup (map fst sel)
         /\ (forall i a, In (i, a) sel ->
               nth_error df i = Some a
               /\ age_group a = "M35-39"%string /\ finisher a = true)
         /\ StronglySorted rank_le sel
         /\ (forall x j b, In x sel ->
               nth_error df j = Some b -> age_group b = "M35-39"%string ->
               finisher b = true -> ~ In j (map fst sel) ->
               rank_of x <= age_group_rank b).
Proof.
  intros [slot_df Hagg].
  rewrite (scenario_allocation_value slot_df womens_slots Hagg).
  eexists. split; [reflexivity|]. split; [reflexivity|].
  destruct (taken_spec sort_rank sort_perm sort_sorted df "M35-39" 3 eq_refl)
    as [Hrows [Hnd [Hlen [Hsorted Hleast]]]].
  rewrite finishers_M35 in Hlen.
  assert (Hsel : forall d,
    d = [("M35-39"%string, 3); ("M40-44"%string, 0)]
    \/ d = [("M40-44"%string, 0); ("M35-39"%string, 3)] ->
    determine_qualifiers sort_rank df d
    = map fst (taken sort_rank df "M35-39" 3)).
  { intros d [-> | ->]; unfold determine_qualifiers; cbn [flat_map];
      rewrite !(qualifiers_of_group_eq sort_rank sort_perm);
      cbn [Z.leb Z.compare]; now rewrite ?app_nil_r. }
  destruct scenario_valid_cases as [-> | ->];
    (split; [reflexivity|]; split; [reflexivity|];
     exists (taken sort_rank df "M35-39" 3);
     split; [apply Hsel; cbn; tauto|];
     split; [lia|]; split; [exact Hnd|]; split; [exact Hrows|];
     split; [exact Hsorted | exact Hleast]).
Qed.

End Scenario.

Lemma example_scenario_witness :
  exists d,
    slot_allocation_of (slot_frame scenario_roster scenario_valid) 3 0
      scenario_valid = Returns d
    /\ Dict.get d "M35-39" = Some 3
    /\ Dict.get d "M40-44" = Some 0
    /\ determine_qualifiers stable_sort_rank scenario_roster d
       = [2; 6; 9]%nat.
Proof.
  destruct (example_scenario stable_sort_rank stable_sort_rank_perm
              stable_sort_rank_sorted scenario_roster
              eq_refl eq_refl eq_refl eq_refl
              scenario_valid (Permutation_refl _) 0 _
              (some_run scenario_roster scenario_valid 3 0))
    as [d [Hr [Hd [HA [HB _]]]]].
  exists d. split; [exact Hr|]. split; [exact HA|]. split; [exact HB|].
  rewrite Hd. reflexivity.
Defined.

(** ** Float64 check of the concrete runs *)

(** The program computes the shares in IEEE 754 binary64.  On the inputs of
    every concrete run used above, the binary64 shares truncate to the same
    whole parts as the exact shares and their decimal parts compare the
    same way; none of these runs ranks more than one reallocation target.
    So these runs are runs of the program. *)
Lemma concrete_runs_binary64 :
  b64_run_agrees (slot_frame two_prefix_roster two_prefix_valid) 0 5
    two_prefix_valid = true
  /\ b64_run_agrees (slot_frame withdrawal_roster two_prefix_valid) 0 5
       two_prefix_valid = true
  /\ b64_run_agrees (slot_frame scenario_roster scenario_valid) 3 0
       scenario_valid = true
  /\ b64_run_agrees (slot_frame scenario_roster scenario_valid) (-1) 0
       scenario_valid = true
  /\ b64_run_agrees (slot_frame surplus_roster surplus_valid) 5 0
       surplus_valid = true
  /\ b64_run_agrees (slot_frame tie_roster surplus_valid) 3 0
       surplus_valid = true
  /\ b64_run_agrees (rev (slot_frame tie_roster surplus_valid)) 3 0
       surplus_valid = true.
Proof. repeat split; vm_compute; reflexivity. Qed.

(** * Further properties of the allocation and the selection *)

(** ** Totals across the reallocation loop *)

Lemma reallocate_cons male_groups female_groups row rows d :
  reallocate male_groups female_groups (row :: rows) d
  = (d1 <- reallocate_row male_groups female_groups d row ;;
     reallocate male_groups female_groups rows d1).
Proof.
  unfold reallocate. cbn [fold_left bind].
  destruct (reallocate_row male_groups female_groups d row) as [d1|e];
    [reflexivity|].
  cbn [bind]. apply fold_left_raises. reflexivity.
Qed.

Lemma sum_adds_ones p l :
  (forall x, In x l -> snd x = 1) ->
  0 <= sum_adds p l <= Z.of_nat (List.length l).
Proof.
  intros H. induction l as [|x l IH]; [simpl; lia|].
  cbn [sum_adds fold_right List.length]. fold (sum_adds p l).
  rewrite (H x) by now left.
  specialize (IH (fun y Hy => H y (or_intror Hy))).
  rewrite Nat2Z.inj_succ. destruct (p (fst x)); lia.
Qed.

Lemma withdraws_value d row :
  withdraws d row = true ->
  finishers_count row = 0
  /\ exists v, Dict.get d (row_age_group row) = Some v /\ 0 < v
       /\ Dict.get_default d (row_age_group row) 0 = v.
Proof.
  unfold withdraws, Dict.mem, Dict.get_default. intros H.
  apply andb_true_iff in H. destruct H as [H Hpos].
  apply andb_true_iff in H. destruct H as [H Hmem].
  apply andb_true_iff in H. destruct H as [_ Hf].
  apply Z.eqb_eq in Hf. split; [exact Hf|].
  destruct (Dict.get d (row_age_group row)) as [v|]; [|discriminate].
  exists v. apply Z.gtb_lt in Hpos. now repeat split.
Qed.

(** A step never lowers the entry of a row it does not withdraw. *)
Lemma reallocate_row_keeps male_groups female_groups d row d' k v :
  reallocate_row male_groups female_groups d row = Returns d' ->
  Dict.get d k = Some v ->
  k <> row_age_group row \/ 0 < finishers_count row ->
  exists v', Dict.get d' k = Some v' /\ v <= v'.
Proof.
  rewrite reallocate_row_eq. intros Hr Hv Hk.
  destruct (withdraws d row) eqn:Hw.
  - destruct (withdraws_value d row Hw) as [Hf _].
    assert (Hne : k <> row_age_group row) by (destruct Hk; [assumption | lia]).
    cbn zeta in Hr.
    apply (apply_adds_monotone _ _ _ Hr).
    + intros x Hx. apply recipients_keys in Hx. destruct Hx as [-> _]. lia.
    + now rewrite DictFacts.get_set_other.
  - inversion Hr. subst d'. exists v. split; [exact Hv | lia].
Qed.

Lemma reallocate_keeps male_groups female_groups rows d d' k v :
  reallocate male_groups female_groups rows d = Returns d' ->
  Dict.get d k = Some v ->
  (forall r, In r rows -> row_age_group r = k -> 0 < finishers_count r) ->
  exists v', Dict.get d' k = Some v' /\ v <= v'.
Proof.
  revert d v. induction rows as [|row rows IH]; intros d v Hr Hv Hk.
  - inversion Hr. subst d'. exists v. split; [exact Hv | lia].
  - rewrite reallocate_cons in Hr.
    destruct (reallocate_row male_groups female_groups d row) as [d1|e] eqn:E;
      [|discriminate].
    cbn [bind] in Hr.
    destruct (reallocate_row_keeps _ _ _ _ _ k v E Hv) as [v1 [Hv1 Hle1]].
    { destruct (string_dec k (row_age_group row)) as [->|Hne];
        [right; apply Hk; [now left | reflexivity] | now left]. }
    destruct (IH d1 v1 Hr Hv1 (fun r Hin => Hk r (or_intror Hin)))
      as [v' [Hv' Hle']].
    exists v'. split; [exact Hv' | lia].
Qed.

Section ReallocationTotals.
Import Dict DictFacts.

Variables (df : DataFrame) (valid : list string) (slot_df : list group_row).
Hypothesis Hgrouped : grouped df valid slot_df.

Let male_groups := male_groups_of slot_df.
Let female_groups := female_groups_of slot_df.

(** A step never raises the total of a pool of labels that holds the
    withdrawn row whenever it holds one of its targets. *)
Lemma reallocate_row_sum p d row d' :
  In row slot_df ->
  (forall r, In r slot_df -> In (row_age_group r) (keys d)) ->
  (forall trow, In trow (target_groups_of male_groups female_groups row) ->
     p (row_age_group trow) = true -> p (row_age_group row) = true) ->
  reallocate_row male_groups female_groups d row = Returns d' ->
  sum_where p d' <= sum_where p d.
Proof.
  intros Hrow Hcov Hp. rewrite reallocate_row_eq.
  destruct (withdraws d row) eqn:Hw; [|intros [= <-]; lia].
  destruct (withdraws_value d row Hw) as [_ [v [Hv [Hpos ->]]]].
  cbn zeta. set (ag := row_age_group row) in *.
  set (d0 := set d ag 0).
  set (adds := one_each (recipients _ d0 v)).
  assert (Hk0 : keys d0 = keys d).
  { apply keys_set_present. apply get_in_keys. now exists v. }
  destruct (apply_adds_returns adds d0) as [d1 [Hret [_ [_ Hsum]]]].
  { intros x Hx. apply recipients_keys in Hx.
    destruct Hx as [_ [trow [Ht ->]]]. rewrite Hk0. apply Hcov.
    now apply (target_In df valid slot_df Hgrouped) in Ht. }
  rewrite Hret. intros [= <-]. rewrite Hsum.
  unfold d0. rewrite (sum_where_set p d ag 0 v Hv).
  assert (Hones : forall x, In x adds -> snd x = 1).
  { intros x Hx. now apply recipients_keys in Hx. }
  destruct (p ag) eqn:Hpag.
  - pose proof (sum_adds_ones p adds Hones) as [_ Hle].
    assert (Hlen : Z.of_nat (List.length adds) <= v).
    { unfold adds, one_each, recipients. rewrite length_map, length_firstn. lia. }
    lia.
  - rewrite sum_adds_none; [lia|].
    intros x Hx. apply recipients_keys in Hx.
    destruct Hx as [_ [trow [Ht ->]]].
    destruct (p (row_age_group trow)) eqn:E; [|reflexivity].
    apply Hp in E; [|exact Ht]. fold ag in E. congruence.
Qed.

Lemma reallocate_sum p rows d :
  NoDup (map row_age_group rows) ->
  (forall r, In r rows -> In r slot_df) ->
  (forall r, In r slot_df -> In (row_age_group r) (keys d)) ->
  nonneg d ->
  (forall row trow, In row slot_df ->
     In trow (target_groups_of male_groups female_groups row) ->
     p (row_age_group trow) = true -> p (row_age_group row) = true) ->
  forall d', reallocate male_groups female_groups rows d = Returns d' ->
  sum_where p d' <= sum_where p d.
Proof.
  intros Hnd Hsub Hcov Hnn Hp. revert d Hnd Hsub Hcov Hnn.
  induction rows as [|row rows IH]; intros d Hnd Hsub Hcov Hnn d' Hr.
  - inversion Hr. lia.
  - inversion Hnd as [|? ? _ Hnd']; subst.
    assert (Hin : In row slot_df) by (apply Hsub; now left).
    destruct (reallocate_row_spec df valid slot_df Hgrouped d row Hin Hcov Hnn)
      as [d1 [Hr1 [Hk1 [Hnn1 _]]]].
    rewrite reallocate_cons in Hr. fold male_groups female_groups in Hr1.
    rewrite Hr1 in Hr. cbn [bind] in Hr.
    pose proof (reallocate_row_sum p d row d1 Hin Hcov (fun trow => Hp row trow Hin) Hr1) as H1.
    assert (H2 : sum_where p d' <= sum_where p d1).
    { apply (IH d1); trivial.
      - intros r Hr0. apply Hsub. now right.
      - intros r Hr0. rewrite Hk1. now apply Hcov. }
    lia.
Qed.

(** The targets of an M row are M rows, those of any other row are F rows. *)
Lemma target_pool row trow :
  In row slot_df ->
  In trow (target_groups_of male_groups female_groups row) ->
  is_male (row_age_group trow) = is_male (row_age_group row).
Proof.
  intros Hrow Ht.
  apply (target_In df valid slot_df Hgrouped) in Ht.
  destruct Ht as [Htin [_ Hg]].
  apply (grouped_row df valid slot_df Hgrouped) in Hrow, Htin.
  destruct Hrow as [Hgr _]. destruct Htin as [Hgt _].
  unfold is_male. rewrite <- Hgr, <- Hgt, Hg.
  destruct (String.eqb (gender row) "M"); reflexivity.
Qed.

End ReallocationTotals.

(** ** The three phases of a run *)

Lemma allocation_before_eq slot_df mens_slots womens_slots valid :
  allocation_before_reallocation slot_df mens_slots womens_slots valid
  = (d <- apply_adds
            (apportion_adds (male_groups_of slot_df)
               (mens_slots - charged_male slot_df))
            (fold_left set_minimum slot_df (Dict.from_keys valid 0)) ;;
     apply_adds
       (apportion_adds (female_groups_of slot_df)
          (womens_slots - charged_female slot_df)) d).
Proof.
  unfold allocation_before_reallocation. rewrite minimum_guarantee_eq.
  rewrite apportion_as_adds.
  destruct (apply_adds _ _) as [d|e]; cbn [bind]; [|reflexivity].
  apply apportion_as_adds.
Qed.

Section Phases.
Import Dict DictFacts.

Variables (df : DataFrame) (valid : list string) (slot_df : list group_row).
Hypothesis Hgrouped : grouped df valid slot_df.

Lemma allocation_phases mens_slots womens_slots :
  exists d1 d2,
    allocation_before_reallocation slot_df mens_slots womens_slots valid
    = Returns d1
    /\ before_reallocation valid slot_df mens_slots womens_slots d1
    /\ reallocate (male_groups_of slot_df) (female_groups_of slot_df)
         slot_df d1 = Returns d2
    /\ slot_allocation_of slot_df mens_slots womens_slots valid = Returns d2
    /\ returned valid slot_df d2
    /\ (forall r, In r slot_df -> In (row_age_group r) (keys d1))
    /\ nonneg d1.
Proof.
  destruct (allocation_before_reallocation_spec df valid slot_df Hgrouped
              mens_slots womens_slots) as [d1 [Hr1 Hd1]].
  assert (Hcov : forall r, In r slot_df -> In (row_age_group r) (keys d1)).
  { intros r Hr. rewrite (before_keys _ _ _ _ _ Hd1). apply from_keys_keys.
    apply (grouped_row df valid slot_df Hgrouped) in Hr. tauto. }
  assert (Hnn1 : nonneg d1).
  { intros k v Hv.
    destruct (in_dec string_dec k (map row_age_group slot_df)) as [Hin|Hnin].
    - destruct (before_rows _ _ _ _ _ Hd1 k Hin) as [v' [Hv' Hle]].
      rewrite Hv in Hv'. inversion Hv'. lia.
    - assert (Hkv : In k valid).
      { apply (from_keys_keys valid 0). rewrite <- (before_keys _ _ _ _ _ Hd1).
        apply get_in_keys. now exists v. }
      rewrite (before_rest _ _ _ _ _ Hd1 k Hkv Hnin) in Hv. inversion Hv. lia. }
  destruct (reallocate_loop df valid slot_df Hgrouped slot_df d1
              (grouped_NoDup _ _ _ Hgrouped) (fun r Hr => Hr) Hcov Hnn1)
    as [d2 [Hr2 [Hk2 _]]].
  destruct (slot_allocation_of_spec df valid slot_df Hgrouped
              mens_slots womens_slots) as [d [Hr Hd]].
  assert (Hfill : slot_allocation_of slot_df mens_slots womens_slots valid
                  = Returns d2).
  { unfold slot_allocation_of. rewrite Hr1. cbn [bind]. rewrite Hr2.
    cbn [bind]. rewrite fill_missing_present; [reflexivity|].
    intros k Hk. rewrite Hk2, (before_keys _ _ _ _ _ Hd1).
    now apply from_keys_keys. }
  rewrite Hfill in Hr. inversion Hr. subst d.
  exists d1, d2. tauto.
Qed.

(** The total of any pool of labels before the reallocation loop: one per
    row of the pool, plus what the two apportionments add to it. *)
Lemma before_sum_pool p mens_slots womens_slots d :
  allocation_before_reallocation slot_df mens_slots womens_slots valid
  = Returns d ->
  sum_where p d
  = Z.of_nat (List.length
      (filter (fun r => negb (starters_count r =? 0) && p (row_age_group r))
              slot_df))
    + sum_adds p (apportion_adds (male_groups_of slot_df)
                    (mens_slots - charged_male slot_df))
    + sum_adds p (apportion_adds (female_groups_of slot_df)
                    (womens_slots - charged_female slot_df)).
Proof.
  rewrite allocation_before_eq.
  set (d0 := from_keys valid 0).
  set (d1 := fold_left set_minimum slot_df d0).
  assert (Hin0 : forall r, In r slot_df -> In (row_age_group r) (keys d0)).
  { intros r Hr. apply from_keys_keys.
    apply (grouped_row df valid slot_df Hgrouped) in Hr. tauto. }
  assert (Hk1 : keys d1 = keys d0) by now apply set_minimum_keys.
  destruct (apply_adds_returns
              (apportion_adds (male_groups_of slot_df)
                 (mens_slots - charged_male slot_df)) d1)
    as [d2 [Hr2 [Hk2 [_ Hs2]]]].
  { intros x Hx. apply apportion_adds_keys in Hx.
    destruct Hx as [row [Hrow ->]]. rewrite Hk1. apply Hin0.
    now apply (male_groups_In df valid slot_df Hgrouped) in Hrow. }
  rewrite Hr2. cbn [bind].
  destruct (apply_adds_returns
              (apportion_adds (female_groups_of slot_df)
                 (womens_slots - charged_female slot_df)) d2)
    as [d3 [Hr3 [_ [_ Hs3]]]].
  { intros x Hx. apply apportion_adds_keys in Hx.
    destruct Hx as [row [Hrow ->]]. rewrite Hk2, Hk1. apply Hin0.
    now apply (female_groups_In df valid slot_df Hgrouped) in Hrow. }
  rewrite Hr3. intros [= <-]. rewrite Hs3, Hs2. unfold d1.
  rewrite (set_minimum_sum p slot_df d0 (grouped_NoDup _ _ _ Hgrouped)).
  - rewrite sum_where_zero; [lia | | apply from_keys_NoDup].
    intros k v Hg _. unfold d0, from_keys in Hg. apply fold_set_get in Hg.
    destruct Hg as [Hg|Hg]; [exact Hg | discriminate].
  - intros r Hr. apply from_keys_get.
    apply (grouped_row df valid slot_df Hgrouped) in Hr. tauto.
Qed.

Lemma charged_female_eq :
  charged_female slot_df
  = Z.of_nat (List.length
      (filter (fun r => negb (starters_count r =? 0)
                        && negb (is_male (row_age_group r))) slot_df)).
Proof.
  unfold charged_female. f_equal. f_equal. apply filter_ext_in.
  intros r Hr. apply (grouped_row df valid slot_df Hgrouped) in Hr.
  destruct Hr as [Hg _]. unfold is_male. now rewrite Hg.
Qed.

Lemma male_adds_pool B x :
  In x (apportion_adds (male_groups_of slot_df) B) -> is_male (fst x) = true.
Proof.
  intros Hx. apply apportion_adds_keys in Hx.
  destruct Hx as [row [Hrow ->]].
  apply (male_groups_In df valid slot_df Hgrouped) in Hrow.
  destruct Hrow as [Hrow Hg].
  apply (grouped_row df valid slot_df Hgrouped) in Hrow.
  unfold is_male. destruct Hrow as [<- _]. now rewrite Hg.
Qed.

Lemma female_adds_pool B x :
  In x (apportion_adds (female_groups_of slot_df) B) -> is_male (fst x) = false.
Proof.
  intros Hx. apply apportion_adds_keys in Hx.
  destruct Hx as [row [Hrow ->]].
  apply (female_groups_In df valid slot_df Hgrouped) in Hrow.
  destruct Hrow as [Hrow Hg].
  apply (grouped_row df valid slot_df Hgrouped) in Hrow.
  unfold is_male. destruct Hrow as [<- _]. now rewrite Hg.
Qed.

(** Before the reallocation loop the labels outside "M" hold one slot per
    row and, when it is positive and an F row exists, the female budget. *)
Lemma before_not_male mens_slots womens_slots d :
  allocation_before_reallocation slot_df mens_slots womens_slots valid
  = Returns d ->
  sum_where (fun k => negb (is_male k)) d
  = charged_female slot_df
    + (let f := womens_slots - charged_female slot_df in
       if (f >? 0) && negb (is_empty (female_groups_of slot_df))
       then f else 0).
Proof.
  intros Hd. rewrite (before_sum_pool _ _ _ _ Hd), <- charged_female_eq.
  rewrite sum_adds_none.
  2:{ intros x Hx. apply male_adds_pool in Hx. now rewrite Hx. }
  rewrite sum_adds_all.
  2:{ intros x Hx. apply female_adds_pool in Hx. now rewrite Hx. }
  fold (total_adds (apportion_adds (female_groups_of slot_df)
                      (womens_slots - charged_female slot_df))).
  rewrite apportion_adds_total; [cbn zeta; lia|].
  intros row Hrow. apply (female_groups_In df valid slot_df Hgrouped) in Hrow.
  destruct Hrow as [Hrow _].
  apply (grouped_row df valid slot_df Hgrouped) in Hrow. lia.
Qed.

(** An entry neither apportionment touches still holds what the minimum
    guarantee left in it. *)
Lemma before_get_untouched mens_slots womens_slots d k :
  allocation_before_reallocation slot_df mens_slots womens_slots valid
  = Returns d ->
  ~ In k (map fst (apportion_adds (male_groups_of slot_df)
                     (mens_slots - charged_male slot_df))) ->
  ~ In k (map fst (apportion_adds (female_groups_of slot_df)
                     (womens_slots - charged_female slot_df))) ->
  get d k = get (fold_left set_minimum slot_df (from_keys valid 0)) k.
Proof.
  rewrite allocation_before_eq.
  set (d0 := from_keys valid 0).
  set (d1 := fold_left set_minimum slot_df d0).
  assert (Hin0 : forall r, In r slot_df -> In (row_age_group r) (keys d0)).
  { intros r Hr. apply from_keys_keys.
    apply (grouped_row df valid slot_df Hgrouped) in Hr. tauto. }
  assert (Hk1 : keys d1 = keys d0) by now apply set_minimum_keys.
  destruct (apply_adds_returns
              (apportion_adds (male_groups_of slot_df)
                 (mens_slots - charged_male slot_df)) d1)
    as [d2 [Hr2 [Hk2 [Ho2 _]]]].
  { intros x Hx. apply apportion_adds_keys in Hx.
    destruct Hx as [row [Hrow ->]]. rewrite Hk1. apply Hin0.
    now apply (male_groups_In df valid slot_df Hgrouped) in Hrow. }
  rewrite Hr2. cbn [bind].
  destruct (apply_adds_returns
              (apportion_adds (female_groups_of slot_df)
                 (womens_slots - charged_female slot_df)) d2)
    as [d3 [Hr3 [_ [Ho3 _]]]].
  { intros x Hx. apply apportion_adds_keys in Hx.
    destruct Hx as [row [Hrow ->]]. rewrite Hk2, Hk1. apply Hin0.
    now apply (female_groups_In df valid slot_df Hgrouped) in Hrow. }
  rewrite Hr3. intros [= <-] Hm Hf. now rewrite Ho3, Ho2.
Qed.

Lemma minimum_get c :
  In c valid -> 0 < starters_in df c ->
  get (fold_left set_minimum slot_df (from_keys valid 0)) c = Some 1.
Proof.
  intros Hc Hs. rewrite set_minimum_get.
  replace (existsb _ slot_df) with true; [reflexivity|].
  symmetry. apply existsb_exists. exists (row_for df c). split.
  - apply (grouped_rows _ _ _ Hgrouped). now exists c.
  - simpl. rewrite String.eqb_refl, andb_true_r.
    destruct (Z.eqb_spec (starters_in df c) 0); [lia | reflexivity].
Qed.

End Phases.

Lemma apportion_adds_spent groups B : B <= 0 -> apportion_adds groups B = [].
Proof.
  intros HB. unfold apportion_adds.
  destruct (Z.gtb_spec B 0); [lia | reflexivity].
Qed.

(** ** Quotas and totals *)

Section Totals.

Variables (df : DataFrame) (valid : list string) (slot_df : list group_row).
Hypothesis Hgrouped : grouped df valid slot_df.

Lemma returned_totals mens_slots womens_slots :
  exists d1 d2,
    allocation_before_reallocation slot_df mens_slots womens_slots valid
    = Returns d1
    /\ before_reallocation valid slot_df mens_slots womens_slots d1
    /\ slot_allocation_of slot_df mens_slots womens_slots valid = Returns d2
    /\ returned valid slot_df d2
    /\ Dict.sum_where (fun _ => true) d2 <= Dict.sum_where (fun _ => true) d1
    /\ Dict.sum_where is_male d2 <= Dict.sum_where is_male d1
    /\ Dict.sum_where (fun k => negb (is_male k)) d2
       <= Dict.sum_where (fun k => negb (is_male k)) d1.
Proof.
  destruct (allocation_phases df valid slot_df Hgrouped mens_slots womens_slots)
    as [d1 [d2 [Hr1 [Hb [Hr2 [Hr [Hd [Hcov Hnn]]]]]]]].
  exists d1, d2. repeat (split; [assumption|]).
  assert (Hsum : forall p,
    (forall row trow, In row slot_df ->
       In trow (target_groups_of (male_groups_of slot_df)
                  (female_groups_of slot_df) row) ->
       p (row_age_group trow) = true -> p (row_age_group row) = true) ->
    Dict.sum_where p d2 <= Dict.sum_where p d1).
  { intros p Hp.
    apply (reallocate_sum df valid slot_df Hgrouped p slot_df d1); trivial.
    apply (grouped_NoDup _ _ _ Hgrouped). }
  repeat split; apply Hsum; intros row trow Hrow Ht; trivial;
    rewrite (target_pool df valid slot_df Hgrouped row trow Hrow Ht); trivial.
Qed.


Lemma returned_finisher_slot mens_slots womens_slots :
  exists d,
    slot_allocation_of slot_df mens_slots womens_slots valid = Returns d
    /\ returned valid slot_df d
    /\ forall c, In c valid -> 0 < finishers_in df c ->
         exists v, Dict.get d c = Some v /\ 1 <= v.
Proof.
  destruct (allocation_phases df valid slot_df Hgrouped mens_slots womens_slots)
    as [d1 [d2 [Hr1 [Hb [Hr2 [Hr [Hd _]]]]]]].
  exists d2. split; [exact Hr|]. split; [exact Hd|]. intros c Hc Hf.
  pose proof (finishers_le_starters df c) as Hle.
  assert (Hkey : In c (map row_age_group slot_df)).
  { apply (grouped_key_row df valid slot_df Hgrouped). split; [exact Hc | lia]. }
  destruct (before_rows _ _ _ _ _ Hb c Hkey) as [v1 [Hv1 H1]].
  destruct (reallocate_keeps _ _ _ _ _ c v1 Hr2 Hv1) as [v2 [Hv2 H2]].
  - intros r Hr0 He.
    apply (grouped_row df valid slot_df Hgrouped) in Hr0.
    destruct Hr0 as [_ [_ [_ [-> _]]]]. now rewrite He.
  - exists v2. split; [exact Hv2 | lia].
Qed.

End Totals.

(** X1: the reallocation loop never creates a slot.  For every order of the
    grouped frame the run returns, and the returned map holds at most what
    the map held before the loop: in all, over the labels that start with
    "M", and over the other labels. *)
Theorem reallocation_never_adds
  (df : DataFrame) (valid : list string) (mens_slots womens_slots : Z)
  (slot_df : list group_row) :
  aggregation df valid slot_df ->
  exists d1 d2,
    allocation_before_reallocation slot_df mens_slots womens_slots valid
    = Returns d1
    /\ slot_allocation_of slot_df mens_slots womens_slots valid = Returns d2
    /\ Dict.sum_where (fun _ => true) d2 <= Dict.sum_where (fun _ => true) d1
    /\ Dict.sum_where is_male d2 <= Dict.sum_where is_male d1
    /\ Dict.sum_where (fun k => negb (is_male k)) d2
       <= Dict.sum_where (fun k => negb (is_male k)) d1.
Proof.
  intros Hagg. apply aggregation_grouped in Hagg.
  destruct (returned_totals df valid slot_df Hagg mens_slots womens_slots)
    as [d1 [d2 [Hr1 [_ [Hr [_ Hsums]]]]]].
  exists d1, d2. tauto.
Qed.

Lemma reallocation_never_adds_witness :
  exists d1 d2,
    allocation_before_reallocation
      (slot_frame scenario_roster scenario_valid) 3 0 scenario_valid
    = Returns d1
    /\ slot_allocation_of (slot_frame scenario_roster scenario_valid) 3 0
         scenario_valid = Returns d2
    /\ Dict.sum_where is_male d2 <= Dict.sum_where is_male d1.
Proof.
  destruct (reallocation_never_adds scenario_roster scenario_valid 3 0
              (slot_frame scenario_roster scenario_valid)
              (Permutation_refl _)) as [d1 [d2 [H1 [H2 [_ [Hm _]]]]]].
  exists d1, d2. split; [exact H1|]. split; [exact H2 | exact Hm].
Defined.



(** X3: a quota that does not exceed the number of rows charged to it is
    ignored.  Before the reallocation loop every category with a starter
    then holds exactly one slot, so the categories together hold their
    number, which is more than the quota when the quota is smaller. *)
Theorem quota_below_categories
  (df : DataFrame) (valid : list string) (mens_slots womens_slots : Z)
  (slot_df : list group_row) :
  aggregation df valid slot_df ->
  exists d,
    allocation_before_reallocation slot_df mens_slots womens_slots valid
    = Returns d
    /\ (mens_slots <= charged_male slot_df ->
        (forall c, In c valid -> 0 < starters_in df c -> is_male c = true ->
           Dict.get d c = Some 1)
        /\ Dict.sum_where is_male d = charged_male slot_df)
    /\ (womens_slots <= charged_female slot_df ->
        (forall c, In c valid -> 0 < starters_in df c -> is_male c = false ->
           Dict.get d c = Some 1)
        /\ Dict.sum_where (fun k => negb (is_male k)) d
           = charged_female slot_df).
Proof.
  intros Hagg. pose proof (aggregation_grouped _ _ _ Hagg) as Hg.
  destruct (allocation_phases df valid slot_df Hg mens_slots womens_slots)
    as [d1 [d2 [Hr1 [Hb _]]]].
  exists d1. split; [exact Hr1|]. split; intros Hq.
  - split.
    + intros c Hc Hs Hm.
      rewrite (before_get_untouched df valid slot_df Hg _ _ _ c Hr1).
      * now apply (minimum_get df valid slot_df Hg).
      * rewrite apportion_adds_spent by lia. intros [].
      * intros Hin. apply in_map_iff in Hin. destruct Hin as [x [<- Hx]].
        apply (female_adds_pool df valid slot_df Hg) in Hx. congruence.
    + rewrite (before_male _ _ _ _ _ Hb). cbn zeta.
      destruct (Z.gtb_spec (mens_slots - charged_male slot_df) 0);
        cbn [andb]; lia.
  - split.
    + intros c Hc Hs Hm.
      rewrite (before_get_untouched df valid slot_df Hg _ _ _ c Hr1).
      * now apply (minimum_get df valid slot_df Hg).
      * intros Hin. apply in_map_iff in Hin. destruct Hin as [x [<- Hx]].
        apply (male_adds_pool df valid slot_df Hg) in Hx. congruence.
      * rewrite apportion_adds_spent by lia. intros [].
    + rewrite (before_not_male df valid slot_df Hg _ _ _ Hr1). cbn zeta.
      destruct (Z.gtb_spec (womens_slots - charged_female slot_df) 0);
        cbn [andb]; lia.
Qed.

Lemma quota_below_categories_witness :
  exists d,
    allocation_before_reallocation
      (slot_frame scenario_roster scenario_valid) 1 0 scenario_valid
    = Returns d
    /\ Dict.get d "M35-39" = Some 1
    /\ Dict.get d "M40-44" = Some 1
    /\ Dict.sum_where is_male d = 2.
Proof.
  destruct (quota_below_categories scenario_roster scenario_valid 1 0
              (slot_frame scenario_roster scenario_valid)
              (Permutation_refl _)) as [d [Hr [Hm _]]].
  exists d. split; [exact Hr|].
  destruct Hm as [Hone Hsum]; [vm_compute; discriminate|].
  split; [|split].
  - apply Hone; [now left | reflexivity | reflexivity].
  - apply Hone; [right; now left | reflexivity | reflexivity].
  - exact Hsum.
Defined.

(** X4: reallocation never takes the guaranteed slot of a category that has
    a finisher.  In every map [calculate_slot_allocation] returns, a
    ground-truth category with at least one finisher holds at least one
    slot, whatever the quotas are. *)
Theorem finisher_categories_keep_a_slot
  (df : DataFrame) (valid : list string) (mens_slots womens_slots : Z)
  (res : outcome Dict.t) :
  calculate_slot_allocation df mens_slots womens_slots valid res ->
  exists d,
    res = Returns d
    /\ forall c, In c valid -> 0 < finishers_in df c ->
         exists v, Dict.get d c = Some v /\ 1 <= v.
Proof.
  intros [slot_df Hagg]. apply aggregation_grouped in Hagg.
  destruct (returned_finisher_slot df valid slot_df Hagg mens_slots womens_slots)
    as [d [Hr [_ Hkeep]]].
  exists d. split; [exact Hr | exact Hkeep].
Qed.

Lemma finisher_categories_keep_a_slot_witness :
  exists d,
    slot_allocation_of (slot_frame scenario_roster scenario_valid) 0 0
      scenario_valid = Returns d
    /\ exists v, Dict.get d "M35-39" = Some v /\ 1 <= v.
Proof.
  destruct (finisher_categories_keep_a_slot scenario_roster scenario_valid 0 0
              _ (some_run scenario_roster scenario_valid 0 0))
    as [d [Hr Hd]].
  exists d. split; [exact Hr|].
  apply Hd; [now left | reflexivity].
Defined.

(** ** The whole qualifier list *)

Lemma filter_twice {A : Type} (first second : A -> bool) (items : list A) :
  filter second (filter first items)
  = filter (fun x => first x && second x) items.
Proof.
  induction items as [|x items IH]; [reflexivity|]. cbn [filter].
  destruct (first x); cbn [filter andb]; [|exact IH].
  destruct (second x); now rewrite IH.
Qed.

Lemma unique_keys_filter (keep : string -> bool) (labels : list string) :
  unique_keys (filter keep labels) = filter keep (unique_keys labels).
Proof.
  induction labels as [|x labels IH]; [reflexivity|].
  cbn [filter unique_keys]. destruct (keep x) eqn:E.
  - cbn [unique_keys filter]. rewrite IH, !filter_twice. f_equal.
    apply filter_ext. intros y. apply andb_comm.
  - rewrite IH, filter_twice. apply filter_ext_in. intros y _.
    destruct (String.eqb_spec y x) as [->|Hne]; cbn [negb andb].
    + exact E.
    + reflexivity.
Qed.

Lemma fold_set_keys_order ks v d :
  Dict.keys (fold_left (fun d k => Dict.set d k v) ks d)
  = Dict.keys d
    ++ unique_keys (filter (fun k => negb (is_in k (Dict.keys d))) ks).
Proof.
  revert d. induction ks as [|k ks IH]; intros d.
  - simpl. now rewrite app_nil_r.
  - cbn [fold_left filter]. rewrite IH.
    destruct (is_in k (Dict.keys d)) eqn:E; cbn [negb].
    + assert (Hin : In k (Dict.keys d)).
      { unfold is_in in E. apply existsb_exists in E.
        destruct E as [x [Hx He]]. apply String.eqb_eq in He. now subst. }
      now rewrite (DictFacts.keys_set_present d k v Hin).
    + assert (Hnin : ~ In k (Dict.keys d)).
      { intros Hin. unfold is_in in E.
        assert (existsb (String.eqb k) (Dict.keys d) = true).
        { apply existsb_exists. exists k. split; [exact Hin|].
          apply String.eqb_refl. }
        congruence. }
      rewrite (DictFacts.keys_set_absent d k v Hnin), <- app_assoc.
      f_equal. cbn [app unique_keys]. f_equal.
      rewrite <- unique_keys_filter, filter_twice. f_equal.
      apply filter_ext. intros x. unfold is_in. rewrite existsb_app.
      cbn [existsb]. rewrite orb_false_r, negb_orb. reflexivity.
Qed.

(** A comprehension lists its keys in order of first occurrence. *)
Lemma from_keys_order ks v : Dict.keys (Dict.from_keys ks v) = unique_keys ks.
Proof.
  unfold Dict.from_keys. rewrite fold_set_keys_order. cbn [Dict.keys map app].
  f_equal. apply filter_all. reflexivity.
Qed.

Lemma qualifier_count_le df d : qualifier_count df d <= positive_slots d.
Proof.
  induction d as [|[k v] d IH]; [simpl; lia|].
  unfold qualifier_count, positive_slots in *.
  cbn [fold_right fst snd]. destruct (Z.gtb_spec v 0); lia.
Qed.

Section QualifierList.

Variable sort_rank : list (nat * athlete) -> list (nat * athlete).
Hypothesis sort_perm : forall l, Permutation (sort_rank l) l.

Lemma qualifiers_of_group_NoDup df ag slots :
  NoDup (qualifiers_of_group sort_rank df (ag, slots)).
Proof.
  rewrite (qualifiers_of_group_eq sort_rank sort_perm).
  destruct (slots <=? 0); [constructor|].
  assert (Hnd : NoDup (map fst (sort_rank (group_rows df ag)))).
  { apply (Permutation_NoDup
             (Permutation_map fst (Permutation_sym (sort_perm _)))).
    apply group_rows_NoDup. }
  rewrite <- (firstn_skipn (Z.to_nat slots) (sort_rank (group_rows df ag))) in Hnd.
  rewrite map_app in Hnd. now apply NoDup_app_remove_r in Hnd.
Qed.

Lemma qualifiers_of_group_length df ag slots :
  Z.of_nat (List.length (qualifiers_of_group sort_rank df (ag, slots)))
  = if slots >? 0 then Z.min slots (finishers_in df ag) else 0.
Proof.
  rewrite (qualifiers_of_group_eq sort_rank sort_perm).
  destruct (Z.leb_spec slots 0), (Z.gtb_spec slots 0); try lia;
    [reflexivity|].
  rewrite length_map, length_firstn, (Permutation_length (sort_perm _)).
  rewrite <- group_rows_length. lia.
Qed.

Lemma determine_qualifiers_In df d i :
  In i (determine_qualifiers sort_rank df d) ->
  exists a N, nth_error df i = Some a /\ finisher a = true
              /\ In (age_group a, N) d /\ 0 < N.
Proof.
  unfold determine_qualifiers. rewrite in_flat_map.
  intros [[c N] [Hitem Hi]].
  pose proof Hi as Hrow.
  apply (qualifiers_of_group_rows sort_rank sort_perm) in Hrow.
  destruct Hrow as [a [Ha [Hc Hf]]]. exists a, N. subst c.
  repeat split; trivial.
  rewrite (qualifiers_of_group_eq sort_rank sort_perm) in Hi.
  destruct (Z.leb_spec N 0); [destruct Hi | lia].
Qed.

Lemma determine_qualifiers_NoDup df d :
  NoDup (Dict.keys d) -> NoDup (determine_qualifiers sort_rank df d).
Proof.
  unfold determine_qualifiers.
  induction d as [|[k v] d IH]; intros Hnd; [constructor|].
  inversion Hnd as [|? ? Hk Hd]; subst. cbn [flat_map].
  apply NoDup_app; [apply qualifiers_of_group_NoDup | now apply IH |].
  intros i Hi Hrest.
  apply (qualifiers_of_group_rows sort_rank sort_perm) in Hi.
  destruct Hi as [a [Ha [Hc _]]].
  apply determine_qualifiers_In in Hrest.
  destruct Hrest as [b [N [Hb [_ [Hin _]]]]].
  rewrite Ha in Hb. inversion Hb. subst b.
  apply Hk. apply in_map_iff. exists (age_group a, N).
  split; [exact Hc | exact Hin].
Qed.

Lemma determine_qualifiers_length df d :
  Z.of_nat (List.length (determine_qualifiers sort_rank df d))
  = qualifier_count df d.
Proof.
  unfold determine_qualifiers.
  induction d as [|[k v] d IH]; [reflexivity|].
  cbn [flat_map qualifier_count fold_right fst snd].
  rewrite length_app, Nat2Z.inj_add, IH, qualifiers_of_group_length.
  reflexivity.
Qed.

Lemma determine_qualifiers_blocks df d :
  NoDup (Dict.keys d) ->
  determine_qualifiers sort_rank df d
  = flat_map (selected_in (determine_qualifiers sort_rank df d) df)
             (Dict.keys d).
Proof.
  intros Hnd.
  rewrite (flat_map_ext _ _
             (fun c => selected_in_group sort_rank sort_perm df d c Hnd)).
  unfold determine_qualifiers at 1.
  assert (H : forall d0, (forall x, In x d0 -> Dict.get d (fst x) = Some (snd x)) ->
            flat_map (qualifiers_of_group sort_rank df) d0
            = flat_map (fun c => match Dict.get d c with
                                 | Some N => qualifiers_of_group sort_rank df (c, N)
                                 | None => []
                                 end) (Dict.keys d0)).
  { induction d0 as [|[k v] d0 IH0]; intros Hget; [reflexivity|].
    pose proof (Hget (k, v) (or_introl eq_refl)) as Hkv. cbn [fst snd] in Hkv.
    cbn [flat_map Dict.keys map fst]. rewrite Hkv. f_equal. apply IH0. intros x Hx. apply Hget. now right. }
  apply H. clear H. induction d as [|[k v] d IH]; [intros x []|].
  inversion Hnd as [|? ? Hk Hd]; subst.
  intros x [<-|Hx]; cbn [Dict.get fst snd].
  - now rewrite String.eqb_refl.
  - destruct (String.eqb_spec (fst x) k) as [He|Hne].
    + exfalso. apply Hk. rewrite <- He. now apply in_map.
    + now apply IH.
Qed.

End QualifierList.



Lemma returned_NoDup valid slot_df d :
  returned valid slot_df d -> NoDup (Dict.keys d).
Proof.
  intros Hd. rewrite (returned_keys _ _ _ Hd). apply DictFacts.from_keys_NoDup.
Qed.

Section QualifierTheorems.

Variable sort_rank : list (nat * athlete) -> list (nat * athlete).
Hypothesis sort_perm : forall l, Permutation (sort_rank l) l.

(** X5: [determine_qualifiers] lists no row twice, also across categories,
    and returns, for each entry with a positive count, that many rows or
    all finishers of the category if they are fewer; so never more rows
    than the positive counts add up to. *)
Theorem qualifiers_listed_once (df : DataFrame) (d : Dict.t) :
  NoDup (Dict.keys d) ->
  NoDup (determine_qualifiers sort_rank df d)
  /\ Z.of_nat (List.length (determine_qualifiers sort_rank df d))
     = qualifier_count df d
  /\ qualifier_count df d <= positive_slots d.
Proof.
  intros Hnd. split; [|split].
  - now apply determine_qualifiers_NoDup.
  - now apply determine_qualifiers_length.
  - apply qualifier_count_le.
Qed.

(** X6: the qualifiers come category by category in the order of the
    ground-truth list.  For every run, the list [determine_qualifiers]
    makes of the returned map is the concatenation, over the ground-truth
    labels in order of first occurrence, of the qualifiers of each. *)
Theorem qualifiers_in_ground_truth_order
  (df : DataFrame) (valid : list string) (mens_slots womens_slots : Z)
  (res : outcome Dict.t) :
  calculate_slot_allocation df mens_slots womens_slots valid res ->
  exists d,
    res = Returns d
    /\ Dict.keys d = unique_keys valid
    /\ determine_qualifiers sort_rank df d
       = flat_map (selected_in (determine_qualifiers sort_rank df d) df)
                  (unique_keys valid).
Proof.
  intros Hrun. apply all_runs_return in Hrun.
  destruct Hrun as [slot_df [d [_ [-> [_ Hd]]]]].
  exists d. split; [reflexivity|].
  assert (Hk : Dict.keys d = unique_keys valid).
  { rewrite (returned_keys _ _ _ Hd). apply from_keys_order. }
  split; [exact Hk|]. rewrite <- Hk.
  apply (determine_qualifiers_blocks sort_rank sort_perm).
  apply (returned_NoDup _ _ _ Hd).
Qed.

Lemma returned_qualifiers
  (df : DataFrame) (valid : list string) (slot_df : list group_row)
  (mens_slots womens_slots : Z) :
  grouped df valid slot_df ->
  exists d,
    slot_allocation_of slot_df mens_slots womens_slots valid = Returns d
    /\ (forall c, In c valid -> 0 < finishers_in df c ->
          exists i, In i (selected_in (determine_qualifiers sort_rank df d) df c))
    /\ (determine_qualifiers sort_rank df d = []
        <-> forall c, In c valid -> finishers_in df c = 0).
Proof.
  intros Hagg.
  destruct (returned_finisher_slot df valid slot_df Hagg mens_slots womens_slots)
    as [d [Hr [Hd Hkeep]]].
  pose proof (returned_NoDup _ _ _ Hd) as Hnd.
  exists d. split; [exact Hr|].
  assert (Hsome : forall c, In c valid -> 0 < finishers_in df c ->
            exists i, In i (selected_in (determine_qualifiers sort_rank df d) df c)).
  { intros c Hc Hf. destruct (Hkeep c Hc Hf) as [v [Hv Hle]].
    rewrite (selected_in_group sort_rank sort_perm df d c Hnd), Hv.
    pose proof (qualifiers_of_group_length sort_rank sort_perm df c v) as Hlen.
    destruct (Z.gtb_spec v 0); [|lia].
    destruct (qualifiers_of_group sort_rank df (c, v)) as [|i l];
      [simpl in Hlen; lia|].
    exists i. now left. }
  split; [exact Hsome|]. split.
  - intros Hnil c Hc.
    pose proof (count_rows_nonneg
                  (fun a => has_age_group c a && finisher a) df) as Hnn.
    fold (finishers_in df c) in Hnn.
    destruct (Z.eq_dec (finishers_in df c) 0) as [|Hne]; [assumption|].
    destruct (Hsome c Hc ltac:(lia)) as [i Hi].
    rewrite Hnil in Hi. destruct Hi.
  - intros Hnone.
    destruct (determine_qualifiers sort_rank df d) as [|i l] eqn:E;
      [reflexivity|].
    assert (Hi : In i (determine_qualifiers sort_rank df d))
      by (rewrite E; now left).
    apply (determine_qualifiers_In sort_rank sort_perm) in Hi.
    destruct Hi as [a [N [Ha [Hf [Hin _]]]]].
    assert (Hv : In (age_group a) valid).
    { apply (DictFacts.from_keys_keys valid 0).
      rewrite <- (returned_keys _ _ _ Hd). apply in_map_iff.
      now exists (age_group a, N). }
    specialize (Hnone _ Hv).
    assert (0 < finishers_in df (age_group a)); [|lia].
    apply count_rows_pos. exists a. split.
    + now apply nth_error_In in Ha.
    + unfold has_age_group. now rewrite String.eqb_refl, Hf.
Qed.

(** X7: whatever the quotas, every ground-truth category with a finisher
    gets a qualifier.  For every run, [determine_qualifiers] on the returned
    map selects at least one row of each such category, and its result is
    empty exactly when no ground-truth category has a finisher. *)
Theorem every_finishing_category_qualifies
  (df : DataFrame) (valid : list string) (mens_slots womens_slots : Z)
  (res : outcome Dict.t) :
  calculate_slot_allocation df mens_slots womens_slots valid res ->
  exists d,
    res = Returns d
    /\ (forall c, In c valid -> 0 < finishers_in df c ->
          exists i, In i (selected_in (determine_qualifiers sort_rank df d) df c))
    /\ (determine_qualifiers sort_rank df d = []
        <-> forall c, In c valid -> finishers_in df c = 0).
Proof.
  intros [slot_df Hagg]. apply aggregation_grouped in Hagg.
  destruct (returned_qualifiers df valid slot_df mens_slots womens_slots Hagg)
    as [d [Hr Hq]].
  exists d. split; [exact Hr | exact Hq].
Qed.


End QualifierTheorems.

Lemma qualifiers_listed_once_witness :
  NoDup (determine_qualifiers stable_sort_rank scenario_roster
           scenario_allocation)
  /\ Z.of_nat (List.length (determine_qualifiers stable_sort_rank
                              scenario_roster scenario_allocation)) = 3.
Proof.
  destruct (qualifiers_listed_once stable_sort_rank stable_sort_rank_perm
              scenario_roster scenario_allocation scenario_allocation_NoDup)
    as [Hnd [Hlen _]].
  split; [exact Hnd | exact Hlen].
Defined.

Lemma qualifiers_in_ground_truth_order_witness :
  exists d,
    slot_allocation_of (slot_frame scenario_roster scenario_valid) 3 0
      scenario_valid = Returns d
    /\ Dict.keys d = ["M35-39"; "M40-44"]%string.
Proof.
  destruct (qualifiers_in_ground_truth_order stable_sort_rank
              stable_sort_rank_perm scenario_roster scenario_valid 3 0 _
              (some_run scenario_roster scenario_valid 3 0))
    as [d [Hr [Hk _]]].
  exists d. split; [exact Hr | exact Hk].
Defined.

Lemma every_finishing_category_qualifies_witness :
  exists d,
    slot_allocation_of (slot_frame scenario_roster scenario_valid) 0 0
      scenario_valid = Returns d
    /\ exists i,
         In i (selected_in (determine_qualifiers stable_sort_rank
                              scenario_roster d) scenario_roster "M35-39").
Proof.
  destruct (every_finishing_category_qualifies stable_sort_rank
              stable_sort_rank_perm scenario_roster scenario_valid 0 0 _
              (some_run scenario_roster scenario_valid 0 0))
    as [d [Hr [Hsome _]]].
  exists d. split; [exact Hr|].
  apply Hsome; [now left | reflexivity].
Defined.


(** * Properties of the highlighting *)

Lemma existsb_nat_In (i : nat) (rows : list nat) :
  existsb (Nat.eqb i) rows = true <-> In i rows.
Proof.
  rewrite existsb_exists. split.
  - intros [j [Hj He]]. apply Nat.eqb_eq in He. now subst.
  - intros Hi. exists i. split; [exact Hi | apply Nat.eqb_refl].
Qed.

Lemma qualifier_athletes_In data_frame rows n :
  In n (Screen.qualifier_athletes data_frame rows)
  <-> exists i b, In i rows /\ nth_error data_frame i = Some b /\ name b = n.
Proof.
  unfold Screen.qualifier_athletes. destruct rows as [|r rows].
  - cbn [is_empty]. split; [intros [] | intros [i [b [[] _]]]].
  - cbn [is_empty]. rewrite in_map_iff. split.
    + intros [[i b] [Hn Hin]]. apply filter_In in Hin.
      destruct Hin as [Hin Hq]. cbn [fst snd] in *.
      exists i, b. split; [now apply existsb_nat_In|].
      split; [now apply with_row_index_In | exact Hn].
    + intros [i [b [Hi [Hb Hn]]]]. exists (i, b). split; [exact Hn|].
      apply filter_In. split; [now apply with_row_index_In|].
      now apply existsb_nat_In.
Qed.

Lemma is_qualifier_In athletes row :
  Screen.is_qualifier athletes row = true <-> In (name row) athletes.
Proof.
  unfold Screen.is_qualifier. rewrite existsb_exists. split.
  - intros [n [Hn He]]. apply String.eqb_eq in He. now rewrite He.
  - intros Hin. exists (name row). split; [exact Hin | apply String.eqb_refl].
Qed.

(** X9: [populate_table] marks by name.  A shown row is green exactly when
    some row of [self.df] with the same name has its index in
    [self.qualifier_rows]: every qualifier that is shown is green, and so is
    every other athlete who shares a name with one.  When the names of
    [self.df] are pairwise distinct, a row of [self.df] is green exactly
    when its own index is a qualifier index. *)
Theorem highlight_by_name (st : Screen.t) (data_frame shown : DataFrame) :
  Screen.df st = Some data_frame ->
  Screen.filtered_df st = Some shown ->
  map fst (Screen.populate_table st) = shown
  /\ (forall row flag, In (row, flag) (Screen.populate_table st) ->
        (flag = true <->
         exists i b, In i (Screen.qualifier_rows st)
                     /\ nth_error data_frame i = Some b /\ name b = name row))
  /\ (NoDup (map name data_frame) ->
      forall row flag j, In (row, flag) (Screen.populate_table st) ->
        nth_error data_frame j = Some row ->
        (flag = true <-> In j (Screen.qualifier_rows st))).
Proof.
  intros Hdf Hshown.
  assert (Hflag : forall row flag, In (row, flag) (Screen.populate_table st) ->
            (flag = true <->
             exists i b, In i (Screen.qualifier_rows st)
                         /\ nth_error data_frame i = Some b
                         /\ name b = name row)).
  { unfold Screen.populate_table. rewrite Hshown, Hdf. intros row flag.
    destruct (Screen.qualifier_rows st) as [|q rows] eqn:E; cbn [is_empty].
    - rewrite in_map_iff. intros [r [Hr _]]. inversion Hr. subst.
      split; [discriminate | intros [i [b [[] _]]]].
    - rewrite in_map_iff. intros [r [Hr _]]. inversion Hr. subst.
      rewrite is_qualifier_In. apply qualifier_athletes_In. }
  split; [|split; [exact Hflag|]].
  - unfold Screen.populate_table. rewrite Hshown, Hdf.
    destruct (is_empty (Screen.qualifier_rows st)); rewrite map_map;
      cbn [fst]; apply map_id.
  - intros Hnd row flag j Hin Hj. rewrite (Hflag row flag Hin). split.
    + intros [i [b [Hi [Hb Hn]]]].
      assert (i = j); [|now subst].
      apply (proj1 (NoDup_nth_error (map name data_frame)) Hnd).
      * rewrite length_map. apply nth_error_Some. congruence.
      * rewrite !nth_error_map, Hb, Hj. cbn. now rewrite Hn.
    + intros Hi. now exists j, row.
Qed.

Lemma highlight_by_name_witness :
  exists flag,
    In (mk_athlete "Kim" "F25-29" true 9, flag)
       (Screen.populate_table namesake_screen)
    /\ flag = true.
Proof.
  exists (Screen.is_qualifier
            (Screen.qualifier_athletes namesake_roster [0%nat])
            (mk_athlete "Kim" "F25-29" true 9)).
  assert (Hin : In (mk_athlete "Kim" "F25-29" true 9,
                    Screen.is_qualifier
                      (Screen.qualifier_athletes namesake_roster [0%nat])
                      (mk_athlete "Kim" "F25-29" true 9))
                   (Screen.populate_table namesake_screen))
    by (right; left; reflexivity).
  split; [exact Hin|].
  destruct (highlight_by_name namesake_screen namesake_roster namesake_roster
              eq_refl eq_refl) as [_ [Hflag _]].
  apply (Hflag _ _ Hin).
  exists 0%nat, (mk_athlete "Kim" "F18-24" true 1).
  split; [now left | split; reflexivity].
Defined.

Lemma press_unfold sort_rank valid slot_df st data_frame :
  Screen.df st = Some data_frame ->
  Screen.qualifier_rows st = [] ->
  ~ (Screen.mens_slots st = 0 /\ Screen.womens_slots st = 0) ->
  grouped data_frame valid slot_df ->
  exists d,
    slot_allocation_of slot_df (Screen.mens_slots st) (Screen.womens_slots st)
      valid = Returns d
    /\ Screen.press sort_rank valid slot_df st
       = Screen.set_qualifier_rows st
           (determine_qualifiers sort_rank data_frame d).
Proof.
  intros Hdf Hq Hslots Hg.
  destruct (slot_allocation_of_spec data_frame valid slot_df Hg
              (Screen.mens_slots st) (Screen.womens_slots st)) as [d [Hr _]].
  exists d. split; [exact Hr|].
  unfold Screen.press. rewrite Hdf, Hq, Hr. cbn [is_empty negb].
  destruct (Z.eqb_spec (Screen.mens_slots st) 0) as [Hm|Hm];
    destruct (Z.eqb_spec (Screen.womens_slots st) 0) as [Hw|Hw];
    cbn [andb]; try reflexivity.
  exfalso. apply Hslots. now split.
Qed.

(** X10: one key press on a screen without highlighting.  With both quotas
    at 0 nothing changes.  With any other quotas, also 0 for one gender or
    a negative number, the qualifier rows of the new screen hold a row of
    every ground-truth category that has a finisher, no row twice, and only
    indices of finishers of the roster. *)
Theorem press_highlights_every_finishing_category
  (valid : list string) (st st' : Screen.t) (data_frame : DataFrame) :
  Screen.action_highlight_qualifiers valid st st' ->
  Screen.df st = Some data_frame ->
  Screen.qualifier_rows st = [] ->
  (Screen.mens_slots st = 0 /\ Screen.womens_slots st = 0 -> st' = st)
  /\ (~ (Screen.mens_slots st = 0 /\ Screen.womens_slots st = 0) ->
      (forall c, In c valid -> 0 < finishers_in data_frame c ->
         exists i, In i (selected_in (Screen.qualifier_rows st') data_frame c))
      /\ NoDup (Screen.qualifier_rows st')
      /\ (forall i, In i (Screen.qualifier_rows st') ->
            exists a, nth_error data_frame i = Some a /\ finisher a = true)).
Proof.
  intros [sort_rank slot_df Hperm Hsorted Hagg] Hdf Hq. split.
  - intros [Hm Hw]. unfold Screen.press. now rewrite Hdf, Hm, Hw.
  - intros Hslots.
    pose proof (aggregation_grouped _ _ _ (Hagg _ Hdf)) as Hg.
    destruct (press_unfold sort_rank valid slot_df st data_frame
                Hdf Hq Hslots Hg) as [d [Hr ->]].
    cbn [Screen.set_qualifier_rows Screen.qualifier_rows].
    destruct (returned_qualifiers sort_rank Hperm data_frame valid slot_df
                (Screen.mens_slots st) (Screen.womens_slots st) Hg)
      as [d' [Hr' [Hsome _]]].
    rewrite Hr in Hr'. inversion Hr'. subst d'.
    destruct (slot_allocation_of_spec data_frame valid slot_df Hg
                (Screen.mens_slots st) (Screen.womens_slots st))
      as [d' [Hr'' Hd]].
    rewrite Hr in Hr''. inversion Hr''. subst d'.
    split; [exact Hsome|]. split.
    + apply (determine_qualifiers_NoDup sort_rank Hperm).
      apply (returned_NoDup _ _ _ Hd).
    + intros i Hi. apply (determine_qualifiers_In sort_rank Hperm) in Hi.
      destruct Hi as [a [N [Ha [Hf _]]]]. now exists a.
Qed.

Lemma scenario_press :
  Screen.action_highlight_qualifiers scenario_valid scenario_screen
    (Screen.press stable_sort_rank scenario_valid
       (slot_frame scenario_roster scenario_valid) scenario_screen).
Proof.
  constructor.
  - apply stable_sort_rank_perm.
  - apply stable_sort_rank_sorted.
  - intros data_frame [= <-]. apply Permutation_refl.
Defined.

Lemma press_highlights_every_finishing_category_witness :
  exists i,
    In i (selected_in
            (Screen.qualifier_rows
               (Screen.press stable_sort_rank scenario_valid
                  (slot_frame scenario_roster scenario_valid) scenario_screen))
            scenario_roster "M35-39").
Proof.
  destruct (press_highlights_every_finishing_category scenario_valid
              scenario_screen _ scenario_roster scenario_press
              eq_refl eq_refl) as [_ H].
  destruct H as [Hsome _]; [vm_compute; intros [H _]; discriminate|].
  apply Hsome; [now left | reflexivity].
Defined.

Lemma press_df sort_rank valid slot_df st :
  Screen.df (Screen.press sort_rank valid slot_df st) = Screen.df st.
Proof.
  unfold Screen.press. destruct (Screen.df st) eqn:E; [|exact E].
  destruct (_ && _); [exact E|].
  destruct (negb _); [exact E|].
  destruct (slot_allocation_of _ _ _ _); exact E.
Qed.

Lemma set_qualifier_rows_same st :
  Screen.set_qualifier_rows st (Screen.qualifier_rows st) = st.
Proof. now destruct st. Qed.

Lemma press_clears sort_rank valid slot_df st data_frame i rows :
  Screen.df st = Some data_frame ->
  ~ (Screen.mens_slots st = 0 /\ Screen.womens_slots st = 0) ->
  Screen.press sort_rank valid slot_df
    (Screen.set_qualifier_rows st (i :: rows))
  = Screen.set_qualifier_rows st [].
Proof.
  intros Hdf Hslots. unfold Screen.press.
  cbn [Screen.set_qualifier_rows Screen.df Screen.mens_slots
       Screen.womens_slots Screen.qualifier_rows Screen.filtered_df].
  rewrite Hdf. cbn [is_empty negb].
  destruct (Z.eqb_spec (Screen.mens_slots st) 0) as [Hm|Hm];
    destruct (Z.eqb_spec (Screen.womens_slots st) 0) as [Hw|Hw];
    cbn [andb]; try reflexivity.
  exfalso. apply Hslots. now split.
Qed.

Lemma press_twice sort1 sort2 valid slot_df1 slot_df2 st :
  (forall l, Permutation (sort1 l) l) ->
  (forall l, Permutation (sort2 l) l) ->
  (forall data_frame, Screen.df st = Some data_frame ->
     grouped data_frame valid slot_df1 /\ grouped data_frame valid slot_df2) ->
  Screen.qualifier_rows st = [] ->
  Screen.press sort2 valid slot_df2 (Screen.press sort1 valid slot_df1 st) = st.
Proof.
  intros Hperm1 Hperm2 Hg Hq.
  destruct (Screen.df st) as [data_frame|] eqn:Hdf.
  2:{ unfold Screen.press. now rewrite Hdf, Hdf. }
  destruct (Hg data_frame eq_refl) as [Hg1 Hg2].
  destruct (Z.eq_dec (Screen.mens_slots st) 0) as [Hm|Hm];
    [destruct (Z.eq_dec (Screen.womens_slots st) 0) as [Hw|Hw]|].
  1:{ unfold Screen.press. rewrite Hdf, Hm, Hw. cbn [Z.eqb andb].
      now rewrite Hdf, Hm, Hw. }
  all: assert (Hslots : ~ (Screen.mens_slots st = 0
                           /\ Screen.womens_slots st = 0)) by tauto.
  all: destruct (press_unfold sort1 valid slot_df1 st data_frame
                   Hdf Hq Hslots Hg1) as [d1 [Hr1 ->]].
  all: destruct (returned_qualifiers sort1 Hperm1 data_frame valid slot_df1
                   (Screen.mens_slots st) (Screen.womens_slots st) Hg1)
         as [d1' [Hr1' [_ Hnil1]]].
  all: rewrite Hr1 in Hr1'; inversion Hr1'; subst d1'.
  all: destruct (determine_qualifiers sort1 data_frame d1) as [|i l] eqn:E.
  all: try (rewrite (press_clears sort2 valid slot_df2 st data_frame i l
                       Hdf Hslots), <- Hq;
            apply set_qualifier_rows_same).
  all: rewrite <- Hq, set_qualifier_rows_same.
  all: destruct (press_unfold sort2 valid slot_df2 st data_frame
                   Hdf Hq Hslots Hg2) as [d2 [Hr2 ->]].
  all: destruct (returned_qualifiers sort2 Hperm2 data_frame valid slot_df2
                   (Screen.mens_slots st) (Screen.womens_slots st) Hg2)
         as [d2' [Hr2' [_ Hnil2]]].
  all: rewrite Hr2 in Hr2'; inversion Hr2'; subst d2'.
  all: rewrite (proj2 Hnil2 (proj1 Hnil1 eq_refl)), <- Hq.
  all: apply set_qualifier_rows_same.
Qed.

(** X11: highlighting is a toggle.  From a screen without highlighting,
    two key presses lead back to that screen, whichever orders polars
    chooses in either press. *)
Theorem two_presses_clear
  (valid : list string) (st st1 st2 : Screen.t) :
  Screen.qualifier_rows st = [] ->
  Screen.action_highlight_qualifiers valid st st1 ->
  Screen.action_highlight_qualifiers valid st1 st2 ->
  st2 = st.
Proof.
  intros Hq [sort1 slot_df1 Hperm1 _ Hagg1] H2. revert Hagg1.
  inversion H2 as [sort2 slot_df2 Hperm2 _ Hagg2 Heq]. intros Hagg1.
  apply press_twice; trivial.
  intros data_frame Hdf. split; apply aggregation_grouped.
  - now apply Hagg1.
  - apply Hagg2. now rewrite press_df.
Qed.

Lemma two_presses_clear_witness :
  Screen.press reverse_sort_rank scenario_valid
    (rev (slot_frame scenario_roster scenario_valid))
    (Screen.press stable_sort_rank scenario_valid
       (slot_frame scenario_roster scenario_valid) scenario_screen)
  = scenario_screen.
Proof.
  apply (two_presses_clear scenario_valid scenario_screen
           (Screen.press stable_sort_rank scenario_valid
              (slot_frame scenario_roster scenario_valid) scenario_screen)).
  - reflexivity.
  - exact scenario_press.
  - constructor.
    + apply reverse_sort_rank_perm.
    + apply reverse_sort_rank_sorted.
    + intros data_frame [= <-]. apply Permutation_sym, Permutation_rev.
Defined.

(** * Properties of the text functions and of the slots table *)

Section TextFacts.

Variable isspace : N -> bool.
Hypothesis space_is_space : isspace 32%N = true.
Hypothesis nbsp_is_space : isspace 160%N = true.

Lemma rstrip_cons c s :
  rstrip isspace (c :: s)
  = if isspace c && is_empty (rstrip isspace s) then []
    else c :: rstrip isspace s.
Proof. reflexivity. Qed.

(** A string without trailing white space. *)
Lemma rstrip_fixed_cons c s :
  rstrip isspace (c :: s) = c :: s ->
  rstrip isspace s = s /\ (isspace c = true -> s <> []).
Proof.
  rewrite rstrip_cons.
  destruct (isspace c && is_empty (rstrip isspace s)) eqn:E; [discriminate|].
  intros [= Hs]. split; [exact Hs|]. intros Hc ->.
  rewrite Hc in E. discriminate.
Qed.

Lemma rstrip_rstrip s : rstrip isspace (rstrip isspace s) = rstrip isspace s.
Proof.
  induction s as [|c s IH]; [reflexivity|]. rewrite rstrip_cons.
  destruct (isspace c && is_empty (rstrip isspace s)) eqn:E; [reflexivity|].
  rewrite rstrip_cons, IH, E. reflexivity.
Qed.

Lemma lstrip_head s :
  match lstrip isspace s with
  | [] => True
  | c :: _ => isspace c = false
  end.
Proof.
  induction s as [|c s IH]; [exact I|]. cbn [lstrip].
  destruct (isspace c) eqn:E; [exact IH | exact E].
Qed.

Lemma strip_shape s :
  strip isspace s = []
  \/ exists c s', strip isspace s = c :: s' /\ isspace c = false
                  /\ rstrip isspace s' = s'.
Proof.
  unfold strip. pose proof (lstrip_head s) as Hh.
  destruct (lstrip isspace s) as [|c u]; [now left|].
  right. rewrite rstrip_cons, Hh. cbn [andb].
  exists c, (rstrip isspace u). repeat split; trivial. apply rstrip_rstrip.
Qed.

Lemma sub_spaces_resumes v :
  v <> [] -> rstrip isspace v = v ->
  exists c r, sub_spaces isspace true v = c :: r /\ isspace c = false.
Proof.
  induction v as [|x v IH]; [congruence|]. intros _ Hfix.
  apply rstrip_fixed_cons in Hfix. destruct Hfix as [Hv Hx].
  cbn [sub_spaces]. destruct (isspace x) eqn:E.
  - apply IH; [now apply Hx | exact Hv].
  - now exists x, (sub_spaces isspace false v).
Qed.

Lemma sub_spaces_runs v b l c r :
  rstrip isspace v = v ->
  sub_spaces isspace b v = l ++ c :: r -> isspace c = true ->
  c = 32%N /\ exists c' r', r = c' :: r' /\ isspace c' = false.
Proof.
  revert b l. induction v as [|x v IH]; intros b l Hfix Hsub Hc.
  - destruct l; discriminate.
  - apply rstrip_fixed_cons in Hfix. destruct Hfix as [Hv Hx].
    cbn [sub_spaces] in Hsub. destruct (isspace x) eqn:E.
    + destruct b; [now apply (IH true l)|].
      destruct l as [|y l]; cbn [app] in Hsub; inversion Hsub; subst.
      * split; [reflexivity|]. apply sub_spaces_resumes; [now apply Hx | exact Hv].
      * now apply (IH true l).
    + destruct l as [|y l]; cbn [app] in Hsub; inversion Hsub; subst.
      * congruence.
      * now apply (IH false l).
Qed.

Lemma clean_text_single_spaced t : single_spaced isspace (clean_text isspace t).
Proof.
  unfold clean_text.
  destruct (strip_shape (replace_nbsp t)) as [->|[c [s' [-> [Hc Hfix]]]]].
  - split; [discriminate | intros [|? ?]; discriminate].
  - cbn [sub_spaces]. rewrite Hc. split.
    + now intros c0 r [= <- _].
    + intros l c0 r Heq Hc0. destruct l as [|y l]; cbn [app] in Heq;
        inversion Heq; subst; [congruence|].
      now apply (sub_spaces_runs s' false l c0 r).
Qed.

Lemma single_spaced_last s l c :
  single_spaced isspace s -> s = l ++ [c] -> isspace c = false.
Proof.
  intros [_ Hruns] Heq. destruct (isspace c) eqn:E; [|reflexivity].
  destruct (Hruns l c [] Heq E) as [_ [c' [r' [Hnil _]]]]. discriminate.
Qed.

Lemma single_spaced_tail x s :
  (forall l c r, x :: s = l ++ c :: r -> isspace c = true ->
     c = 32%N /\ exists c' r', r = c' :: r' /\ isspace c' = false) ->
  forall l c r, s = l ++ c :: r -> isspace c = true ->
    c = 32%N /\ exists c' r', r = c' :: r' /\ isspace c' = false.
Proof.
  intros H l c r Heq. apply (H (x :: l)). now rewrite Heq.
Qed.

Lemma single_spaced_sub s b :
  (forall l c r, s = l ++ c :: r -> isspace c = true ->
     c = 32%N /\ exists c' r', r = c' :: r' /\ isspace c' = false) ->
  (b = true -> forall c r, s = c :: r -> isspace c = false) ->
  sub_spaces isspace b s = s.
Proof.
  revert b. induction s as [|x s IH]; intros b Hruns Hhead; [reflexivity|].
  pose proof (single_spaced_tail x s Hruns) as Htail.
  cbn [sub_spaces]. destruct (isspace x) eqn:E.
  - destruct b; [rewrite (Hhead eq_refl x s eq_refl) in E; discriminate|].
    destruct (Hruns [] x s eq_refl E) as [-> [c' [r' [-> Hc']]]].
    f_equal. apply IH; [exact Htail|]. now intros _ c r [= <- _].
  - f_equal. apply IH; [exact Htail | discriminate].
Qed.

Lemma single_spaced_rstrip s :
  (forall l c r, s = l ++ c :: r -> isspace c = true ->
     c = 32%N /\ exists c' r', r = c' :: r' /\ isspace c' = false) ->
  rstrip isspace s = s.
Proof.
  induction s as [|x s IH]; intros Hruns; [reflexivity|].
  rewrite rstrip_cons, (IH (single_spaced_tail x s Hruns)).
  destruct (isspace x) eqn:E; [|reflexivity].
  destruct (Hruns [] x s eq_refl E) as [_ [c' [r' [-> _]]]]. reflexivity.
Qed.

Lemma single_spaced_no_nbsp s :
  single_spaced isspace s -> replace_nbsp s = s.
Proof.
  intros [_ Hruns]. unfold replace_nbsp.
  rewrite <- (map_id s) at 2. apply map_ext_in. intros c Hin.
  destruct (N.eqb_spec c 160) as [->|]; [|reflexivity].
  apply in_split in Hin. destruct Hin as [l [r Heq]].
  destruct (Hruns l 160%N r Heq nbsp_is_space) as [H _]. discriminate.
Qed.

(** The strings [clean_text] leaves alone. *)
Lemma single_spaced_fixed s :
  single_spaced isspace s -> clean_text isspace s = s.
Proof.
  intros Hs. unfold clean_text, strip.
  rewrite (single_spaced_no_nbsp s Hs). destruct Hs as [Hhead Hruns].
  assert (Hl : lstrip isspace s = s).
  { destruct s as [|c r]; [reflexivity|]. cbn [lstrip].
    now rewrite (Hhead c r eq_refl). }
  rewrite Hl, (single_spaced_rstrip s Hruns).
  apply single_spaced_sub; [exact Hruns | intros _; exact Hhead].
Qed.

Lemma split_from_some w u : w <> [] -> split_from isspace w u <> [].
Proof.
  revert w. induction u as [|c u IH]; intros w Hw; cbn [split_from].
  - destruct w; [congruence | discriminate].
  - destruct (isspace c).
    + destruct w; [congruence | discriminate].
    + apply IH. discriminate.
Qed.

Lemma split_rstrip_empty u :
  is_empty (split_from isspace [] u) = is_empty (rstrip isspace u).
Proof.
  induction u as [|c u IH]; [reflexivity|].
  rewrite rstrip_cons. cbn [split_from is_empty]. destruct (isspace c) eqn:E.
  - rewrite IH. cbn [andb]. now destruct (is_empty (rstrip isspace u)).
  - cbn [andb is_empty].
    destruct (split_from isspace [c] u) eqn:E'; [|reflexivity].
    exfalso. now apply (split_from_some [c] u).
Qed.

(** Replacing the runs of white space of a string without trailing white
    space joins its words by single spaces. *)
Lemma split_join_rstrip u :
  (forall w, w <> [] ->
     rev w ++ sub_spaces isspace false (rstrip isspace u)
     = join_space (split_from isspace w u))
  /\ sub_spaces isspace true (rstrip isspace u)
     = join_space (split_from isspace [] u).
Proof.
  induction u as [|c u [IHa IHb]].
  - split; [|reflexivity]. intros w Hw. cbn. rewrite app_nil_r.
    destruct w; [congruence | reflexivity].
  - rewrite rstrip_cons. cbn [split_from]. destruct (isspace c) eqn:E.
    + cbn [andb]. split.
      * intros w Hw. replace (is_empty w) with false by now destruct w.
        cbn [join_space]. rewrite split_rstrip_empty.
        destruct (is_empty (rstrip isspace u)) eqn:Er.
        -- cbn. now rewrite app_nil_r.
        -- cbn [sub_spaces]. rewrite E. now rewrite IHb.
      * cbn [is_empty].
        destruct (is_empty (rstrip isspace u)) eqn:Er.
        -- rewrite <- IHb. destruct (rstrip isspace u); [reflexivity|].
           discriminate.
        -- cbn [sub_spaces]. rewrite E. exact IHb.
    + cbn [andb sub_spaces]. rewrite E. split.
      * intros w Hw. rewrite <- IHa by discriminate.
        cbn [rev]. now rewrite <- app_assoc.
      * now rewrite <- IHa by discriminate.
Qed.

Lemma split_lstrip t :
  split_from isspace [] (lstrip isspace t) = split_from isspace [] t.
Proof.
  induction t as [|c t IH]; [reflexivity|]. cbn [lstrip split_from].
  destruct (isspace c) eqn:E; [exact IH|]. cbn [split_from]. now rewrite E.
Qed.

Lemma strip_sub_split t :
  sub_spaces isspace false (strip isspace t) = join_space (split isspace t).
Proof.
  unfold strip, split. rewrite <- split_lstrip.
  pose proof (lstrip_head t) as Hh.
  destruct (lstrip isspace t) as [|c u]; [reflexivity|].
  rewrite rstrip_cons, Hh. cbn [andb sub_spaces split_from]. rewrite Hh.
  destruct (split_join_rstrip u) as [Ha _].
  now rewrite <- Ha by discriminate.
Qed.

Lemma split_replace_nbsp w t :
  split_from isspace w (replace_nbsp t) = split_from isspace w t.
Proof.
  revert w. induction t as [|c t IH]; intros w; [reflexivity|].
  cbn [replace_nbsp map split_from]. fold (replace_nbsp t).
  destruct (N.eqb_spec c 160) as [->|Hne].
  - now rewrite space_is_space, nbsp_is_space, !IH.
  - destruct (isspace c); now rewrite !IH.
Qed.

(** [clean_text] and [" ".join(s.split())] are one function. *)
Lemma clean_text_split t :
  clean_text isspace t = join_space (split isspace t).
Proof.
  unfold clean_text. rewrite strip_sub_split. unfold split.
  now rewrite split_replace_nbsp.
Qed.

Lemma split_from_word w year s :
  no_space isspace year ->
  split_from isspace w (year ++ s) = split_from isspace (rev year ++ w) s.
Proof.
  unfold no_space. revert w. induction year as [|y year IH]; intros w Hy;
    [reflexivity|].
  cbn [forallb] in Hy. apply andb_true_iff in Hy. destruct Hy as [Hy Hrest].
  apply negb_true_iff in Hy. cbn [app split_from rev]. rewrite Hy.
  rewrite (IH (y :: w) Hrest), <- app_assoc. reflexivity.
Qed.

Lemma split_from_space sep s :
  all_space isspace sep ->
  split_from isspace [] (sep ++ s) = split_from isspace [] s.
Proof.
  unfold all_space. induction sep as [|c sep IH]; intros Hs; [reflexivity|].
  cbn [forallb] in Hs. apply andb_true_iff in Hs. destruct Hs as [Hc Hrest].
  cbn [app split_from is_empty]. rewrite Hc. now apply IH.
Qed.

Lemma split_title year sep s :
  year <> [] -> no_space isspace year ->
  sep <> [] -> all_space isspace sep ->
  split isspace (year ++ sep ++ s) = year :: split isspace s.
Proof.
  intros Hy Hny Hs Has. unfold split. rewrite (split_from_word [] year _ Hny).
  rewrite app_nil_r. destruct sep as [|c sep]; [congruence|].
  unfold all_space in Has. cbn [forallb] in Has.
  apply andb_true_iff in Has. destruct Has as [Hc Hrest].
  cbn [app split_from]. rewrite Hc.
  replace (is_empty (rev year)) with false.
  - now rewrite rev_involutive, (split_from_space sep s Hrest).
  - destruct year as [|y year]; [congruence|]. cbn [rev].
    now destruct (rev year).
Qed.

Lemma ironman_name_title year sep race_name :
  year <> [] -> no_space isspace year ->
  sep <> [] -> all_space isspace sep ->
  ironman_name isspace (year ++ sep ++ race_name)
  = clean_text isspace race_name.
Proof.
  intros Hy Hny Hsep Has. unfold ironman_name.
  rewrite (split_title year sep race_name Hy Hny Hsep Has).
  cbn [tl]. symmetry. apply clean_text_split.
Qed.

End TextFacts.

Lemma text_eqb_refl s : text_eqb s s = true.
Proof. unfold text_eqb. destruct (list_eq_dec N.eq_dec s s); congruence. Qed.

Lemma slots_get_set_same d k v : Slots.get (Slots.set d k v) k = Some v.
Proof.
  induction d as [|[k' v'] d IH]; cbn [Slots.set Slots.get].
  - now rewrite text_eqb_refl.
  - destruct (text_eqb k k') eqn:E; cbn [Slots.get]; rewrite E;
      [reflexivity | exact IH].
Qed.

(** X12: what [clean_text] returns is single-spaced.  Its first and its
    last character are no white space, and every white-space character in
    it is a space (U+0020) followed by a character that is none; so it has
    no tab, line break or no-break space and no two spaces in a row. *)
Theorem clean_text_normal_form (isspace : N -> bool) (t : text) :
  single_spaced isspace (clean_text isspace t)
  /\ (forall l c, clean_text isspace t = l ++ [c] -> isspace c = false).
Proof.
  split; [apply clean_text_single_spaced|].
  intros l c. apply single_spaced_last, clean_text_single_spaced.
Qed.

(** X13: [clean_text] is idempotent, and the strings it leaves as they are
    include every single-spaced string. *)
Theorem clean_text_idempotent (isspace : N -> bool) :
  isspace 160%N = true ->
  (forall s, single_spaced isspace s -> clean_text isspace s = s)
  /\ (forall t, clean_text isspace (clean_text isspace t)
                = clean_text isspace t).
Proof.
  intros Hn. split.
  - now apply single_spaced_fixed.
  - intros t. apply (single_spaced_fixed isspace Hn).
    apply clean_text_single_spaced.
Qed.

Lemma clean_text_idempotent_witness :
  clean_text unicode_isspace (text_of " IRONMAN  Texas ")
  = text_of "IRONMAN Texas"
  /\ clean_text unicode_isspace
       (clean_text unicode_isspace (text_of " IRONMAN  Texas "))
     = clean_text unicode_isspace (text_of " IRONMAN  Texas ").
Proof.
  split; [reflexivity|].
  apply (clean_text_idempotent unicode_isspace eq_refl).
Defined.

(** X14: the key [get_qualifying_slots] computes is the key [scrape_table]
    stores.  For a title made of a first word, white space and the text of
    the name cell, [" ".join(title.split()[1:])] is the [clean_text] of the
    cell, whatever white space the cell has inside or around it. *)
Theorem title_key_is_clean_text
  (isspace : N -> bool) (year sep race_name : text) :
  isspace 32%N = true -> isspace 160%N = true ->
  year <> [] -> no_space isspace year ->
  sep <> [] -> all_space isspace sep ->
  ironman_name isspace (year ++ sep ++ race_name)
  = clean_text isspace race_name.
Proof.
  intros Hs Hn. now apply ironman_name_title.
Qed.

Lemma title_key_is_clean_text_witness :
  ironman_name unicode_isspace
    (text_of "2025" ++ text_of " " ++ text_of " IRONMAN  Texas ")
  = text_of "IRONMAN Texas".
Proof.
  rewrite (title_key_is_clean_text unicode_isspace (text_of "2025")
             (text_of " ") (text_of " IRONMAN  Texas "));
    [reflexivity | reflexivity | reflexivity | discriminate | reflexivity
    | discriminate | reflexivity].
Defined.

Section ScrapeFacts.

Variable isspace : N -> bool.
Hypothesis space_is_space : isspace 32%N = true.
Hypothesis nbsp_is_space : isspace 160%N = true.

Variable isdigit : text -> bool.
Variable int_of : text -> option Z.

(** X15: a row stored by the scraper is found by the analyzer.  If
    [scrape_row] stores a row of at least five cells, then
    [get_qualifying_slots], for a first result whose title is a first word,
    white space and the text of the name cell, returns the pair made of the
    number read from the fifth cell and the number read from the fourth,
    where a cell that is not all digits counts as 0. *)
Theorem scraped_row_is_found
  (cells : list text) (slots slots' : Slots.table)
  (year sep : text) (rest : list (option text)) :
  (5 <= List.length cells)%nat ->
  scrape_row isspace isdigit int_of cells slots = Some slots' ->
  year <> [] -> no_space isspace year ->
  sep <> [] -> all_space isspace sep ->
  exists men women,
    slot_number isdigit int_of (clean_text isspace (nth 4 cells [])) = Some men
    /\ slot_number isdigit int_of (clean_text isspace (nth 3 cells []))
       = Some women
    /\ (isdigit (clean_text isspace (nth 4 cells [])) = false -> men = 0)
    /\ (isdigit (clean_text isspace (nth 3 cells [])) = false -> women = 0)
    /\ get_qualifying_slots isspace
         (Some (year ++ sep ++ nth 0 cells []) :: rest) slots'
       = Some (men, women).
Proof.
  intros Hlen Hrow Hy Hny Hsep Has. unfold scrape_row in Hrow.
  destruct (Nat.ltb_spec (List.length cells) 5) as [Hlt|_]; [lia|].
  cbn zeta in Hrow.
  destruct (slot_number isdigit int_of (clean_text isspace (nth 4 cells [])))
    as [men|] eqn:Em; [|discriminate].
  destruct (slot_number isdigit int_of (clean_text isspace (nth 3 cells [])))
    as [women|] eqn:Ew; [|discriminate].
  inversion Hrow. subst slots'. clear Hrow.
  exists men, women. repeat split.
  - unfold slot_number in Em. intros Hd. rewrite Hd in Em. congruence.
  - unfold slot_number in Ew. intros Hd. rewrite Hd in Ew. congruence.
  - unfold get_qualifying_slots.
    rewrite (ironman_name_title isspace space_is_space nbsp_is_space
               year sep (nth 0 cells []) Hy Hny Hsep Has).
    now rewrite slots_get_set_same.
Qed.

End ScrapeFacts.

Lemma scraped_row_is_found_witness :
  exists slots',
    scrape_row unicode_isspace ascii_isdigit ascii_int texas_cells []
    = Some slots'
    /\ get_qualifying_slots unicode_isspace
         [Some (text_of "2025" ++ text_of " " ++ text_of " IRONMAN  Texas ")]
         slots'
       = Some (40, 25).
Proof.
  exists [(text_of "IRONMAN Texas",
           Slots.mk (text_of "April 26") (text_of "The Woodlands") 40 25)].
  split; [reflexivity|].
  destruct (scraped_row_is_found unicode_isspace eq_refl eq_refl
              ascii_isdigit ascii_int texas_cells []
              [(text_of "IRONMAN Texas",
                Slots.mk (text_of "April 26") (text_of "The Woodlands") 40 25)]
              (text_of "2025") (text_of " ") [])
    as [men [women [Hm [Hw [_ [_ Hget]]]]]];
    [simpl; lia | reflexivity | discriminate | reflexivity | discriminate
    | reflexivity |].
  vm_compute in Hm, Hw. inversion Hm. inversion Hw. subst. exact Hget.
Defined.

(** X16: without an entry for the event there is no highlighting.  When
    [get_qualifying_slots] raises, because the file has no result row or
    the table has no entry under the name of the event, [on_mount] sets
    both quotas to 0, and the highlight key then leaves the screen as it
    is: no row of the table is marked. *)
Theorem missing_event_disables_highlight
  (isspace : N -> bool) (data_frame : DataFrame)
  (results : list (option text)) (slots : Slots.table)
  (valid : list string) (st' : Screen.t) :
  get_qualifying_slots isspace results slots = None ->
  Screen.action_highlight_qualifiers valid
    (on_mount isspace data_frame results slots) st' ->
  st' = Screen.mk (Some data_frame) (Some data_frame) [] 0 0
  /\ forall row flag, In (row, flag) (Screen.populate_table st') ->
       flag = false.
Proof.
  intros Hnone Hact. unfold on_mount in Hact. rewrite Hnone in Hact.
  inversion Hact as [sort_rank slot_df _ _ _ Heq]. clear Hact.
  unfold Screen.press. cbn.
  split; [reflexivity|].
  intros row flag Hin. apply in_map_iff in Hin.
  destruct Hin as [r [Hr _]]. now inversion Hr.
Qed.

Lemma missing_event_press :
  Screen.action_highlight_qualifiers scenario_valid
    (on_mount unicode_isspace scenario_roster
       [Some (text_of "2025 IRONMAN Texas")] [])
    (Screen.press stable_sort_rank scenario_valid
       (slot_frame scenario_roster scenario_valid)
       (on_mount unicode_isspace scenario_roster
          [Some (text_of "2025 IRONMAN Texas")] [])).
Proof.
  constructor.
  - apply stable_sort_rank_perm.
  - apply stable_sort_rank_sorted.
  - intros data_frame [= <-]. apply Permutation_refl.
Defined.

Lemma missing_event_disables_highlight_witness :
  Screen.press stable_sort_rank scenario_valid
    (slot_frame scenario_roster scenario_valid)
    (on_mount unicode_isspace scenario_roster
       [Some (text_of "2025 IRONMAN Texas")] [])
  = Screen.mk (Some scenario_roster) (Some scenario_roster) [] 0 0.
Proof.
  destruct (missing_event_disables_highlight unicode_isspace scenario_roster
              [Some (text_of "2025 IRONMAN Texas")] [] scenario_valid _
              eq_refl missing_event_press) as [H _].
  exact H.
Defined.

(** * Properties of the scraper *)

(** ** Strings *)

Lemma append_empty_r (s : string) : (s ++ "")%string = s.
Proof. induction s as [|c s IH]; [reflexivity|]. simpl. now rewrite IH. Qed.

Lemma append_append (a b c : string) :
  ((a ++ b) ++ c)%string = (a ++ (b ++ c))%string.
Proof. induction a as [|x a IH]; [reflexivity|]. simpl. now rewrite IH. Qed.

Lemma append_same_head (a b c : string) :
  (a ++ b)%string = (a ++ c)%string -> b = c.
Proof.
  induction a as [|x a IH]; [trivial|]. simpl. intros [= H]. now apply IH.
Qed.

Lemma length_append (a b : string) :
  String.length (a ++ b) = (String.length a + String.length b)%nat.
Proof. induction a as [|x a IH]; [reflexivity|]. simpl. now rewrite IH. Qed.

Lemma append_same_length (a b c d : string) :
  (a ++ b)%string = (c ++ d)%string -> String.length b = String.length d ->
  a = c /\ b = d.
Proof.
  revert c. induction a as [|x a IH]; intros [|y c] Heq Hlen; simpl in Heq.
  - now split.
  - exfalso. rewrite Heq in Hlen. simpl in Hlen.
    rewrite length_append in Hlen. lia.
  - exfalso. rewrite <- Heq in Hlen. simpl in Hlen.
    rewrite length_append in Hlen. lia.
  - inversion Heq as [[Hx Hrest]]. destruct (IH c Hrest Hlen) as [-> ->].
    now split.
Qed.

Lemma format_int_inj (p q : Z) : format_int p = format_int q -> p = q.
Proof.
  unfold format_int. intros H.
  assert (Hd : Z.to_int p = Z.to_int q).
  { pose proof (NilEmpty.isi (Z.to_int p)) as Hp.
    pose proof (NilEmpty.isi (Z.to_int q)) as Hq.
    rewrite H in Hp. congruence. }
  rewrite <- (DecimalZ.of_to p), <- (DecimalZ.of_to q). now rewrite Hd.
Qed.

(** ** The address of a page *)

Lemma join_last sep parts last :
  join sep (parts ++ [last])
  = if is_empty parts then last else (join sep parts ++ sep ++ last)%string.
Proof.
  induction parts as [|p parts IH]; [reflexivity|].
  cbn [app join is_empty]. rewrite IH.
  destruct parts as [|p' parts]; cbn [app is_empty]; [reflexivity|].
  now rewrite !append_append.
Qed.

(** The parameters of the two filters, which do not depend on the page. *)
Lemma filter_params_page race_types regions page :
  filter_params race_types regions page
  = filter_params race_types regions 0
    ++ (if page >? 0 then [("page=" ++ format_int page)%string] else []).
Proof.
  unfold filter_params. cbn [Z.gtb Z.compare].
  destruct (page >? 0); [reflexivity | now rewrite app_nil_r].
Qed.

Lemma url_with_page race_types regions page :
  0 < page ->
  build_filter_url race_types regions page
  = (RACES_URL ++ "?"
     ++ (let params := filter_params race_types regions 0 in
         if is_empty params then ("page=" ++ format_int page)%string
         else (join "&" params ++ "&" ++ "page=" ++ format_int page)))%string.
Proof.
  intros Hp. unfold build_filter_url. rewrite filter_params_page.
  destruct (Z.gtb_spec page 0); [|lia]. cbn zeta.
  rewrite join_last.
  destruct (filter_params race_types regions 0); reflexivity.
Qed.

Lemma url_without_page race_types regions page :
  page <= 0 ->
  build_filter_url race_types regions page
  = (let params := filter_params race_types regions 0 in
     if is_empty params then RACES_URL
     else (RACES_URL ++ "?" ++ join "&" params)%string).
Proof.
  intros Hp. unfold build_filter_url. rewrite filter_params_page.
  destruct (Z.gtb_spec page 0); [lia|]. rewrite app_nil_r. cbn zeta.
  destruct (filter_params race_types regions 0); reflexivity.
Qed.

Lemma url_page_differs race_types regions p q :
  p <= 0 -> 0 < q ->
  build_filter_url race_types regions p <> build_filter_url race_types regions q.
Proof.
  intros Hp Hq. rewrite (url_without_page _ _ p Hp), (url_with_page _ _ q Hq).
  cbn zeta. destruct (filter_params race_types regions 0) as [|x l];
    cbn [is_empty]; intros H.
  - rewrite <- (append_empty_r RACES_URL) in H at 1.
    apply append_same_head in H. discriminate.
  - apply append_same_head, append_same_head in H.
    rewrite <- (append_empty_r (join "&" (x :: l))) in H at 1.
    apply append_same_head in H. discriminate.
Qed.

Lemma url_page_inj race_types regions p q :
  0 <= p -> 0 <= q ->
  build_filter_url race_types regions p = build_filter_url race_types regions q ->
  p = q.
Proof.
  intros Hp Hq H.
  destruct (Z.eq_dec p 0) as [->|Hp0], (Z.eq_dec q 0) as [->|Hq0];
    [reflexivity | | |].
  - exfalso. revert H. apply url_page_differs; lia.
  - exfalso. symmetry in H. revert H. apply url_page_differs; lia.
  - rewrite (url_with_page _ _ p), (url_with_page _ _ q) in H by lia.
    cbn zeta in H. apply append_same_head, append_same_head in H.
    destruct (filter_params race_types regions 0); cbn [is_empty] in H.
    + apply append_same_head in H. now apply format_int_inj.
    + apply append_same_head, append_same_head, append_same_head in H.
      now apply format_int_inj.
Qed.

(** ** The numbering of the facets *)

Lemma nth_error_enumerate {A : Type} (items : list A) (start k : nat) :
  nth_error (combine (seq start (List.length items)) items) k
  = option_map (fun x => ((start + k)%nat, x)) (nth_error items k).
Proof.
  revert start k. induction items as [|x items IH]; intros start k.
  - now destruct k.
  - destruct k as [|k]; cbn [List.length seq combine nth_error option_map].
    + now rewrite Nat.add_0_r.
    + rewrite IH. now rewrite Nat.add_succ_r.
Qed.

(** X17: the facets are numbered by position.  The parameter list holds one
    parameter per race type, then one per region, then the page if it is
    positive, and the parameter at position [k] is [facet[k]]: the numbers
    run on from the race types to the regions without gap or repetition. *)
Theorem facets_numbered_by_position
  (race_types regions : list string) (page : Z) :
  List.length (filter_params race_types regions page)
  = (List.length race_types + List.length regions
     + (if page >? 0 then 1 else 0))%nat
  /\ (forall k race_type, nth_error race_types k = Some race_type ->
        nth_error (filter_params race_types regions page) k
        = Some ("facet[" ++ format_int (Z.of_nat k) ++ "]=race:"
                ++ race_type)%string)
  /\ (forall k region, nth_error regions k = Some region ->
        nth_error (filter_params race_types regions page)
                  (List.length race_types + k)
        = Some ("facet[" ++ format_int (Z.of_nat (List.length race_types + k))
                ++ "]=region:" ++ region)%string).
Proof.
  rewrite filter_params_page. unfold filter_params. cbn [Z.gtb Z.compare].
  unfold enumerate.
  set (races := map _ (combine (seq 0 (List.length race_types)) race_types)).
  set (regs := map _ (combine (seq 0 (List.length regions)) regions)).
  assert (Hraces : List.length races = List.length race_types).
  { unfold races. now rewrite length_map, length_combine, length_seq, Nat.min_id. }
  assert (Hregs : List.length regs = List.length regions).
  { unfold regs. now rewrite length_map, length_combine, length_seq, Nat.min_id. }
  split; [|split].
  - rewrite !length_app, Hraces, Hregs. destruct (page >? 0); reflexivity.
  - intros k race_type Hk.
    assert (Hlt : (k < List.length races)%nat).
    { rewrite Hraces. apply nth_error_Some. congruence. }
    rewrite <- app_assoc, nth_error_app1 by exact Hlt.
    unfold races. rewrite nth_error_map, nth_error_enumerate, Hk. reflexivity.
  - intros k region Hk.
    rewrite <- app_assoc, nth_error_app2 by lia.
    rewrite Hraces. replace (List.length race_types + k - List.length race_types)%nat
      with k by lia.
    assert (Hlt : (k < List.length regs)%nat).
    { rewrite Hregs. apply nth_error_Some. congruence. }
    rewrite nth_error_app1 by exact Hlt.
    unfold regs. rewrite nth_error_map, nth_error_enumerate, Hk.
    cbn [option_map Nat.add]. rewrite Hraces.
    now rewrite (Nat.add_comm k).
Qed.

(** X18: two pages never share an address.  For page numbers from 0 on,
    equal addresses mean equal pages, whatever the filters are; page 0 is
    the address without [page] parameter. *)
Theorem pages_have_distinct_urls
  (race_types regions : list string) (p q : Z) :
  0 <= p -> 0 <= q ->
  build_filter_url race_types regions p = build_filter_url race_types regions q ->
  p = q.
Proof. apply url_page_inj. Qed.

Lemma pages_have_distinct_urls_witness :
  build_filter_url ["IRONMAN 70.3"%string] ["Europe"%string] 1
  <> build_filter_url ["IRONMAN 70.3"%string] ["Europe"%string] 2.
Proof.
  intros H.
  apply (pages_have_distinct_urls ["IRONMAN 70.3"%string] ["Europe"%string]
           1 2) in H; [discriminate | lia | lia].
Defined.

(** ** The pages of the race list *)

Lemma pages_from_cons first count :
  pages_from first (S count) = first :: pages_from (first + 1) count.
Proof.
  unfold pages_from. cbn [seq map]. rewrite Z.add_0_r. f_equal.
  rewrite <- seq_shift, map_map. apply map_ext. intros i. lia.
Qed.

Lemma pages_from_In first count p :
  In p (pages_from first count) <-> first <= p < first + Z.of_nat count.
Proof.
  unfold pages_from. rewrite in_map_iff. split.
  - intros [i [<- Hi]]. apply in_seq in Hi. lia.
  - intros Hp. exists (Z.to_nat (p - first)). split; [lia|].
    apply in_seq. lia.
Qed.

Lemma pages_from_NoDup first count : NoDup (pages_from first count).
Proof.
  revert first. induction count as [|count IH]; intros first; [constructor|].
  rewrite pages_from_cons. constructor; [|apply IH].
  rewrite pages_from_In. lia.
Qed.

Section GetRaceLinksFacts.

Variable fetch : string -> response.
Variable urljoin : string -> string -> string.
Variables race_types regions : list string.

Let url := build_filter_url race_types regions.
Let links_of := links_on_page fetch urljoin race_types regions.
Let loop := fun fuel => get_race_links_from fetch urljoin fuel race_types regions.

(** Whatever the loop returns: it has requested consecutive pages and
    holds the links of those pages, in order. *)
Lemma get_race_links_from_pages fuel max_pages page race_links requested
  race_links' requested' :
  loop fuel max_pages page race_links requested
  = Some (race_links', requested') ->
  exists count,
    requested' = requested ++ map url (pages_from page count)
    /\ race_links' = race_links ++ flat_map links_of (pages_from page count).
Proof.
  unfold loop, links_of, url.
  revert page race_links requested.
  induction fuel as [|fuel IH]; intros page race_links requested;
    [discriminate|].
  cbn [get_race_links_from].
  destruct (past_limit max_pages page).
  { intros [= <- <-]. exists 0%nat. cbn. now rewrite !app_nil_r. }
  cbn zeta.
  assert (Hone : forall found,
    links_on_page fetch urljoin race_types regions page = found ->
    exists count,
      requested ++ [build_filter_url race_types regions page]
      = requested
        ++ map (build_filter_url race_types regions) (pages_from page count)
      /\ race_links ++ found
         = race_links
           ++ flat_map (links_on_page fetch urljoin race_types regions)
                (pages_from page count)).
  { intros found <-. exists 1%nat. rewrite pages_from_cons.
    cbn. now rewrite app_nil_r. }
  unfold links_on_page in Hone at 1. cbn zeta in Hone.
  destruct (Z.eqb_spec
              (status_code (fetch (build_filter_url race_types regions page)))
              200) as [Hok|Hbad]; cbn [negb].
  2:{ intros [= <- <-]. specialize (Hone [] eq_refl).
      now rewrite app_nil_r in Hone. }
  destruct (race_cards (fetch (build_filter_url race_types regions page)))
    as [|card cards] eqn:Ecards; cbn [is_empty].
  { intros [= <- <-]. specialize (Hone [] eq_refl).
    now rewrite app_nil_r in Hone. }
  destruct (page_links urljoin (card :: cards)) as [|link links] eqn:Efound;
    cbn [is_empty].
  { intros [= <- <-]. now apply Hone. }
  intros Hrec. apply IH in Hrec. destruct Hrec as [count [Hreq Hlinks]].
  exists (S count). rewrite pages_from_cons. cbn [map flat_map].
  unfold links_on_page at 1. cbn zeta. rewrite Hok, Ecards, Efound.
  cbn [Z.eqb Pos.eqb]. rewrite Hreq, Hlinks, <- !app_assoc. now split.
Qed.

(** With a positive limit the loop ends within [limit + 1] requests. *)
Lemma get_race_links_from_bound limit count fuel page race_links requested :
  0 < limit -> 0 <= page -> page + Z.of_nat count = limit + 1 ->
  (count < fuel)%nat ->
  exists race_links' extra,
    loop fuel (Some limit) page race_links requested
    = Some (race_links', requested ++ extra)
    /\ (List.length extra <= count)%nat.
Proof.
  unfold loop. intros Hlimit.
  revert fuel page race_links requested.
  induction count as [|count IH]; intros fuel page race_links requested
    Hpage Hsum Hfuel; (destruct fuel as [|fuel]; [lia|]);
    cbn [get_race_links_from past_limit].
  - destruct (Z.eqb_spec limit 0); [lia|].
    destruct (Z.gtb_spec page limit); [|lia]. cbn [negb andb].
    exists race_links, []. now rewrite app_nil_r.
  - destruct (Z.eqb_spec limit 0); [lia|].
    destruct (Z.gtb_spec page limit); [lia|]. cbn [negb andb]. cbn zeta.
    set (u := build_filter_url race_types regions page).
    destruct (negb (status_code (fetch u) =? 200));
      [exists race_links, [u]; split; [reflexivity | simpl; lia]|].
    destruct (is_empty (race_cards (fetch u)));
      [exists race_links, [u]; split; [reflexivity | simpl; lia]|].
    destruct (is_empty (page_links urljoin (race_cards (fetch u))));
      [eexists _, [u]; split; [reflexivity | simpl; lia]|].
    destruct (IH fuel (page + 1)
                (race_links ++ page_links urljoin (race_cards (fetch u)))
                (requested ++ [u])) as [links' [extra [Hr Hlen]]];
      [lia | lia | lia |].
    exists links', (u :: extra). rewrite Hr, <- app_assoc. split;
      [reflexivity | simpl; lia].
Qed.

Lemma loop_limit fuel max_pages page race_links requested :
  past_limit max_pages page = true ->
  loop (S fuel) max_pages page race_links requested
  = Some (race_links, requested).
Proof. unfold loop. cbn [get_race_links_from]. now intros ->. Qed.

Lemma page_links_cards cards :
  page_links urljoin cards <> [] -> is_empty cards = false.
Proof. destruct cards; [now intros H | reflexivity]. Qed.

Lemma loop_live fuel max_pages page race_links requested :
  past_limit max_pages page = false ->
  is_live fetch urljoin race_types regions page = true ->
  loop (S fuel) max_pages page race_links requested
  = loop fuel max_pages (page + 1) (race_links ++ links_of page)
      (requested ++ [url page]).
Proof.
  unfold loop, links_of, url, is_live, links_on_page.
  cbn [get_race_links_from]. intros -> Hlive. cbn zeta in *.
  apply andb_true_iff in Hlive. destruct Hlive as [Hok Hfound].
  rewrite Hok. cbn [negb]. apply negb_true_iff in Hfound. rewrite Hfound.
  rewrite page_links_cards; [reflexivity|].
  intros H. rewrite H in Hfound. discriminate.
Qed.

Lemma loop_dead fuel max_pages page race_links requested :
  past_limit max_pages page = false ->
  is_live fetch urljoin race_types regions page = false ->
  loop (S fuel) max_pages page race_links requested
  = Some (race_links, requested ++ [url page])
  /\ links_of page = [].
Proof.
  unfold loop, links_of, url, is_live, links_on_page.
  cbn [get_race_links_from]. intros -> Hdead. cbn zeta in *.
  destruct (status_code _ =? 200); cbn [negb andb] in *; [|now split].
  apply negb_false_iff in Hdead.
  destruct (page_links urljoin _) as [|link links] eqn:Efound;
    [|discriminate].
  rewrite app_nil_r. split; [|reflexivity].
  now destruct (is_empty (race_cards _)).
Qed.

Lemma loop_run count fuel max_pages page race_links requested :
  (forall q, page <= q < page + Z.of_nat count ->
     past_limit max_pages q = false
     /\ is_live fetch urljoin race_types regions q = true) ->
  loop (count + fuel) max_pages page race_links requested
  = loop fuel max_pages (page + Z.of_nat count)
      (race_links ++ flat_map links_of (pages_from page count))
      (requested ++ map url (pages_from page count)).
Proof.
  revert page race_links requested.
  induction count as [|count IH]; intros page race_links requested Hlive.
  - cbn. now rewrite Z.add_0_r, !app_nil_r.
  - destruct (Hlive page ltac:(lia)) as [Hlim Hpage].
    cbn [Nat.add]. rewrite (loop_live _ _ _ _ _ Hlim Hpage), IH.
    + rewrite pages_from_cons. cbn [map flat_map].
      rewrite <- !app_assoc. cbn [app]. f_equal. lia.
    + intros q Hq. apply Hlive. lia.
Qed.

Lemma requested_NoDup count :
  NoDup (map url (pages_from 0 count)).
Proof.
  unfold url.
  assert (H : forall pages, NoDup pages -> (forall p, In p pages -> 0 <= p) ->
            NoDup (map (build_filter_url race_types regions) pages)).
  { induction pages as [|p pages IH]; intros Hnd Hpos; [constructor|].
    inversion Hnd as [|? ? Hp Hrest]; subst. cbn [map]. constructor.
    - rewrite in_map_iff. intros [q [Heq Hq]]. apply Hp.
      replace p with q; [exact Hq|].
      apply (url_page_inj race_types regions); trivial;
        apply Hpos; [now right | now left].
    - apply IH; [exact Hrest|]. intros q Hq. apply Hpos. now right. }
  apply H; [apply pages_from_NoDup|].
  intros p Hp. apply pages_from_In in Hp. lia.
Qed.

End GetRaceLinksFacts.

(** X19: [get_race_links] reads the race list up to its first dead page.
    When no page limit is reached before it, the pages before page [stop]
    are live and page [stop] is not, the function returns as soon as the
    model has fuel for [stop + 1] rounds; it has then requested the pages
    0 to [stop], each once and under a different address, and returns the
    links of the live pages in page order. *)
Theorem scrapes_until_first_dead_page
  (fetch : string -> response) (urljoin : string -> string -> string)
  (race_types regions : list string) (max_pages : option Z)
  (stop fuel : nat) :
  (forall q, 0 <= q <= Z.of_nat stop -> past_limit max_pages q = false) ->
  (forall q, 0 <= q < Z.of_nat stop ->
     is_live fetch urljoin race_types regions q = true) ->
  is_live fetch urljoin race_types regions (Z.of_nat stop) = false ->
  (stop < fuel)%nat ->
  get_race_links fetch urljoin fuel race_types regions max_pages
  = Some (flat_map (links_on_page fetch urljoin race_types regions)
            (pages_from 0 stop),
          map (build_filter_url race_types regions) (pages_from 0 (S stop)))
  /\ NoDup (map (build_filter_url race_types regions) (pages_from 0 (S stop))).
Proof.
  intros Hlim Hlive Hdead Hfuel. split; [|apply requested_NoDup].
  unfold get_race_links.
  replace fuel with (stop + S (fuel - S stop))%nat by lia.
  rewrite (loop_run fetch urljoin race_types regions stop).
  2:{ intros q Hq. split; [apply Hlim | apply Hlive]; lia. }
  cbn [app Z.add].
  destruct (loop_dead fetch urljoin race_types regions (fuel - S stop)
              max_pages (Z.of_nat stop)
              (flat_map (links_on_page fetch urljoin race_types regions)
                 (pages_from 0 stop))
              (map (build_filter_url race_types regions) (pages_from 0 stop)))
    as [Hret _]; [apply Hlim; lia | exact Hdead |].
  rewrite Hret. f_equal. f_equal.
  unfold pages_from. rewrite seq_S, !map_app. reflexivity.
Qed.

Lemma scrapes_until_first_dead_page_witness :
  get_race_links four_pages plain_urljoin 5 [] [] None
  = Some (["https://www.ironman.com/im-texas"; "https://www.ironman.com/im-texas";
           "https://www.ironman.com/im-texas"; "https://www.ironman.com/im-texas"],
          ["https://www.ironman.com/races";
           "https://www.ironman.com/races?page=1";
           "https://www.ironman.com/races?page=2";
           "https://www.ironman.com/races?page=3";
           "https://www.ironman.com/races?page=4"])%string.
Proof.
  destruct (scrapes_until_first_dead_page four_pages plain_urljoin [] [] None
              4 5) as [H _]; [reflexivity | | reflexivity | lia | exact H].
  intros q Hq.
  assert (Hcases : q = 0 \/ q = 1 \/ q = 2 \/ q = 3) by lia.
  destruct Hcases as [->|[->|[->| ->]]]; reflexivity.
Defined.

Lemma past_limit_within limit q :
  q <= limit -> past_limit (Some limit) q = false.
Proof.
  intros Hq. unfold past_limit. destruct (Z.gtb_spec q limit); [lia|].
  apply andb_false_r.
Qed.

(** X20: a positive [max_pages] stops the loop one page late.  With
    [max_pages = limit > 0] the function returns once the model has fuel
    for [limit + 2] rounds, after at most [limit + 1] requests, which are
    the pages from 0 on in order, and with the links of those pages; when
    the pages 0 to [limit] are all live it requests all [limit + 1] of
    them. *)
Theorem max_pages_requests_one_page_more
  (fetch : string -> response) (urljoin : string -> string -> string)
  (race_types regions : list string) (limit : Z) (fuel : nat) :
  0 < limit -> (Z.to_nat limit + 1 < fuel)%nat ->
  (exists race_links requested,
     get_race_links fetch urljoin fuel race_types regions (Some limit)
     = Some (race_links, requested)
     /\ (List.length requested <= Z.to_nat limit + 1)%nat
     /\ requested
        = map (build_filter_url race_types regions)
              (pages_from 0 (List.length requested))
     /\ race_links
        = flat_map (links_on_page fetch urljoin race_types regions)
            (pages_from 0 (List.length requested)))
  /\ ((forall q, 0 <= q <= limit ->
         is_live fetch urljoin race_types regions q = true) ->
      get_race_links fetch urljoin fuel race_types regions (Some limit)
      = Some (flat_map (links_on_page fetch urljoin race_types regions)
                (pages_from 0 (S (Z.to_nat limit))),
              map (build_filter_url race_types regions)
                (pages_from 0 (S (Z.to_nat limit))))).
Proof.
  intros Hlimit Hfuel. unfold get_race_links. split.
  - destruct (get_race_links_from_bound fetch urljoin race_types regions
                limit (Z.to_nat limit + 1) fuel 0 [] [] Hlimit)
      as [race_links [extra [Hret Hlen]]]; [lia | lia | exact Hfuel |].
    destruct (get_race_links_from_pages fetch urljoin race_types regions
                _ _ _ _ _ _ _ Hret) as [count [Hreq Hlinks]].
    cbn [app] in *. exists race_links, extra. split; [exact Hret|].
    split; [exact Hlen|].
    assert (Hcount : List.length extra = count).
    { rewrite Hreq. unfold pages_from. now rewrite !length_map, length_seq. }
    rewrite Hcount. now split.
  - intros Hlive.
    replace fuel with (S (Z.to_nat limit) + S (fuel - Z.to_nat limit - 2))%nat
      by lia.
    rewrite (loop_run fetch urljoin race_types regions (S (Z.to_nat limit))).
    2:{ intros q Hq. split; [apply past_limit_within | apply Hlive]; lia. }
    cbn [app]. apply loop_limit. unfold past_limit.
    destruct (Z.eqb_spec limit 0); [lia|].
    destruct (Z.gtb_spec (0 + Z.of_nat (S (Z.to_nat limit))) limit);
      [reflexivity | lia].
Qed.

Lemma max_pages_requests_one_page_more_witness :
  get_race_links four_pages plain_urljoin 4 [] [] (Some 2)
  = Some (["https://www.ironman.com/im-texas"; "https://www.ironman.com/im-texas";
           "https://www.ironman.com/im-texas"],
          ["https://www.ironman.com/races";
           "https://www.ironman.com/races?page=1";
           "https://www.ironman.com/races?page=2"])%string.
Proof.
  destruct (max_pages_requests_one_page_more four_pages plain_urljoin [] []
              2 4) as [_ H]; [lia | simpl; lia |].
  apply H. intros q Hq.
  assert (Hcases : q = 0 \/ q = 1 \/ q = 2) by lia.
  destruct Hcases as [->|[->| ->]]; reflexivity.
Defined.

Lemma get_race_links_from_limit
  (fetch : string -> response) (urljoin : string -> string -> string)
  (race_types regions : list string) (limit1 limit2 : option Z) (fuel : nat)
  (page : Z) (race_links requested : list string) :
  (forall q, past_limit limit1 q = past_limit limit2 q) ->
  get_race_links_from fetch urljoin fuel race_types regions limit1 page
    race_links requested
  = get_race_links_from fetch urljoin fuel race_types regions limit2 page
      race_links requested.
Proof.
  intros Hsame. revert page race_links requested.
  induction fuel as [|fuel IH]; intros page race_links requested;
    [reflexivity|].
  cbn [get_race_links_from]. rewrite Hsame, IH. reflexivity.
Qed.

(** X21: the limits that are no limits.  [max_pages = 0] is read as no
    limit at all, and a negative [max_pages] ends the loop before the first
    request, with no link returned. *)
Theorem max_pages_zero_or_negative
  (fetch : string -> response) (urljoin : string -> string -> string)
  (race_types regions : list string) :
  (forall fuel,
     get_race_links fetch urljoin fuel race_types regions (Some 0)
     = get_race_links fetch urljoin fuel race_types regions None)
  /\ (forall limit fuel, limit < 0 ->
        get_race_links fetch urljoin (S fuel) race_types regions (Some limit)
        = Some ([], [])).
Proof.
  split.
  - intros fuel. apply get_race_links_from_limit. reflexivity.
  - intros limit fuel Hneg. unfold get_race_links.
    cbn [get_race_links_from past_limit].
    destruct (Z.eqb_spec limit 0); [lia|].
    destruct (Z.gtb_spec 0 limit); [reflexivity | lia].
Qed.

Lemma max_pages_zero_or_negative_witness :
  get_race_links four_pages plain_urljoin 9 [] [] (Some (-1)) = Some ([], [])
  /\ get_race_links four_pages plain_urljoin 9 [] [] (Some 0)
     = get_race_links four_pages plain_urljoin 9 [] [] None.
Proof.
  destruct (max_pages_zero_or_negative four_pages plain_urljoin [] [])
    as [Hzero Hneg].
  split; [apply Hneg; lia | apply Hzero].
Defined.

(** ** The file of a result *)

Lemma prefix_slash (s : string) :
  prefix "/" s = true <-> exists rest, s = String "/" rest.
Proof.
  destruct s as [|a s]; cbn [prefix].
  - split; [discriminate | intros [rest H]; discriminate].
  - destruct (ascii_dec "/" a) as [<-|Hne].
    + split; [intros _; now exists s | intros _; now destruct s].
    + split; [discriminate | intros [rest H]; congruence].
Qed.

Lemma join_results_inj (x y : string) :
  join_results x = join_results y -> x = y.
Proof.
  unfold join_results.
  destruct (prefix "/" x) eqn:Ex, (prefix "/" y) eqn:Ey; intros H.
  - exact H.
  - apply prefix_slash in Ex. destruct Ex as [rest ->]. discriminate H.
  - apply prefix_slash in Ey. destruct Ey as [rest ->]. discriminate H.
  - now apply (append_same_head "results/") in H.
Qed.

Lemma sanitized_clean (s : string) (c : ascii) :
  In c (list_ascii_of_string (keep_ascii (replace_spaces s))) ->
  c <> " "%char /\ isascii c = true.
Proof.
  induction s as [|x s IH]; [intros []|]. cbn [replace_spaces keep_ascii].
  destruct (isascii (if Ascii.eqb x " " then "_"%char else x)) eqn:E;
    [|exact IH].
  cbn [list_ascii_of_string]. intros [<-|Hin]; [|now apply IH].
  split; [|exact E].
  destruct (Ascii.eqb_spec x " "); [discriminate | assumption].
Qed.

(** X22: results of different events go to different files.  For event
    ids of one length, as the ids of the API are, two calls write to the
    same file only if their ids are equal, whatever the event names are and
    whether they are given or not. *)
Theorem results_filename_no_overwrite
  (id1 id2 : string) (name1 name2 : option string) :
  String.length id1 = String.length id2 ->
  results_filename id1 name1 = results_filename id2 name2 ->
  id1 = id2.
Proof.
  intros Hlen Heq.
  assert (Htail : forall a b : string,
            (a ++ id1 ++ ".json")%string = (b ++ id2 ++ ".json")%string ->
            id1 = id2).
  { intros a b H. apply append_same_length in H.
    - destruct H as [_ H].
      rewrite <- (append_empty_r (id1 ++ ".json")),
              <- (append_empty_r (id2 ++ ".json")) in H.
      rewrite !append_append in H.
      apply (append_same_length id1 _ id2) in H; [tauto | reflexivity].
    - rewrite !length_append. now rewrite Hlen. }
  assert (Hhead : forall event_id name, exists head,
            results_filename event_id name
            = join_results (head ++ event_id ++ ".json")).
  { intros event_id [[|c n]|]; cbn [results_filename].
    - now exists ""%string.
    - exists (keep_ascii (replace_spaces (String c n)) ++ "_")%string.
      now rewrite append_append.
    - now exists ""%string. }
  destruct (Hhead id1 name1) as [a Ha]. destruct (Hhead id2 name2) as [b Hb].
  rewrite Ha, Hb in Heq. apply join_results_inj in Heq.
  now apply (Htail a b).
Qed.

Lemma results_filename_no_overwrite_witness :
  results_filename "a1" (Some "IRONMAN Texas"%string)
  <> results_filename "b2" (Some "IRONMAN Texas"%string).
Proof.
  intros H.
  apply (results_filename_no_overwrite "a1" "b2") in H;
    [discriminate | reflexivity].
Defined.

(** X23: what the event name adds to the file name.  For a name that is
    given and not empty, the part of the file name before [_<id>.json] has
    no space and no byte outside ASCII; the file lies in [results/] unless
    that part begins with a slash, in which case the file name is an
    absolute path outside [results/]. *)
Theorem results_filename_of_name (event_id event_name : string) :
  event_name <> ""%string ->
  exists sanitized_name,
    sanitized_name = keep_ascii (replace_spaces event_name)
    /\ (forall c, In c (list_ascii_of_string sanitized_name) ->
          c <> " "%char /\ isascii c = true)
    /\ (prefix "/" sanitized_name = false ->
        results_filename event_id (Some event_name)
        = ("results/" ++ sanitized_name ++ "_" ++ event_id ++ ".json")%string)
    /\ (prefix "/" sanitized_name = true ->
        results_filename event_id (Some event_name)
        = (sanitized_name ++ "_" ++ event_id ++ ".json")%string
        /\ prefix "/" (results_filename event_id (Some event_name)) = true).
Proof.
  intros Hname. exists (keep_ascii (replace_spaces event_name)).
  split; [reflexivity|]. split; [apply sanitized_clean|].
  destruct event_name as [|c rest]; [congruence|].
  unfold results_filename. cbn zeta. unfold join_results.
  set (sanitized_name := keep_ascii (replace_spaces (String c rest))).
  split; intros Hhead.
  - replace (prefix "/" (sanitized_name ++ "_" ++ event_id ++ ".json"))
      with false; [reflexivity|].
    symmetry. apply not_true_is_false. intros H.
    apply prefix_slash in H. destruct H as [r Hr].
    assert (prefix "/" sanitized_name = true); [|congruence].
    apply prefix_slash. destruct sanitized_name as [|a s]; [discriminate|].
    inversion Hr. now exists s.
  - assert (H : prefix "/" (sanitized_name ++ "_" ++ event_id ++ ".json")
                = true).
    { apply prefix_slash in Hhead. destruct Hhead as [s ->].
      apply prefix_slash. now eexists. }
    rewrite H. now split.
Qed.

Lemma results_filename_of_name_witness :
  results_filename "a1" (Some "/tmp/IRONMAN Texas"%string)
  = "/tmp/IRONMAN_Texas_a1.json"%string.
Proof.
  destruct (results_filename_of_name "a1" "/tmp/IRONMAN Texas")
    as [sanitized_name [-> [_ [_ Habs]]]]; [discriminate|].
  destruct Habs as [H _]; [reflexivity | exact H].
Defined.

(** ** The year filter *)

Section FetchSubeventsFacts.

Variable year_of : string -> option Z.

Lemma filter_years_some years subevents :
  (forall s, In s subevents -> year_of (event_date s) <> None) ->
  filter_years year_of years subevents
  = Some (filter (fun s => match year_of (event_date s) with
                           | Some y => existsb (Z.eqb y) years
                           | None => false
                           end) subevents).
Proof.
  induction subevents as [|s rest IH]; intros Hall; [reflexivity|].
  cbn [filter_years filter].
  destruct (year_of (event_date s)) as [y|] eqn:E.
  - rewrite IH; [reflexivity|]. intros s' Hs'. apply Hall. now right.
  - exfalso. apply (Hall s); [now left | exact E].
Qed.

Lemma filter_years_none years subevents s :
  In s subevents -> year_of (event_date s) = None ->
  filter_years year_of years subevents = None.
Proof.
  induction subevents as [|s' rest IH]; intros Hin Hs; [destruct Hin|].
  cbn [filter_years]. destruct Hin as [->|Hin].
  - now rewrite Hs.
  - destruct (year_of (event_date s')); [|reflexivity].
    now rewrite (IH Hin Hs).
Qed.

(** X24: the year filter of [fetch_subevents].  Without years every
    sub-event is returned, dated or not.  With years the function returns
    the sub-events whose year is among them, in their order, provided every
    date parses; if one sub-event has a date that does not parse, the call
    raises, whatever the other sub-events are.  A sub-event without date is
    read as the empty string, so it makes the call raise as soon as the
    parser rejects the empty string. *)
Theorem fetch_subevents_filter (subevents : list subevent) (years : list Z) :
  fetch_subevents year_of subevents [] = Some subevents
  /\ (years <> [] ->
      (forall s, In s subevents -> year_of (event_date s) <> None) ->
      fetch_subevents year_of subevents years
      = Some (filter (fun s => match year_of (event_date s) with
                               | Some y => existsb (Z.eqb y) years
                               | None => false
                               end) subevents))
  /\ (years <> [] ->
      (exists s, In s subevents /\ year_of (event_date s) = None) ->
      fetch_subevents year_of subevents years = None)
  /\ (years <> [] -> year_of ""%string = None ->
      (exists s, In s subevents /\ wtc_eventdate_formatted s = None) ->
      fetch_subevents year_of subevents years = None).
Proof.
  unfold fetch_subevents. split; [reflexivity|].
  split; [|split]; intros Hyears; (destruct years as [|y years]; [congruence|]);
    cbn [is_empty].
  - apply filter_years_some.
  - intros [s [Hin Hs]]. now apply (filter_years_none _ _ s).
  - intros Hempty [s [Hin Hs]]. apply (filter_years_none _ _ s Hin).
    unfold event_date. now rewrite Hs.
Qed.

End FetchSubeventsFacts.

Lemma fetch_subevents_filter_witness :
  fetch_subevents slash_date_year [dated_subevent; undated_subevent] [2025]
  = None
  /\ fetch_subevents slash_date_year [dated_subevent] [2025]
     = Some [dated_subevent].
Proof.
  destruct (fetch_subevents_filter slash_date_year
              [dated_subevent; undated_subevent] [2025])
    as [_ [_ [_ Hmissing]]].
  destruct (fetch_subevents_filter slash_date_year [dated_subevent] [2025])
    as [_ [Hall _]].
  split.
  - apply Hmissing; [discriminate | reflexivity|].
    exists undated_subevent. split; [right; now left | reflexivity].
  - rewrite Hall; [reflexivity | discriminate|].
    intros s [<-|[]]. discriminate.
Defined.
